(** * CDCL.c: a shallow embedding of the solver core

    The development follows the layout of [CDCL.c]: literals, clauses,
    mutables (growable arrays of clause pointers), assignments, the trail,
    propagation, decision and conflict repair.  Pointers into the model
    table are kept as offsets ([lit - model], a [Z]); pointers to clauses
    are indices into a clause heap; every access outside an allocated
    array, every read of a never-written pointer, every read through a
    pointer to an array that [realloc] has moved and every read through
    the address of a local whose call has returned has no defined result
    ([None]).  The offsets are the numbers of the records; the module
    [Ptr] has the literal maps on the addresses of the records, modulo
    [2 ^ 64], and the lemmas [Ptr_DIMACS_to_lit_record],
    [Ptr_get_comp_lit_record] and [Ptr_lit_to_DIMACS_record] show where the
    two are the same: on every table of at most [PTRDIFF_MAX] bytes. *)

From Stdlib Require Import ZArith Lia.
From stdpp Require Import list relations strings.

Local Open Scope Z_scope.

(** ** Machine integers *)

(** [unsigned long] is taken at 64 bits (LP64). *)
Definition ULONG_MAX : Z := 2 ^ 64 - 1.

(** Conversion to [unsigned long] and to [signed long]. *)
Definition to_ulong (z : Z) : Z := z mod 2 ^ 64.
Definition to_long (z : Z) : Z := (z + 2 ^ 63) mod 2 ^ 64 - 2 ^ 63.

(** ** Macros *)

Inductive result_t := UNSAT | SAT.

Definition POSITIVE : Z := 1.
Definition NEGATIVE : Z := -1.

Definition DEC_MAX : Z := ULONG_MAX.

Definition DEC_ASS : Z := 0.
Definition PROP_ASS : Z := 1.
Definition CON_ASS : Z := 2.

(** Assignment states; the source numbers them 1 to 4 in this order. *)
Inductive ass_status_t := DECEASED | ACTIVE | PENDING | AVAILABLE.

Global Instance ass_status_eq_dec : EqDecision ass_status_t :=
  ltac:(solve_decision).

(** Modelled from the spec: [state_t] is declared in [CDCL.h], which is not
    part of the sources at hand; the driver states are DECIDE, PROPAGATE and
    CONFLICT, and [CDCL_decide] also returns SUCCESS. *)
Inductive state_t := DECIDE | PROPAGATE | CONFLICT | SUCCESS.

(** ** Literals *)

Section Literals.
Variable num_vars : Z.

(** [DIMACS_to_lit value - model], on the numbers of the records;
    [Ptr.DIMACS_to_lit] is the address. *)
Definition DIMACS_to_lit (value : Z) : Z :=
  (if value <? 0 then -1 else 1) * value - 1
  + (if value <? 0 then 1 else 0) * num_vars.

(** [lit_to_DIMACS] of the record with the number [lit]: the offset is
    converted to [unsigned long] by the [%] and the [<] against
    [num_vars]; the quotient is cast to [DIMACS_lit_t].
    [Ptr.lit_to_DIMACS] takes the address. *)
Definition lit_to_DIMACS (lit : Z) : Z :=
  to_long (to_long (to_ulong (to_ulong lit mod num_vars + 1))
           * (if to_ulong lit <? num_vars then 1 else -1)).

(** [get_comp_lit lit - model], on the numbers of the records: the
    displacement is [num_vars] elements up for a positive literal and down
    for a negative one.  [Ptr.get_comp_lit] is the address. *)
Definition get_comp_lit (lit : Z) : Z :=
  lit + (if to_ulong lit <? num_vars then 1 else -1) * num_vars.
End Literals.

(** ** Literals as addresses *)

(** The three functions above work on [lit - model], the number of the
    record a literal points to.  The machine works on the address: a record
    has [sizeof(ass_t)] bytes and an address is taken modulo [2 ^ 64].
    Here are the three functions on addresses, counted from the address of
    [model]; the two readings agree where the table of [2 * num_vars]
    records has at most [PTRDIFF_MAX] bytes, and not beyond. *)
Module Ptr.

(** [sizeof(ass_t)] under LP64: three fields of one byte and five bytes of
    padding, two [unsigned long], and the mutable, of two [unsigned long]
    and a pointer. *)
Definition sizeof_ass_t : Z := 48.

(** The address of [model], the origin. *)
Definition model : Z := 0.

(** [p + k] on an [ass_t*]. *)
Definition add (p k : Z) : Z := to_ulong (p + sizeof_ass_t * k).

(** [&model[i]]. *)
Definition record (i : Z) : Z := add model i.

(** [p - model], a [ptrdiff_t]: the distance in bytes, signed, over the
    size of a record, by the division of C, towards zero. *)
Definition diff (p : Z) : Z := Z.quot (to_long (p - model)) sizeof_ass_t.

Section Literals.
Variable num_vars : Z.

(** [model + ((value < 0 ? -1 : 1) * value) - 1 + ((value < 0) * num_vars)]:
    the product with [value] is a [long], the one with [num_vars] an
    [unsigned long]. *)
Definition DIMACS_to_lit (value : Z) : Z :=
  add (add (add model (to_long ((if value <? 0 then -1 else 1) * value))) (-1))
      (to_ulong ((if value <? 0 then 1 else 0) * num_vars)).

(** [lit - model] is converted to [unsigned long] by the [%] and the [<]
    against [num_vars]. *)
Definition lit_to_DIMACS (lit : Z) : Z :=
  to_long (to_long (to_ulong (to_ulong (diff lit) mod num_vars + 1))
           * (if to_ulong (diff lit) <? num_vars then 1 else -1)).

(** [lit + ((lit - model < num_vars ? 1 : -1) * num_vars)]: the
    displacement is an [unsigned long]. *)
Definition get_comp_lit (lit : Z) : Z :=
  add lit (to_ulong ((if to_ulong (diff lit) <? num_vars then 1 else -1) * num_vars)).
End Literals.

(** The largest number of variables whose table of [2 * num_vars] records
    has at most [PTRDIFF_MAX = 2 ^ 63 - 1] bytes. *)
Definition max_vars : Z := 96076792050570581.

End Ptr.

(** ** Clauses, mutables, assignments *)

(** A clause pointer is an index into the clause heap. *)
Definition clause_ptr := nat.

(** [lits] holds [None] where [clause_init] left the slot unwritten. *)
Record clause_t := mk_clause {
  lits : list (option Z);
  width : Z
}.

(** [used] is the length of [data]; [None] is the NULL pointer. *)
Record mutable_t := mk_mutable {
  size : Z;
  data : list (option clause_ptr)
}.

Definition used (m : mutable_t) : Z := Z.of_nat (length (data m)).

Record ass_t := mk_ass {
  ass_status : ass_status_t;
  truth_value : Z;
  ass_type : Z;
  dec_level : Z;
  num_active : Z;
  watched_lits : mutable_t
}.

(** [sequence] holds [None] where the array was never written. *)
Record trail_t := mk_trail {
  sequence : list (option Z);
  trail_head : Z;
  trail_tail : Z
}.

(** The global solver.  [cur_dec_level] is the global [dec_level];
    [heap] holds the clauses of [cnf.clauses] and, on top of them while
    [CDCL_repair_conflict] runs, the local [learned_clause] of the call. *)
Record solver := mk_solver {
  cur_dec_level : Z;
  num_vars : Z;
  num_asses : Z;
  num_conflicts : Z;
  num_decisions : Z;
  num_unit_props : Z;
  heap : list clause_t;
  cnf_size : Z;
  learned_cnf : mutable_t;
  model : list ass_t;
  trail : trail_t;
  state : state_t
}.

(** ** Field updates *)

Definition set_ass_status (x : ass_status_t) (a : ass_t) : ass_t :=
  mk_ass x (truth_value a) (ass_type a) (dec_level a) (num_active a) (watched_lits a).
Definition set_truth_value (x : Z) (a : ass_t) : ass_t :=
  mk_ass (ass_status a) x (ass_type a) (dec_level a) (num_active a) (watched_lits a).
Definition set_ass_type (x : Z) (a : ass_t) : ass_t :=
  mk_ass (ass_status a) (truth_value a) x (dec_level a) (num_active a) (watched_lits a).
Definition set_dec_level (x : Z) (a : ass_t) : ass_t :=
  mk_ass (ass_status a) (truth_value a) (ass_type a) x (num_active a) (watched_lits a).
Definition set_num_active (x : Z) (a : ass_t) : ass_t :=
  mk_ass (ass_status a) (truth_value a) (ass_type a) (dec_level a) x (watched_lits a).
Definition set_watched_lits (x : mutable_t) (a : ass_t) : ass_t :=
  mk_ass (ass_status a) (truth_value a) (ass_type a) (dec_level a) (num_active a) x.

Definition with_cur_dec_level (x : Z) (s : solver) : solver :=
  mk_solver x (num_vars s) (num_asses s) (num_conflicts s) (num_decisions s)
    (num_unit_props s) (heap s) (cnf_size s) (learned_cnf s) (model s) (trail s) (state s).
Definition with_num_conflicts (x : Z) (s : solver) : solver :=
  mk_solver (cur_dec_level s) (num_vars s) (num_asses s) x (num_decisions s)
    (num_unit_props s) (heap s) (cnf_size s) (learned_cnf s) (model s) (trail s) (state s).
Definition with_num_decisions (x : Z) (s : solver) : solver :=
  mk_solver (cur_dec_level s) (num_vars s) (num_asses s) (num_conflicts s) x
    (num_unit_props s) (heap s) (cnf_size s) (learned_cnf s) (model s) (trail s) (state s).
Definition with_num_unit_props (x : Z) (s : solver) : solver :=
  mk_solver (cur_dec_level s) (num_vars s) (num_asses s) (num_conflicts s) (num_decisions s)
    x (heap s) (cnf_size s) (learned_cnf s) (model s) (trail s) (state s).
Definition with_heap (x : list clause_t) (s : solver) : solver :=
  mk_solver (cur_dec_level s) (num_vars s) (num_asses s) (num_conflicts s) (num_decisions s)
    (num_unit_props s) x (cnf_size s) (learned_cnf s) (model s) (trail s) (state s).
Definition with_cnf_size (x : Z) (s : solver) : solver :=
  mk_solver (cur_dec_level s) (num_vars s) (num_asses s) (num_conflicts s) (num_decisions s)
    (num_unit_props s) (heap s) x (learned_cnf s) (model s) (trail s) (state s).
Definition with_learned_cnf (x : mutable_t) (s : solver) : solver :=
  mk_solver (cur_dec_level s) (num_vars s) (num_asses s) (num_conflicts s) (num_decisions s)
    (num_unit_props s) (heap s) (cnf_size s) x (model s) (trail s) (state s).
Definition with_model (x : list ass_t) (s : solver) : solver :=
  mk_solver (cur_dec_level s) (num_vars s) (num_asses s) (num_conflicts s) (num_decisions s)
    (num_unit_props s) (heap s) (cnf_size s) (learned_cnf s) x (trail s) (state s).
Definition with_trail (x : trail_t) (s : solver) : solver :=
  mk_solver (cur_dec_level s) (num_vars s) (num_asses s) (num_conflicts s) (num_decisions s)
    (num_unit_props s) (heap s) (cnf_size s) (learned_cnf s) (model s) x (state s).
Definition with_state (x : state_t) (s : solver) : solver :=
  mk_solver (cur_dec_level s) (num_vars s) (num_asses s) (num_conflicts s) (num_decisions s)
    (num_unit_props s) (heap s) (cnf_size s) (learned_cnf s) (model s) (trail s) x.

Definition with_head (h : Z) (s : solver) : solver :=
  with_trail (mk_trail (sequence (trail s)) h (trail_tail (trail s))) s.
Definition with_tail (t : Z) (s : solver) : solver :=
  with_trail (mk_trail (sequence (trail s)) (trail_head (trail s)) t) s.

(** ** Memory accesses *)

(** [model[lit - model]]: the record a literal points to. *)
Definition get_ass (s : solver) (lit : Z) : option ass_t :=
  if decide (0 <= lit) then model s !! Z.to_nat lit else None.

(** A write [lit->field = ...]. *)
Definition upd_ass (f : ass_t -> ass_t) (lit : Z) (s : solver) : option solver :=
  a ← get_ass s lit;
  Some (with_model (<[Z.to_nat lit := f a]> (model s)) s).

(** [sequence[i]], a read through a pointer [sequence + i]. *)
Definition seq_at (tr : trail_t) (i : Z) : option Z :=
  if decide (0 <= i) then
    match sequence tr !! Z.to_nat i with
    | Some (Some lit) => Some lit
    | _ => None
    end
  else None.

Definition trail_read (s : solver) (i : Z) : option Z := seq_at (trail s) i.

(** [trail.sequence[i] = lit]. *)
Definition trail_write (i : Z) (lit : Z) (s : solver) : option solver :=
  if decide (0 <= i < Z.of_nat (length (sequence (trail s)))) then
    Some (with_trail (mk_trail (<[Z.to_nat i := Some lit]> (sequence (trail s)))
                               (trail_head (trail s)) (trail_tail (trail s))) s)
  else None.

(** [clause->lits[i]] read as a literal. *)
Definition lit_at (c : clause_t) (i : nat) : option Z :=
  match lits c !! i with
  | Some (Some lit) => Some lit
  | _ => None
  end.

(** [*clause = c] for a clause of the heap. *)
Definition upd_clause (p : clause_ptr) (c : clause_t) (s : solver) : option solver :=
  if decide (p < length (heap s))%nat then Some (with_heap (<[p := c]> (heap s)) s)
  else None.

(** ** Clauses *)

Definition clause_init (w : Z) : clause_t :=
  mk_clause (replicate (Z.to_nat w) None) w.

(** [lits[i]] and [lits[j]] exchanged through [temp_lit]:
    [temp_lit = lits[i]; lits[i] = lits[j]; lits[j] = temp_lit]. *)
Definition swap_lits (i j : nat) (c : clause_t) : option clause_t :=
  temp_lit ← lits c !! i;
  other ← lits c !! j;
  Some (mk_clause (<[j := temp_lit]> (<[i := other]> (lits c))) (width c)).

(** ** Mutables *)

Definition mutable_init : mutable_t := mk_mutable 1 [].

Definition mutable_push (m : mutable_t) (datum : clause_ptr) : mutable_t :=
  if decide (used m = size m)
  then mk_mutable (to_ulong (2 * size m)) (data m ++ [Some datum])
  else mk_mutable (size m) (data m ++ [Some datum]).

(** [mutable_push(&(lit->watched_lits), datum)]. *)
Definition push_watch (lit : Z) (datum : clause_ptr) (s : solver) : option solver :=
  upd_ass (λ a, set_watched_lits (mutable_push (watched_lits a) datum) a) lit s.

(** ** Assignments *)

Definition assign (lit : Z) (s : solver) : option solver :=
  let comp_lit := get_comp_lit (num_vars s) lit in
  let d := cur_dec_level s in
  s ← upd_ass (set_truth_value POSITIVE) lit s;
  s ← upd_ass (set_dec_level d) lit s;
  s ← upd_ass (set_truth_value NEGATIVE) comp_lit s;
  upd_ass (set_dec_level d) comp_lit s.

Definition unassign (lit : Z) (s : solver) : option solver :=
  s ← upd_ass (set_dec_level DEC_MAX) lit s;
  upd_ass (set_dec_level DEC_MAX) (get_comp_lit (num_vars s) lit) s.

(** The [while] loop of [backtrack], with [n = trail.head - trail.sequence + 1]:
    the loop leaves when the head has moved below the sequence ([n = 0]) or
    when the literal at the head has a level not above [new_dec_level]. *)
Fixpoint backtrack_loop (new_dec_level : Z) (n : nat) (s : solver) : option solver :=
  match n with
  | O => Some (with_head (-1) s)
  | S h =>
      lit ← trail_read s (Z.of_nat h);
      a ← get_ass s lit;
      if decide (dec_level a > new_dec_level) then
        s ← unassign lit s;
        backtrack_loop new_dec_level h s
      else Some (with_head (Z.of_nat h) s)
  end.

Definition backtrack (new_dec_level : Z) (s : solver) : option solver :=
  s ← (if decide (trail_head (trail s) >= 0)
       then backtrack_loop new_dec_level (Z.to_nat (trail_head (trail s) + 1)) s
       else Some s);
  let s := with_head (trail_head (trail s) + 1) s in
  let s := with_tail (trail_head (trail s)) s in
  Some (with_cur_dec_level new_dec_level s).

(** ** Trail *)

Definition trail_queue_lit (lit : Z) (ty : Z) (s : solver) : option solver :=
  let comp_lit := get_comp_lit (num_vars s) lit in
  s ← upd_ass (set_ass_type ty) lit s;
  s ← upd_ass (set_ass_status PENDING) lit s;
  s ← upd_ass (set_ass_type ty) comp_lit s;
  s ← upd_ass (set_ass_status PENDING) comp_lit s;
  s ← trail_write (trail_tail (trail s)) lit s;
  Some (with_tail (trail_tail (trail s) + 1) s).

(** ** Propagation *)

(** [data[i]], a read through the local [data], which points to the array
    the propagator's list had when the clause loop began.  A push that
    finds the list full has [realloc] move it to an array twice the size
    and free the old one; so [data] points to the array of the list as
    long as the list has the size [size0] it had then, and to freed memory
    afterwards. *)
Definition data_at (s : solver) (propagator : Z) (size0 : Z) (i : nat)
    : option (option clause_ptr) :=
  a ← get_ass s propagator;
  if decide (size (watched_lits a) = size0) then data (watched_lits a) !! i
  else None.

(** [data[i] = NULL].  The clause loop has read [data[i]] at the start of
    the same turn and nothing was pushed since: [data] is the array of the
    list. *)
Definition null_data (propagator : Z) (i : nat) (s : solver) : option solver :=
  a ← get_ass s propagator;
  if decide (i < length (data (watched_lits a)))%nat then
    upd_ass (set_watched_lits
               (mk_mutable (size (watched_lits a)) (<[i := None]> (data (watched_lits a)))))
            propagator s
  else None.

(** [for (which_lit = 0; which_lit < clause->width; which_lit++)
       lits[which_lit]->num_active--;]
    over the indices still to do. *)
Fixpoint decrement_active (c : clause_t) (todo : list nat) (s : solver) : option solver :=
  match todo with
  | [] => Some s
  | which_lit :: todo =>
      lit ← lit_at c which_lit;
      s ← upd_ass (λ a, set_num_active (to_ulong (num_active a - 1)) a) lit s;
      decrement_active c todo s
  end.

(** The clause is extinct: its slot is nulled and the counters of its
    literals go down. *)
Definition extinguish (propagator : Z) (which_clause : nat) (c : clause_t)
    (s : solver) : option solver :=
  s ← null_data propagator which_clause s;
  decrement_active c (seq 0 (Z.to_nat (width c))) s.

(** What the search for a replacement watcher leaves behind:
    [clause_is_unit], [clause_is_extinct] and the solver. *)
Record searched := mk_searched {
  clause_is_unit : bool;
  clause_is_extinct : bool;
  after_search : solver
}.

(** [for (which_lit = 0; which_lit < clause->width - 2; which_lit++)], with
    [n] the iterations left. *)
Fixpoint search_loop (propagator : Z) (which_clause : nat) (p : clause_ptr)
    (n : nat) (which_lit : nat) (s : solver) : option searched :=
  match n with
  | O => Some (mk_searched true false s)
  | S n =>
      c ← heap s !! p;
      lit ← lit_at c which_lit;
      a ← get_ass s lit;
      if decide (ass_status a = DECEASED ∧ truth_value a = POSITIVE) then
        s ← extinguish propagator which_clause c s;
        Some (mk_searched true true s)
      else if decide (ass_status a = PENDING ∨ ass_status a = AVAILABLE ∨
                      (ass_status a = ACTIVE ∧ truth_value a = POSITIVE)) then
        c ← swap_lits 0 which_lit c;
        s ← upd_clause p c s;
        lit0 ← lit_at c 0;
        s ← push_watch (get_comp_lit (num_vars s) lit0) p s;
        Some (mk_searched false false s)
      else search_loop propagator which_clause p n (S which_lit) s
  end.

(** How the body of the clause loop ends: at its closing brace, at a
    [break] of the clause loop, or at [return CONFLICT]. *)
Inductive flow :=
  | Next (new_watchers : mutable_t) (s : solver)
  | Break (new_watchers : mutable_t) (s : solver)
  | Return_CONFLICT (s : solver).

(** [mutable_push(&new_watchers, clause)] repeated for the entries after
    [which_clause]. *)
Fixpoint push_rest (n : nat) (new_watchers : mutable_t) (p : clause_ptr) : mutable_t :=
  match n with
  | O => new_watchers
  | S n => push_rest n (mutable_push new_watchers p) p
  end.

(** The body of the clause loop for a non-NULL [clause = data[which_clause]]. *)
Definition clause_body (propagator : Z) (num_clauses which_clause : nat)
    (p : clause_ptr) (new_watchers : mutable_t) (s : solver) : option flow :=
  c ← heap s !! p;
  lit0 ← lit_at c 0;
  s ← (if decide (lit0 ≠ propagator)
       then c ← swap_lits 0 1 c; upd_clause p c s
       else Some s);
  c ← heap s !! p;
  lit1 ← lit_at c 1;
  a1 ← get_ass s lit1;
  if decide (dec_level a1 = 0) then
    s ← extinguish propagator which_clause c s;
    Some (Break new_watchers s)
  else if decide (ass_status a1 = ACTIVE) then
    Some (Break (mutable_push new_watchers p) s)
  else
    r ← search_loop propagator which_clause p
          (Z.to_nat (to_ulong (width c - 2))) 0 s;
    let s := after_search r in
    if clause_is_unit r && negb (clause_is_extinct r) then
      let s := with_num_unit_props (to_ulong (num_unit_props s + 1)) s in
      let new_watchers := mutable_push new_watchers p in
      c ← heap s !! p;
      lit1 ← lit_at c 1;
      a1 ← get_ass s lit1;
      if decide (ass_status a1 = AVAILABLE) then
        s ← trail_queue_lit lit1 PROP_ASS s;
        Some (Next new_watchers s)
      else if decide (truth_value a1 = NEGATIVE) then
        let new_watchers :=
          push_rest (num_clauses - S which_clause) new_watchers p in
        s ← upd_ass (set_watched_lits new_watchers) propagator s;
        Some (Return_CONFLICT s)
      else Some (Next new_watchers s)
    else Some (Next new_watchers s).

(** How the clause loop ends.  [visited] lists the clauses whose body was
    entered, in order; it is not a variable of the source. *)
Inductive scanned :=
  | Scanned (visited : list clause_ptr) (new_watchers : mutable_t) (s : solver)
  | Conflicting (visited : list clause_ptr) (s : solver).

(** [for (which_clause = 0; which_clause < num_clauses; which_clause++)],
    with [n] the iterations left. *)
Fixpoint clause_loop (propagator : Z) (size0 : Z) (num_clauses : nat) (n : nat)
    (which_clause : nat) (visited : list clause_ptr)
    (new_watchers : mutable_t) (s : solver) : option scanned :=
  match n with
  | O => Some (Scanned visited new_watchers s)
  | S n =>
      clause ← data_at s propagator size0 which_clause;
      match clause with
      | None =>
          clause_loop propagator size0 num_clauses n (S which_clause) visited
            new_watchers s
      | Some p =>
          r ← clause_body propagator num_clauses which_clause p new_watchers s;
          match r with
          | Next new_watchers s =>
              clause_loop propagator size0 num_clauses n (S which_clause)
                (visited ++ [p]) new_watchers s
          | Break new_watchers s => Some (Scanned (visited ++ [p]) new_watchers s)
          | Return_CONFLICT s => Some (Conflicting (visited ++ [p]) s)
          end
      end
  end.

(** One turn of the [while] loop of [CDCL_prop]: the literal at the trail
    head is assigned and its watch list scanned, through the locals [data]
    and [num_clauses] taken before the loop. *)
Definition scan_head (s : solver) : option scanned :=
  propagator ← trail_read s (trail_head (trail s));
  s ← assign propagator s;
  a ← get_ass s propagator;
  let num_clauses := length (data (watched_lits a)) in
  clause_loop propagator (size (watched_lits a)) num_clauses num_clauses 0 []
    mutable_init s.

(** The end of a turn that met no conflict: the new list is instated and
    the head moves on. *)
Definition finish_head (propagator : Z) (new_watchers : mutable_t) (s : solver)
    : option solver :=
  s ← upd_ass (set_watched_lits new_watchers) propagator s;
  Some (with_head (trail_head (trail s) + 1) s).

Definition prop_step (s : solver) : option (solver + solver) :=
  propagator ← trail_read s (trail_head (trail s));
  r ← scan_head s;
  match r with
  | Conflicting _ s => Some (inr s)
  | Scanned _ new_watchers s => s ← finish_head propagator new_watchers s; Some (inl s)
  end.

(** [while (trail.head != trail.tail)].  Every turn reads the sequence at
    the head and moves the head one up, so [fuel] above the length of the
    sequence is never used up. *)
Fixpoint prop_loop (fuel : nat) (s : solver) : option (state_t * solver) :=
  if decide (trail_head (trail s) = trail_tail (trail s)) then Some (DECIDE, s)
  else
    match fuel with
    | O => None
    | S fuel =>
        r ← prop_step s;
        match r with
        | inr s => Some (CONFLICT, s)
        | inl s => prop_loop fuel s
        end
    end.

Definition CDCL_prop (s : solver) : option (state_t * solver) :=
  prop_loop (S (length (sequence (trail s)))) s.

(** ** Decision *)

(** [for (which_var = 0; which_var < num_vars; which_var++)], with [n] the
    iterations left. *)
Fixpoint decide_loop (n : nat) (which_var : Z) (s : solver) : option (state_t * solver) :=
  match n with
  | O => Some (SUCCESS, s)
  | S n =>
      a ← get_ass s which_var;
      if decide (ass_status a = AVAILABLE) then
        s ← upd_ass (set_ass_type DEC_ASS) which_var s;
        s ← upd_ass (set_ass_type DEC_ASS) (which_var + num_vars s) s;
        s ← trail_queue_lit which_var DEC_ASS s;
        let s := with_cur_dec_level (to_ulong (cur_dec_level s + 1)) s in
        let s := with_num_decisions (to_ulong (num_decisions s + 1)) s in
        Some (PROPAGATE, s)
      else decide_loop n (which_var + 1) s
  end.

Definition CDCL_decide (s : solver) : option (state_t * solver) :=
  if decide (trail_head (trail s) = num_vars s) then Some (SUCCESS, s)
  else decide_loop (Z.to_nat (num_vars s)) 0 s.

(** ** Conflict repair *)

(** How a call that may leave the process ends: it returns, it reports a
    result and exits, or it stops in [error]. *)
Inductive outcome :=
  | Running (s : solver)
  | Exited (r : result_t) (s : solver)
  | Fatal.

(** The loop that fills the learned clause, with [n] the iterations left. *)
Fixpoint learn_loop (s : solver) (n : nat) (which_var : Z) (learned_clause : clause_t)
    : option clause_t :=
  match n with
  | O => Some learned_clause
  | S n =>
      a ← get_ass s which_var;
      if decide (ass_status a ≠ AVAILABLE ∧ ass_type a = DEC_ASS) then
        let i := to_ulong (cur_dec_level s - dec_level a) in
        if decide (i < Z.of_nat (length (lits learned_clause))) then
          let lit := if decide (truth_value a = POSITIVE)
                     then get_comp_lit (num_vars s) which_var else which_var in
          learn_loop s n (which_var + 1)
            (mk_clause (<[Z.to_nat i := Some lit]> (lits learned_clause))
                       (width learned_clause))
        else None
      else learn_loop s n (which_var + 1) learned_clause
  end.

(** The block under [if (dec_level != 1)].  [learned_clause] is a local of
    [CDCL_repair_conflict]: its cell is on top of the heap, at the address
    [length (heap s)], and it is this address that is pushed. *)
Definition learn (s : solver) : option solver :=
  learned_clause ← learn_loop s (Z.to_nat (num_vars s)) 0 (clause_init (cur_dec_level s));
  let p := length (heap s) in
  let s := with_heap (heap s ++ [learned_clause]) s in
  lit0 ← lit_at learned_clause 0;
  s ← push_watch (get_comp_lit (num_vars s) lit0) p s;
  lit1 ← lit_at learned_clause 1;
  s ← push_watch (get_comp_lit (num_vars s) lit1) p s;
  Some (with_learned_cnf (mutable_push (learned_cnf s) p) s).

(** The cell of the local leaves the heap when the call returns: what the
    lists hold of it from then on is the address of an object that is no
    more. *)
Definition CDCL_repair_conflict (s : solver) : option outcome :=
  let frame := length (heap s) in
  let s := with_num_conflicts (to_ulong (num_conflicts s + 1)) s in
  if decide (cur_dec_level s = 0) then Some (Exited UNSAT s)
  else
    s ← (if decide (cur_dec_level s ≠ 1) then learn s else Some s);
    s ← backtrack (to_ulong (cur_dec_level s - 1)) s;
    lit ← trail_read s (trail_head (trail s));
    s ← trail_queue_lit (get_comp_lit (num_vars s) lit) CON_ASS s;
    Some (Running (with_heap (take frame (heap s)) s)).

(** ** Initialisation *)

(** [malloc] leaves the truth value, the type and the decision level of a
    record as they happen to be: [raw i] is what the memory of [model[i]]
    holds in these three fields when [CDCL_init] has written the others. *)
Record raw_t := mk_raw {
  raw_truth_value : Z;
  raw_ass_type : Z;
  raw_dec_level : Z
}.

Definition init_model (raw : nat -> raw_t) (n : nat) : list ass_t :=
  map (λ i, mk_ass AVAILABLE (raw_truth_value (raw i)) (raw_ass_type (raw i))
              (raw_dec_level (raw i)) 0 mutable_init) (seq 0 n).

(** The [while (DIMACS_lit != 0)] loop that fills a stored clause, over the
    literals still to read. *)
Fixpoint read_lits (input : list Z) (which_lit : nat) (c : clause_t) (s : solver)
    : option (clause_t * solver) :=
  match input with
  | [] => Some (c, s)
  | DIMACS_lit :: input =>
      let lit := DIMACS_to_lit (num_vars s) DIMACS_lit in
      if decide (which_lit < length (lits c))%nat then
        let c := mk_clause (<[which_lit := Some lit]> (lits c)) (width c) in
        s ← upd_ass (λ a, set_num_active (to_ulong (num_active a + 1)) a) lit s;
        read_lits input (S which_lit) c s
      else None
  end.

(** The loop over the clauses of the file, each given by its literals
    without the closing 0. *)
Fixpoint init_clauses (input : list (list Z)) (s : solver) : option outcome :=
  match input with
  | [] => Some (Running s)
  | [] :: _ => Some (Exited UNSAT s)
  | [DIMACS_lit] :: input =>
      s ← trail_queue_lit (DIMACS_to_lit (num_vars s) DIMACS_lit) PROP_ASS s;
      let s := with_state PROPAGATE s in
      let s := with_cnf_size (to_ulong (cnf_size s - 1)) s in
      init_clauses input s
  | literals :: input =>
      let clause := clause_init (Z.of_nat (length literals)) in
      '(clause, s) ← read_lits literals 0 clause s;
      let p := length (heap s) in
      let s := with_heap (heap s ++ [clause]) s in
      lit0 ← lit_at clause 0;
      s ← push_watch (get_comp_lit (num_vars s) lit0) p s;
      lit1 ← lit_at clause 1;
      s ← push_watch (get_comp_lit (num_vars s) lit1) p s;
      init_clauses input s
  end.

(** [CDCL_init] after the header is read: [V] variables and the clauses
    [input], as many as the header announces.  The guard on [V] compares in
    [double], where [pow(2, 61) - 1] and every [V] up to [2^61 + 256] round
    to [2^61]. *)
Definition CDCL_init (raw : nat -> raw_t) (V : Z) (input : list (list Z))
    : option outcome :=
  if decide (V > 2 ^ 61 + 256) then Some Fatal
  else
    let n := Z.to_nat (to_ulong (V * 2)) in
    let s := mk_solver 0 V (to_ulong (V * 2)) 0 0 0 [] (Z.of_nat (length input))
               mutable_init (init_model raw n)
               (mk_trail (replicate n None) 0 0) DECIDE in
    if decide (cnf_size s = 0) then Some (Exited SAT s)
    else if decide (V = 0) then Some (Exited UNSAT s)
    else
      o ← init_clauses input s;
      match o with
      | Running s => Some (Running (with_learned_cnf mutable_init (with_cur_dec_level 0 s)))
      | o => Some o
      end.

(** ** The search driver *)

(** Modelled from the spec: the loop that calls [CDCL_decide], [CDCL_prop]
    and [CDCL_repair_conflict] is not in [CDCL.c].  DECIDE reports SAT when
    no decision is possible and goes to PROPAGATE otherwise; PROPAGATE goes
    to DECIDE on a clean exit and to CONFLICT on a conflict; CONFLICT
    repairs and goes to PROPAGATE. *)
Definition driver_step (s : solver) : option outcome :=
  match state s with
  | DECIDE =>
      '(t, s) ← CDCL_decide s;
      match t with
      | SUCCESS => Some (Exited SAT s)
      | _ => Some (Running (with_state t s))
      end
  | PROPAGATE =>
      '(t, s) ← CDCL_prop s;
      Some (Running (with_state t s))
  | CONFLICT =>
      o ← CDCL_repair_conflict s;
      match o with
      | Running s => Some (Running (with_state PROPAGATE s))
      | o => Some o
      end
  | SUCCESS => Some (Exited SAT s)
  end.

(** [n] transitions of the driver. *)
Fixpoint driver_run (n : nat) (s : solver) : option outcome :=
  match n with
  | O => Some (Running s)
  | S n =>
      o ← driver_step s;
      match o with
      | Running s => driver_run n s
      | o => Some o
      end
  end.

(** A solver started on a file; [num_vars] is read as an [unsigned long]. *)
Definition started (s : solver) : Prop :=
  ∃ raw V input, 0 <= V <= ULONG_MAX ∧ CDCL_init raw V input = Some (Running s).

(** The states the driver goes through. *)
Definition driven (s : solver) : Prop :=
  ∃ s0, started s0 ∧ rtc (λ s1 s2, driver_step s1 = Some (Running s2)) s0 s.

(** Any operation of the file, on any argument. *)
Inductive operation : solver -> solver -> Prop :=
  | op_assign lit s s' : assign lit s = Some s' -> operation s s'
  | op_unassign lit s s' : unassign lit s = Some s' -> operation s s'
  | op_backtrack k s s' : backtrack k s = Some s' -> operation s s'
  | op_trail_queue_lit lit ty s s' : trail_queue_lit lit ty s = Some s' -> operation s s'
  | op_prop t s s' : CDCL_prop s = Some (t, s') -> operation s s'
  | op_decide t s s' : CDCL_decide s = Some (t, s') -> operation s s'
  | op_repair_conflict s s' : CDCL_repair_conflict s = Some (Running s') -> operation s s'
  | op_driver s s' : driver_step s = Some (Running s') -> operation s s'.

(** The states any sequence of operations leads to. *)
Definition reachable (s : solver) : Prop :=
  ∃ s0, started s0 ∧ rtc operation s0 s.

(** Memory as the allocator hands it out when it is fresh: all zero. *)
Definition zeroed (i : nat) : raw_t := mk_raw 0 0 0.

(** ** Observations *)

Definition status_of (s : solver) (lit : Z) : option ass_status_t :=
  ass_status <$> get_ass s lit.
Definition level_of (s : solver) (lit : Z) : option Z :=
  dec_level <$> get_ass s lit.
Definition active_of (s : solver) (lit : Z) : option Z :=
  num_active <$> get_ass s lit.
Definition watch_list (s : solver) (lit : Z) : option (list (option clause_ptr)) :=
  data ∘ watched_lits <$> get_ass s lit.

(** The clauses of the store, original and learned, that contain [lit]. *)
Definition occurrences (lit : Z) (s : solver) : nat :=
  length (filter (λ c, Some lit ∈ lits c) (heap s)).

(** The status of a record is one of the two the solver writes. *)
Definition ok_ass (a : ass_t) : Prop :=
  (ass_status a = AVAILABLE ∨ ass_status a = PENDING)
  ∧ ass_status a ≠ ACTIVE ∧ ass_status a ≠ DECEASED.

Definition status_ok (s : solver) : Prop := Forall ok_ass (model s).

(** The solver a loop body or a loop ends with. *)
Definition flow_solver (r : flow) : solver :=
  match r with Next _ s | Break _ s | Return_CONFLICT s => s end.
Definition scanned_solver (r : scanned) : solver :=
  match r with Scanned _ _ s | Conflicting _ s => s end.

(** Two states on the way of the file [p cnf 2 1 / -1 2 0] in fresh memory:
    as started, and at the conflict the first decision runs into. *)
Definition demo_start : solver :=
  Eval vm_compute in
    match CDCL_init zeroed 2 [[-1; 2]] with
    | Some (Running s) => s
    | _ => mk_solver 0 0 0 0 0 0 [] 0 mutable_init [] (mk_trail [] 0 0) DECIDE
    end.

Definition demo_conflict : solver :=
  Eval vm_compute in
    match driver_run 2 demo_start with
    | Some (Running s) => s
    | _ => demo_start
    end.

(** The file [p cnf 2 2 / 1 0 / 2 0] as started in fresh memory, and the
    state [backtrack 0] leaves at the conflict of the other file. *)
Definition demo_units : solver :=
  Eval vm_compute in
    match CDCL_init zeroed 2 [[1]; [2]] with
    | Some (Running s) => s
    | _ => demo_start
    end.

Definition demo_backtracked : solver :=
  Eval vm_compute in
    match backtrack 0 demo_conflict with
    | Some s => s
    | None => demo_conflict
    end.

(** The [while] loop of [backtrack] leaves at once when the head is
    [n - 1]. *)
Definition stops (k : Z) (n : nat) (s : solver) : Prop :=
  match n with
  | O => True
  | S h => ∃ lit a, trail_read s (Z.of_nat h) = Some lit ∧
                    get_ass s lit = Some a ∧ ¬ dec_level a > k
  end.

(** The literal at position [j] of the sequence and its complement have
    the level [DEC_MAX]. *)
Definition unassigned (s : solver) (j : nat) : Prop :=
  ∃ lit a a', trail_read s (Z.of_nat j) = Some lit ∧
              get_ass s lit = Some a ∧ dec_level a = DEC_MAX ∧
              get_ass s (get_comp_lit (num_vars s) lit) = Some a' ∧
              dec_level a' = DEC_MAX.

(** ** The part of the solver the search is decided by *)

(** The status, truth value, type and level of a record. *)
Record core := mk_core {
  c_status : ass_status_t;
  c_truth : Z;
  c_type : Z;
  c_level : Z
}.

Definition core_of (a : ass_t) : core :=
  mk_core (ass_status a) (truth_value a) (ass_type a) (dec_level a).

Definition cores (s : solver) : list core := core_of <$> model s.

(** The core of the record a literal points to. *)
Definition cat (cs : list core) (lit : Z) : option core :=
  if decide (0 <= lit) then cs !! Z.to_nat lit else None.

Definition cset_status (x : ass_status_t) (c : core) : core :=
  mk_core x (c_truth c) (c_type c) (c_level c).
Definition cset_truth (x : Z) (c : core) : core :=
  mk_core (c_status c) x (c_type c) (c_level c).
Definition cset_type (x : Z) (c : core) : core :=
  mk_core (c_status c) (c_truth c) x (c_level c).
Definition cset_level (x : Z) (c : core) : core :=
  mk_core (c_status c) (c_truth c) (c_type c) x.

(** A write to the record of [lit], seen on the cores. *)
Definition c_upd (g : core -> core) (lit : Z) (cs : list core) : list core :=
  alter g (Z.to_nat lit) cs.

(** What the decisions, the levels and the trail of a solver are read
    from. *)
Definition view (s : solver) : Z * Z * trail_t * list core :=
  (num_vars s, cur_dec_level s, trail s, cores s).

(** A step of the clause loop, as the search sees it: nothing changes, or
    an AVAILABLE literal is queued as a propagation. *)
Inductive qstep : solver -> solver -> Prop :=
  | qstep_same s s' : view s' = view s -> qstep s s'
  | qstep_queue s lit a s' :
      get_ass s lit = Some a -> ass_status a = AVAILABLE ->
      trail_queue_lit lit PROP_ASS s = Some s' -> qstep s s'.

(** The trail positions whose literal is assigned: those below the head,
    and the head itself while its watch list is scanned. *)
Definition assigned_upto (b : bool) (tr : trail_t) : Z :=
  trail_head tr + (if b then 1 else 0).

(** The invariant of the search, on the view of a solver.  [D] lists the
    decision literals, the one of level [k + 1] at index [k]; the positions
    below [n0] hold the unit clauses of the file; [b] tells whether the
    literal at the head is assigned. *)
Record inv (b : bool) (n0 : Z) (D : list Z) (V d : Z) (tr : trail_t)
    (cs : list core) : Prop := mk_inv {
  inv_V : 0 < V <= 2 ^ 62;
  inv_len : Z.of_nat (length cs) = 2 * V;
  inv_seq : length (sequence tr) = length cs;
  inv_d : d = Z.of_nat (length D);
  inv_n0 : 0 <= n0 <= trail_tail tr;
  inv_ht : 0 <= trail_head tr <= trail_tail tr;
  inv_b : b = true -> trail_head tr < trail_tail tr;
  inv_pair : ∀ v c c',
    0 <= v < V -> cat cs v = Some c -> cat cs (v + V) = Some c' ->
    c_status c' = c_status c;
  inv_dec : ∀ v c,
    0 <= v < V -> cat cs v = Some c ->
    (c_status c ≠ AVAILABLE ∧ c_type c = DEC_ASS) ↔ v ∈ D;
  inv_nodup : NoDup D;
  inv_pending : ∀ j,
    0 <= j < trail_tail tr ->
    ∃ l c, seq_at tr j = Some l ∧ 0 <= l < 2 * V ∧
           cat cs l = Some c ∧ c_status c = PENDING;
  inv_level : ∀ j l,
    0 <= j < assigned_upto b tr -> seq_at tr j = Some l ->
    ∃ c c', cat cs l = Some c ∧ cat cs (get_comp_lit V l) = Some c' ∧
            c_level c' = c_level c ∧ 0 <= c_level c <= d;
  inv_mono : ∀ i j li lj ci cj,
    0 <= i <= j -> j < assigned_upto b tr ->
    seq_at tr i = Some li -> seq_at tr j = Some lj ->
    cat cs li = Some ci -> cat cs lj = Some cj ->
    c_level ci <= c_level cj;
  inv_pos : ∀ k v,
    D !! k = Some v ->
    0 <= v < V ∧
    ∃ pos, n0 <= pos <= trail_head tr ∧ pos < trail_tail tr ∧ Z.of_nat k <= pos ∧
           seq_at tr pos = Some v ∧
           (∀ j l c, 0 <= j < pos -> seq_at tr j = Some l -> cat cs l = Some c ->
                     c_level c <= Z.of_nat k) ∧
           (pos < assigned_upto b tr ->
            ∃ c, cat cs v = Some c ∧ c_level c = Z.of_nat k + 1 ∧
                 c_truth c = POSITIVE);
  inv_distinct : ∀ i j li lj,
    0 <= i < j -> n0 <= j < trail_tail tr ->
    seq_at tr i = Some li -> seq_at tr j = Some lj ->
    li ≠ lj ∧ li ≠ get_comp_lit V lj
}.

Definition Inv (b : bool) (n0 : Z) (D : list Z) (s : solver) : Prop :=
  inv b n0 D (num_vars s) (cur_dec_level s) (trail s) (cores s).

(** The cores after [trail_queue_lit lit ty]. *)
Definition queued (V : Z) (lit ty : Z) (cs : list core) : list core :=
  c_upd (cset_status PENDING) (get_comp_lit V lit)
    (c_upd (cset_type ty) (get_comp_lit V lit)
       (c_upd (cset_status PENDING) lit (c_upd (cset_type ty) lit cs))).

(** The cores after [assign lit] at level [d]. *)
Definition assigned (V d : Z) (lit : Z) (cs : list core) : list core :=
  c_upd (cset_level d) (get_comp_lit V lit)
    (c_upd (cset_truth NEGATIVE) (get_comp_lit V lit)
       (c_upd (cset_level d) lit (c_upd (cset_truth POSITIVE) lit cs))).

(** The cores after [unassign lit]. *)
Definition unassigned_cores (V : Z) (lit : Z) (cs : list core) : list core :=
  c_upd (cset_level DEC_MAX) (get_comp_lit V lit) (c_upd (cset_level DEC_MAX) lit cs).

(** The trail after a write of [lit] at the tail. *)
Definition pushed (lit : Z) (tr : trail_t) : trail_t :=
  mk_trail (<[Z.to_nat (trail_tail tr) := Some lit]> (sequence tr))
           (trail_head tr) (trail_tail tr + 1).

(** The literals of the learned clause when the variables below [w] have
    been looked at: the complement of a decision at the position of its
    level, counted from the end. *)
Definition learned_lits (V : Z) (D : list Z) (w : Z) : list (option Z) :=
  (λ x, if decide (x < w) then Some (get_comp_lit V x) else None) <$> reverse D.


(** The invariant of [CDCL_init] while the clauses are read: nothing is
    decided or assigned, and the trail holds the unit clauses read so
    far. *)
Record inv0 (V d : Z) (tr : trail_t) (cs : list core) : Prop := mk_inv0 {
  inv0_V : 0 < V <= 2 ^ 62;
  inv0_len : Z.of_nat (length cs) = 2 * V;
  inv0_seq : length (sequence tr) = length cs;
  inv0_d : d = 0;
  inv0_head : trail_head tr = 0;
  inv0_tail : 0 <= trail_tail tr;
  inv0_pair : ∀ v c c',
    0 <= v < V -> cat cs v = Some c -> cat cs (v + V) = Some c' ->
    c_status c' = c_status c;
  inv0_type : ∀ l c,
    cat cs l = Some c -> c_status c = AVAILABLE ∨ c_type c = PROP_ASS;
  inv0_pending : ∀ j,
    0 <= j < trail_tail tr ->
    ∃ l c, seq_at tr j = Some l ∧ 0 <= l < 2 * V ∧
           cat cs l = Some c ∧ c_status c = PENDING
}.

Definition Inv0 (s : solver) : Prop :=
  inv0 (num_vars s) (cur_dec_level s) (trail s) (cores s).

(** The state the clauses of the file leave the driver in: DECIDE with an
    empty trail, or PROPAGATE. *)
Definition ready (s : solver) : Prop :=
  (state s = DECIDE ∧ trail_tail (trail s) = 0) ∨ state s = PROPAGATE.

(** ** The decisions of a run *)

(** [drives D s]: the driver has brought a started solver to [s], and [D]
    lists the decisions in force, the one that opened level [k + 1] at
    index [k].  A decision is the literal [CDCL_decide] has just queued, the
    last of the trail; a repair gives up the last decision. *)
Inductive drives : list Z -> solver -> Prop :=
  | drives_start s : started s -> drives [] s
  | drives_decide D s s' v :
      drives D s -> state s = DECIDE ->
      CDCL_decide s = Some (PROPAGATE, s') ->
      trail_read s' (trail_tail (trail s') - 1) = Some v ->
      drives (D ++ [v]) (with_state PROPAGATE s')
  | drives_prop D s t s' :
      drives D s -> state s = PROPAGATE ->
      CDCL_prop s = Some (t, s') ->
      drives D (with_state t s')
  | drives_repair D s s' :
      drives D s -> state s = CONFLICT ->
      CDCL_repair_conflict s = Some (Running s') ->
      drives (removelast D) (with_state PROPAGATE s').

(** [n] transitions of the driver from [s], with the decisions in force. *)
Fixpoint decisions_run (n : nat) (D : list Z) (s : solver) : option (list Z * solver) :=
  match n with
  | O => Some (D, s)
  | S n =>
      match state s with
      | DECIDE =>
          '(t, s) ← CDCL_decide s;
          match t with
          | PROPAGATE =>
              v ← trail_read s (trail_tail (trail s) - 1);
              decisions_run n (D ++ [v]) (with_state PROPAGATE s)
          | _ => None
          end
      | PROPAGATE =>
          '(t, s) ← CDCL_prop s;
          decisions_run n D (with_state t s)
      | CONFLICT =>
          o ← CDCL_repair_conflict s;
          match o with
          | Running s => decisions_run n (removelast D) (with_state PROPAGATE s)
          | _ => None
          end
      | SUCCESS => None
      end
  end.

(** The invariant of the search in each state of the driver. *)
Definition search_inv (n0 : Z) (D : list Z) (s : solver) : Prop :=
  match state s with
  | DECIDE => Inv false n0 D s ∧ trail_head (trail s) = trail_tail (trail s)
  | PROPAGATE => Inv false n0 D s
  | CONFLICT => Inv true n0 D s
  | SUCCESS => False
  end.

(** The record of [lit] is that of a decision assigned at level [k]. *)
Definition decision_at (s : solver) (k : Z) (lit : Z) : Prop :=
  ∃ a, get_ass s lit = Some a ∧ ass_status a ≠ AVAILABLE ∧ ass_type a = DEC_ASS ∧
       truth_value a = POSITIVE ∧ dec_level a = k.

(** The file [p cnf 3 1 / -2 3 0] in fresh memory: as started, and at the
    conflict the second decision runs into. *)
Definition demo_learn_start : solver :=
  Eval vm_compute in
    match CDCL_init zeroed 3 [[-2; 3]] with
    | Some (Running s) => s
    | _ => demo_start
    end.

Definition demo_learn_conflict : solver :=
  Eval vm_compute in
    match driver_run 4 demo_learn_start with
    | Some (Running s) => s
    | _ => demo_learn_start
    end.

(** The cores [cs1] when the positions of the trail [tr] from [lo] up to the
    head are unassigned: they differ from [cs] in levels alone, and only at
    the literals of these positions and at their complements. *)
Definition agree (V : Z) (tr : trail_t) (cs cs1 : list core) (lo : Z) : Prop :=
  length cs1 = length cs ∧
  (∀ l, cset_level 0 <$> cat cs1 l = cset_level 0 <$> cat cs l) ∧
  (∀ l, (∀ j lj, lo <= j <= trail_head tr -> seq_at tr j = Some lj ->
                 l ≠ lj ∧ l ≠ get_comp_lit V lj) ->
        cat cs1 l = cat cs l).

(** The store and the watch lists of two solvers are the same. *)
Definition same_store (s s' : solver) : Prop :=
  heap s' = heap s ∧ learned_cnf s' = learned_cnf s ∧
  ∀ l, watch_list s' l = watch_list s l.


(** ** Observations on a file *)

(** The literals of the unit clauses of a file, in the order of the file,
    and the clauses that are not unit. *)
Definition file_units (input : list (list Z)) : list Z :=
  input ≫= λ literals, match literals with [x] => [x] | _ => [] end.
Definition file_clauses (input : list (list Z)) : list (list Z) :=
  filter (λ literals, length literals ≠ 1%nat) input.

(** The clause of the literals of a line, each as [DIMACS_to_lit] gives
    it. *)
Definition stored (V : Z) (literals : list Z) : clause_t :=
  mk_clause ((λ x, Some (DIMACS_to_lit V x)) <$> literals) (Z.of_nat (length literals)).

(** How often the literal [l] of the table is written in the clauses. *)
Definition file_occurrences (V : Z) (l : Z) (clauses : list (list Z)) : nat :=
  length (filter (λ x, DIMACS_to_lit V x = l) (concat clauses)).

(** The entries the clause [literals] stored at [p] makes on the watch list
    of [l]: one if [l] is the complement of its first literal, and one if
    it is the complement of its second. *)
Definition watched_by (V : Z) (l : Z) (p : clause_ptr) (literals : list Z)
    : list clause_ptr :=
  match literals with
  | x :: y :: _ =>
      (if decide (get_comp_lit V (DIMACS_to_lit V x) = l) then [p] else []) ++
      (if decide (get_comp_lit V (DIMACS_to_lit V y) = l) then [p] else [])
  | _ => []
  end.

Definition file_watchers (V : Z) (l : Z) (clauses : list (list Z)) : list clause_ptr :=
  concat (imap (watched_by V l) clauses).

(** [s'] differs from [s] in the records of the model alone. *)
Definition model_write (s s' : solver) : Prop :=
  s' = with_model (model s') s ∧ length (model s') = length (model s).

(** The literals of the table the unit clauses of the lines are read
    as. *)
Definition queued_units (V : Z) (input : list (list Z)) : list Z :=
  DIMACS_to_lit V <$> file_units input.

(** What the clause loop of [CDCL_init] has built when it has read the
    lines [pre] of a file of [N] lines over [V] variables. *)
Record built (V N : Z) (pre : list (list Z)) (s : solver) : Prop := mk_built {
  built_V_range : 0 < V <= 2 ^ 62;
  built_num_vars : num_vars s = V;
  built_level : cur_dec_level s = 0;
  built_learned : learned_cnf s = mutable_init;
  built_model : Z.of_nat (length (model s)) = 2 * V;
  built_sequence : Z.of_nat (length (sequence (trail s))) = 2 * V;
  built_heap : heap s = stored V <$> file_clauses pre;
  built_cnf_size : cnf_size s = N - Z.of_nat (length (file_units pre));
  built_head : trail_head (trail s) = 0;
  built_tail : trail_tail (trail s) = Z.of_nat (length (file_units pre));
  built_units : ∀ (i : nat) x,
    file_units pre !! i = Some x ->
    trail_read s (Z.of_nat i) = Some (DIMACS_to_lit V x);
  built_room : Z.of_nat (length (file_units pre)) <= 2 * V;
  built_valid : ∀ literals x,
    literals ∈ pre -> x ∈ literals -> 0 <= DIMACS_to_lit V x < 2 * V;
  built_state : state s = if decide (file_units pre = []) then DECIDE else PROPAGATE;
  built_records : ∀ l,
    0 <= l < 2 * V ->
    ∃ a, get_ass s l = Some a ∧
         num_active a = to_ulong (Z.of_nat (file_occurrences V l (file_clauses pre))) ∧
         data (watched_lits a) = Some <$> file_watchers V l (file_clauses pre) ∧
         ass_status a =
           (if decide (l ∈ queued_units V pre ∨ get_comp_lit V l ∈ queued_units V pre)
            then PENDING else AVAILABLE) ∧
         (ass_status a = PENDING -> ass_type a = PROP_ASS)
}.

(** The file [p cnf 2 2 / 1 0 / 2 0] when its two units are propagated. *)
Definition demo_units_propagated : solver :=
  Eval vm_compute in
    match driver_run 1 demo_units with
    | Some (Running s) => s
    | _ => demo_units
    end.

(** The state of that file, [p cnf 3 1 / -2 3 0], after its first
    decision. *)
Definition demo_learn_decided : solver :=
  Eval vm_compute in
    match CDCL_decide demo_learn_start with
    | Some (_, s) => s
    | None => demo_learn_start
    end.

(** ** Runs of the driver *)

Global Instance state_eq_dec : EqDecision state_t :=
  ltac:(solve_decision).

(** The driver goes from [s0] to [s] in some number of transitions. *)
Definition reaches (s0 s : solver) : Prop :=
  rtc (λ s1 s2, driver_step s1 = Some (Running s2)) s0 s.

(** The literal at position [j] of the trail is assigned: [j] is below the
    head, or at the head when the propagator has met a conflict. *)
Definition assigned_position (s : solver) (j : Z) : Prop :=
  0 <= j ∧ (j < trail_head (trail s) ∨ (state s = CONFLICT ∧ j = trail_head (trail s))).

(** From [s] to [s'] the trail has only grown: the entries below the old
    tail are the same, and the head and the tail have not moved down. *)
Definition trail_grows (s s' : solver) : Prop :=
  length (sequence (trail s')) = length (sequence (trail s)) ∧
  trail_head (trail s) <= trail_head (trail s') ∧
  trail_tail (trail s) <= trail_tail (trail s') ∧
  ∀ j, 0 <= j < trail_tail (trail s) -> trail_read s' j = trail_read s j.

(** What [CDCL_prop] returns on the file [p cnf 2 2 / 1 0 / 2 0] as
    started. *)
Definition demo_units_prop : solver :=
  Eval vm_compute in
    match CDCL_prop demo_units with
    | Some (_, s) => s
    | None => demo_units
    end.

(** The clauses of two stores are the same but for the order of the
    literals inside a clause. *)
Definition same_clauses (h h' : list clause_t) : Prop :=
  Forall2 (λ c c', width c' = width c ∧ lits c' ≡ₚ lits c) h h'.

(** From [s] to [s'] the store of the original clauses is kept, and so is
    the store of the learned ones. *)
Definition keeps_clauses (s s' : solver) : Prop :=
  same_clauses (heap s) (heap s') ∧ cnf_size s' = cnf_size s ∧ num_vars s' = num_vars s.
Definition keeps_store (s s' : solver) : Prop :=
  keeps_clauses s s' ∧ learned_cnf s' = learned_cnf s.

(** What [CDCL_prop] returns on the state of the file
    [p cnf 3 1 / -2 3 0] after its first decision. *)
Definition demo_learn_propagated : solver :=
  Eval vm_compute in
    match CDCL_prop demo_learn_decided with
    | Some (_, s) => s
    | None => demo_learn_decided
    end.

(** The state of the file [p cnf 3 1 / -2 3 0] when its first conflict is
    repaired. *)
Definition demo_learn_repaired : solver :=
  Eval vm_compute in
    match driver_run 5 demo_learn_start with
    | Some (Running s) => s
    | _ => demo_learn_start
    end.

(** The variable of a literal of the table, counted from 0. *)
Definition var_of (V : Z) (l : Z) : Z := if l <? V then l else l - V.

(** The state of the file [p cnf 3 1 / -2 3 0] when its first decision is
    propagated. *)
Definition demo_learn_propagated_state : solver :=
  Eval vm_compute in
    match driver_run 2 demo_learn_start with
    | Some (Running s) => s
    | _ => demo_learn_start
    end.

(** ** Printing *)

(** A call [fprintf(stderr, format, ...)]: the format, as the literal is
    written in the source, and the values of the arguments after it. *)
Inductive out := Printf (format : string) (args : list Z).

(** [lit_print(lit)], with [slot] what the read [*lit] finds. *)
Definition lit_print (V : Z) (slot : option Z) : option (list out) :=
  lit ← slot;
  Some [Printf "%ld" [lit_to_DIMACS V lit]].

(** [for(which_lit = 0; which_lit < num_lits; which_lit++)], with [n] the
    iterations left. *)
Fixpoint clause_print_loop (V : Z) (c : clause_t) (n : nat) (which_lit : nat)
    : option (list out) :=
  match n with
  | O => Some []
  | S n =>
      o ← lit_print V (lit_at c which_lit);
      rest ← clause_print_loop V c n (S which_lit);
      Some (o ++ Printf " " [] :: rest)
  end.

Definition clause_print (V : Z) (c : clause_t) : option (list out) :=
  o ← clause_print_loop V c (Z.to_nat (width c)) 0;
  Some (o ++ [Printf " 0\n" []]).

Fixpoint cnf_print_loop (s : solver) (n : nat) (which_clause : nat) : option (list out) :=
  match n with
  | O => Some []
  | S n =>
      c ← heap s !! which_clause;
      o ← clause_print (num_vars s) c;
      rest ← cnf_print_loop s n (S which_clause);
      Some (o ++ rest)
  end.

Definition cnf_print (s : solver) : option (list out) :=
  o ← cnf_print_loop s (Z.to_nat (cnf_size s)) 0;
  Some (Printf "FORMULA:\n" [] :: o).

(** The loop of [mutable_print_clauses] over the entries still to print:
    [clause_print(data[which_clause])] reads through the entry. *)
Fixpoint mutable_print_loop (s : solver) (entries : list (option clause_ptr))
    : option (list out) :=
  match entries with
  | [] => Some []
  | clause :: entries =>
      p ← clause;
      c ← heap s !! p;
      o ← clause_print (num_vars s) c;
      rest ← mutable_print_loop s entries;
      Some (o ++ Printf "\n" [] :: rest)
  end.

Definition mutable_print_clauses (s : solver) (m : mutable_t) : option (list out) :=
  o ← mutable_print_loop s (data m);
  Some (Printf "LEARNED CLAUSES:\n" [] ::
        Printf "size: %lu, used: %lu\n" [size m; used m] :: o).

Definition ass_print (a : ass_t) : list out :=
  if decide (dec_level a = DEC_MAX) then [Printf "0" []]
  else [Printf "%2d / %lu " [truth_value a; dec_level a]].

Fixpoint print_model_loop (s : solver) (n : nat) (which_var : Z) : option (list out) :=
  match n with
  | O => Some []
  | S n =>
      a ← get_ass s which_var;
      rest ← print_model_loop s n (which_var + 1);
      Some (Printf "%lu: " [to_ulong (which_var + 1)] :: ass_print a ++ Printf "\n" [] :: rest)
  end.

Definition print_model (s : solver) : option (list out) :=
  o ← print_model_loop s (Z.to_nat (num_vars s)) 0;
  Some (Printf "MODEL:\n" [] :: o ++ [Printf "\n" []]).

(** The [switch] of [print_trail] on the type of an assignment. *)
Definition print_ass_type (ty : Z) : list out :=
  if decide (ty = DEC_ASS) then [Printf "D " []]
  else if decide (ty = PROP_ASS) then [Printf "P " []]
  else if decide (ty = CON_ASS) then [Printf "C " []]
  else [].

(** [for(temp_pointer = trail.sequence; temp_pointer < trail.tail;
    temp_pointer++)], with [n] the iterations left and [i] the offset of
    [temp_pointer] in the sequence. *)
Fixpoint print_trail_loop (s : solver) (n : nat) (i : Z) : option (list out) :=
  match n with
  | O => Some []
  | S n =>
      lit ← trail_read s i;
      a ← get_ass s lit;
      rest ← print_trail_loop s n (i + 1);
      Some (Printf "%lu: %ld " [i + 1; lit_to_DIMACS (num_vars s) lit] ::
            (if decide (ass_status a = PENDING) then [Printf "W " []]
             else print_ass_type (ass_type a)) ++
            (if decide (i = trail_head (trail s)) then [Printf "HEAD" []] else []) ++
            (if decide (i = trail_tail (trail s)) then [Printf "TAIL" []] else []) ++
            Printf "\n" [] :: rest)
  end.

Definition print_trail (s : solver) : option (list out) :=
  if decide (0 = trail_tail (trail s)) then
    Some [Printf "TRAIL: " []; Printf " (empty)\n\n" []]
  else
    o ← print_trail_loop s (Z.to_nat (trail_tail (trail s))) 0;
    Some (Printf "TRAIL: " [] :: Printf "\n" [] :: o ++ [Printf "\n" []]).

Definition CDCL_print (s : solver) : option (list out) :=
  formula ← cnf_print s;
  learned ← mutable_print_clauses s (learned_cnf s);
  assignment ← print_model s;
  sequence ← print_trail s;
  Some (formula ++ Printf "\n" [] :: learned ++ assignment ++ sequence).

(** The calls that print the literals of a line of a file. *)
Definition printed_literals (literals : list Z) : list out :=
  literals ≫= λ x, [Printf "%ld" [x]; Printf " " []].

(** ** The unit test on clauses *)

(** The function [clause_is_unit] of the source; the propagator has a
    local of the same name, which is a field of [searched] here. *)
Module Clause.
Definition clause_is_unit (c : clause_t) : Z :=
  if decide (width c = 1) then 1 else 0.
End Clause.
(** ** Theorems *)

(** Evaluation of a conjunction of closed equations, left to right. *)
Ltac evaluate :=
  repeat (refine (conj _ _); [vm_compute; reflexivity |]); vm_compute; reflexivity.

(** *** The literal maps *)


(** **** Addresses and numbers of records *)

(** A displacement counts modulo [2 ^ 64]: read as [long] or as
    [unsigned long], it moves the address to the same place. *)
Lemma Ptr_add_mod p k : Ptr.add p (k mod 2 ^ 64) = Ptr.add p k.
Proof.
  unfold Ptr.add, to_ulong, Ptr.sizeof_ass_t.
  rewrite <- Zplus_mod_idemp_r, Zmult_mod_idemp_r, Zplus_mod_idemp_r. done.
Qed.

Lemma Ptr_add_to_ulong p k : Ptr.add p (to_ulong k) = Ptr.add p k.
Proof. apply Ptr_add_mod. Qed.

Lemma Ptr_add_to_long p k : Ptr.add p (to_long k) = Ptr.add p k.
Proof.
  unfold to_long. rewrite <- (Ptr_add_mod p (_ - _)).
  rewrite Zminus_mod_idemp_l. replace (k + 2 ^ 63 - 2 ^ 63) with k by lia.
  apply Ptr_add_mod.
Qed.

Lemma Ptr_add_record l k : Ptr.add (Ptr.record l) k = Ptr.record (l + k).
Proof.
  unfold Ptr.record, Ptr.add, Ptr.model, to_ulong. rewrite Zplus_mod_idemp_l.
  f_equal. lia.
Qed.

Lemma Ptr_record_small l :
  0 <= Ptr.sizeof_ass_t * l < 2 ^ 64 → Ptr.record l = Ptr.sizeof_ass_t * l.
Proof.
  intros Hl. unfold Ptr.record, Ptr.add, Ptr.model, to_ulong.
  rewrite Z.add_0_l. by apply Z.mod_small.
Qed.

(** The records of a table below [2 ^ 63] bytes are told apart by [p - model]. *)
Lemma Ptr_diff_record l :
  0 <= Ptr.sizeof_ass_t * l < 2 ^ 63 → Ptr.diff (Ptr.record l) = l.
Proof.
  intros Hl. unfold Ptr.diff. rewrite Ptr_record_small by lia.
  unfold Ptr.model, to_long. rewrite Z.sub_0_r, Z.mod_small by lia.
  replace (Ptr.sizeof_ass_t * l + 2 ^ 63 - 2 ^ 63) with (l * Ptr.sizeof_ass_t) by lia.
  by apply Z.quot_mul.
Qed.

(** [DIMACS_to_lit] gives the address of the record whose number the
    reading on numbers gives, whatever the value. *)
Lemma Ptr_DIMACS_to_lit_record V x :
  Ptr.DIMACS_to_lit V x = Ptr.record (DIMACS_to_lit V x).
Proof.
  unfold Ptr.DIMACS_to_lit, DIMACS_to_lit.
  rewrite Ptr_add_to_ulong, Ptr_add_to_long.
  fold (Ptr.record ((if x <? 0 then -1 else 1) * x)).
  rewrite !Ptr_add_record. f_equal.
Qed.

Lemma Ptr_get_comp_lit_record V l :
  0 <= Ptr.sizeof_ass_t * l < 2 ^ 63 →
  Ptr.get_comp_lit V (Ptr.record l) = Ptr.record (get_comp_lit V l).
Proof.
  intros Hl. unfold Ptr.get_comp_lit, get_comp_lit.
  rewrite Ptr_diff_record by done. by rewrite Ptr_add_to_ulong, Ptr_add_record.
Qed.

Lemma Ptr_lit_to_DIMACS_record V l :
  0 <= Ptr.sizeof_ass_t * l < 2 ^ 63 →
  Ptr.lit_to_DIMACS V (Ptr.record l) = lit_to_DIMACS V l.
Proof.
  intros Hl. unfold Ptr.lit_to_DIMACS, lit_to_DIMACS.
  by rewrite Ptr_diff_record.
Qed.

(** The number of the record of a DIMACS literal of a declared variable. *)
Lemma DIMACS_to_lit_table V x :
  1 <= Z.abs x <= V → 0 <= DIMACS_to_lit V x < 2 * V.
Proof.
  intros Hx. unfold DIMACS_to_lit. destruct (Z.ltb_spec x 0); lia.
Qed.




(** The bound of the theorem is the last number of variables it holds
    for: with one variable more the last record of the table lies [2 ^ 63]
    bytes and more above [model], [lit - model] is negative there, and the
    literal of that record comes back as another. *)
Lemma max_vars_is_last :
  Ptr.lit_to_DIMACS (Ptr.max_vars + 1)
    (Ptr.DIMACS_to_lit (Ptr.max_vars + 1) (- (Ptr.max_vars + 1)))
  ≠ - (Ptr.max_vars + 1).
Proof. vm_compute. discriminate. Qed.

(** *** Runs of the propagator

    The literals of a file on [V] variables are numbered as [DIMACS_to_lit]
    does: [v] is [v - 1] and [-v] is [V + v - 1].  The runs below hold for
    every content [raw] of the memory the model is allocated in. *)

(** C1: the file [p cnf 3 4 / 1 0 / 2 0 / 1 -2 0 / 3 -2 0].  When literal 2
    reaches the trail head its watch list holds the clauses 0 and 1, both
    non-null.  Clause 0 is extinct (its other watcher, literal 1, sits at
    level 0) and its [break] leaves the clause loop: the step ends without
    conflict, clause 1 was never visited (it is unchanged, its unit literal
    3 is still AVAILABLE) and the new watch list is empty. *)
Theorem prop_break_ends_clause_scan (raw : nat -> raw_t) :
  ∃ s0 s1 new_watchers s2,
    CDCL_init raw 3 [[1]; [2]; [1; -2]; [3; -2]] = Some (Running s0) ∧
    prop_step s0 = Some (inl s1) ∧
    trail_read s1 (trail_head (trail s1)) = Some 1 ∧
    watch_list s1 1 = Some [Some 0%nat; Some 1%nat] ∧
    scan_head s1 = Some (Scanned [0%nat] new_watchers s2) ∧
    data new_watchers = [] ∧
    heap s2 !! 1%nat = heap s1 !! 1%nat ∧
    status_of s2 2 = Some AVAILABLE.
Proof. do 4 eexists. evaluate. Qed.

(** C2: the file [p cnf 3 2 / -1 2 0 / 3 -1 0].  After the decision of
    literal 1 its watch list is [clause 0; clause 1]; the conflict is met on
    clause 0, and the list instated on return is [clause 0; clause 0]: the
    unprocessed entry, clause 1, is replaced by a second pointer to the
    clause in hand. *)
Theorem conflict_repeats_current_clause (raw : nat -> raw_t) :
  ∃ s0 s1 s2,
    CDCL_init raw 3 [[-1; 2]; [3; -1]] = Some (Running s0) ∧
    driver_step s0 = Some (Running s1) ∧
    trail_read s1 (trail_head (trail s1)) = Some 0 ∧
    watch_list s1 0 = Some [Some 0%nat; Some 1%nat] ∧
    scan_head s1 = Some (Conflicting [0%nat] s2) ∧
    watch_list s2 0 = Some [Some 0%nat; Some 0%nat].
Proof. do 3 eexists. evaluate. Qed.

(** C5: the file [p cnf 3 1 / -1 2 3 0].  After the decision of literal 1
    the clause is [-1 2 3], normalised to [2 -1 3].  The search looks at
    position 0 alone ([which_lit < width - 2]), finds literal 2 there and
    swaps it with itself; literal 3 at position 2, AVAILABLE, is not looked
    at.  The clause is pushed a second time on the list of the complement
    of literal 2, and the list of the complement of literal 3 stays empty. *)
Theorem search_examines_from_position_0 (raw : nat -> raw_t) :
  ∃ s0 s1 visited new_watchers s2,
    CDCL_init raw 3 [[-1; 2; 3]] = Some (Running s0) ∧
    driver_step s0 = Some (Running s1) ∧
    trail_read s1 (trail_head (trail s1)) = Some 0 ∧
    heap s1 !! 0%nat = Some (mk_clause [Some 3; Some 1; Some 2] 3) ∧
    status_of s1 2 = Some AVAILABLE ∧
    scan_head s1 = Some (Scanned visited new_watchers s2) ∧
    heap s2 !! 0%nat = Some (mk_clause [Some 1; Some 3; Some 2] 3) ∧
    watch_list s2 4 = Some [Some 0%nat; Some 0%nat] ∧
    watch_list s2 5 = Some [].
Proof. do 5 eexists. evaluate. Qed.

(** *** Runs of the driver *)

(** C3: the file [p cnf 2 1 / -1 2 0].  The decision of literal 1 meets a
    conflict at level 1.  [unassign] of literal 1 sets the level of the
    literal and of its complement to [DEC_MAX] and leaves both statuses
    PENDING; after [backtrack 0] literal 1, whose level was above 0, is
    still PENDING. *)
Theorem unassign_keeps_status (raw : nat -> raw_t) :
  ∃ s0 s s1 s2,
    CDCL_init raw 2 [[-1; 2]] = Some (Running s0) ∧
    driver_run 2 s0 = Some (Running s) ∧
    state s = CONFLICT ∧
    level_of s 0 = Some 1 ∧ status_of s 0 = Some PENDING ∧
    unassign 0 s = Some s1 ∧
    level_of s1 0 = Some DEC_MAX ∧ level_of s1 2 = Some DEC_MAX ∧
    status_of s1 0 = Some PENDING ∧ status_of s1 2 = Some PENDING ∧
    backtrack 0 s = Some s2 ∧
    level_of s2 0 = Some DEC_MAX ∧ status_of s2 0 = Some PENDING.
Proof. do 4 eexists. evaluate. Qed.

(** C4: the file [p cnf 2 2 / -2 1 0 / 2 1 0].  After eight transitions the
    driver is in DECIDE with the trail head at 1 of 2 variables; no record
    is AVAILABLE, [CDCL_decide] returns SUCCESS and SAT is reported, while
    variable 2, unassigned by the last backtrack, has level [DEC_MAX] on
    both its literals. *)
Theorem decide_success_with_unassigned_variable (raw : nat -> raw_t) :
  ∃ s0 s,
    CDCL_init raw 2 [[-2; 1]; [2; 1]] = Some (Running s0) ∧
    driver_run 8 s0 = Some (Running s) ∧
    state s = DECIDE ∧
    trail_head (trail s) = 1 ∧ num_vars s = 2 ∧
    status_of s 0 = Some PENDING ∧ status_of s 1 = Some PENDING ∧
    CDCL_decide s = Some (SUCCESS, s) ∧
    driver_step s = Some (Exited SAT s) ∧
    level_of s 1 = Some DEC_MAX ∧ level_of s 3 = Some DEC_MAX.
Proof. do 2 eexists. evaluate. Qed.

(** C6: the file [p cnf 3 1 / -2 3 0].  The second decision meets a conflict
    at level 2 and the repair learns the clause [-2 -1]: when the block that
    learns is through, the clause is in the cell 1 and its address on the
    store of the learned clauses and on the lists of literals 1 and 2.  No
    counter was written: that of literal -1 is still 0 and that of literal
    -2 still 1, one short of the clauses that contain them, and so they are
    when the repair returns to the driver with one learned clause on the
    store. *)
Theorem learned_clause_not_counted (raw : nat -> raw_t) :
  ∃ s0 sc s1 s,
    CDCL_init raw 3 [[-2; 3]] = Some (Running s0) ∧
    driver_run 4 s0 = Some (Running sc) ∧
    learn sc = Some s1 ∧
    heap s1 !! 1%nat = Some (mk_clause [Some 4; Some 3] 2) ∧
    data (learned_cnf s1) = [Some 1%nat] ∧
    watch_list s1 0 = Some [Some 1%nat] ∧
    watch_list s1 1 = Some [Some 0%nat; Some 1%nat] ∧
    occurrences 3 s1 = 1%nat ∧ active_of s1 3 = Some 0 ∧
    occurrences 4 s1 = 2%nat ∧ active_of s1 4 = Some 1 ∧
    driver_step sc = Some (Running s) ∧
    data (learned_cnf s) = [Some 1%nat] ∧
    active_of s 3 = Some 0 ∧ active_of s 4 = Some 1.
Proof. do 4 eexists. evaluate. Qed.

(** *** The statuses the solver writes *)

(** A solver that differs from [s] outside the model is as good as [s]. *)
Ltac ok_same_model :=
  match goal with
  | |- status_ok ?t =>
      let m := eval simpl in (model t) in
      match m with model ?s => change (status_ok s) end
  end.

Lemma upd_ass_status_ok f lit s s' :
  (∀ a, ok_ass a → ok_ass (f a)) →
  upd_ass f lit s = Some s' → status_ok s → status_ok s'.
Proof.
  unfold upd_ass, get_ass, status_ok. intros Hf H Hok.
  simplify_option_eq.
  destruct (model s !! Z.to_nat lit) eqn:E; simplify_option_eq.
  apply Forall_insert; [done|]. apply Hf. eapply Forall_lookup_1; eauto.
Qed.

Lemma ok_ass_pending a : ok_ass (set_ass_status PENDING a).
Proof. unfold ok_ass. simpl. auto. Qed.

(** Every write to a record in the file keeps [ok_ass]. *)
Ltac ok_known := first [assumption | ok_same_model; assumption].

Ltac ok_upd :=
  repeat match goal with
  | H : upd_ass _ _ ?s = Some ?s' |- _ =>
      assert (status_ok s') by
        (refine (upd_ass_status_ok _ _ _ _ _ H _);
         [intros ??; first [assumption | apply ok_ass_pending] | ok_known]);
      clear H
  | H : push_watch _ _ ?s = Some ?s' |- _ =>
      assert (status_ok s') by
        (refine (upd_ass_status_ok _ _ _ _ _ H _);
         [intros ??; assumption | ok_known]);
      clear H
  | H : upd_clause _ _ ?s = Some ?s' |- _ =>
      assert (status_ok s') by
        (unfold upd_clause in H; case_decide; [|discriminate];
         injection H as <-; ok_known);
      clear H
  end.

Lemma assign_status_ok lit s s' : assign lit s = Some s' → status_ok s → status_ok s'.
Proof. unfold assign. intros H Hok. simplify_option_eq. ok_upd. done. Qed.

Lemma unassign_status_ok lit s s' : unassign lit s = Some s' → status_ok s → status_ok s'.
Proof. unfold unassign. intros H Hok. simplify_option_eq. ok_upd. done. Qed.

Lemma trail_queue_lit_status_ok lit ty s s' :
  trail_queue_lit lit ty s = Some s' → status_ok s → status_ok s'.
Proof.
  unfold trail_queue_lit, trail_write. intros H Hok. simplify_option_eq. ok_upd. done.
Qed.

Lemma backtrack_loop_status_ok k n : ∀ s s',
  backtrack_loop k n s = Some s' → status_ok s → status_ok s'.
Proof.
  induction n as [|n IH]; simpl; intros s s' H Hok; simplify_option_eq;
    eauto using unassign_status_ok.
Qed.

Lemma backtrack_status_ok k s s' : backtrack k s = Some s' → status_ok s → status_ok s'.
Proof.
  unfold backtrack. intros H Hok.
  simplify_option_eq; ok_same_model; eauto using backtrack_loop_status_ok.
Qed.

Lemma decrement_active_status_ok c todo : ∀ s s',
  decrement_active c todo s = Some s' → status_ok s → status_ok s'.
Proof.
  induction todo as [|i todo IH]; simpl; intros s s' H Hok; simplify_option_eq; [done|].
  ok_upd. eauto.
Qed.

Lemma extinguish_status_ok pr i c s s' :
  extinguish pr i c s = Some s' → status_ok s → status_ok s'.
Proof.
  unfold extinguish, null_data. intros H Hok. simplify_option_eq. ok_upd.
  eauto using decrement_active_status_ok.
Qed.

Lemma search_loop_status_ok pr i p n : ∀ k s r,
  search_loop pr i p n k s = Some r → status_ok s → status_ok (after_search r).
Proof.
  induction n as [|n IH]; simpl; intros k s r H Hok; simplify_option_eq; simpl;
    eauto using extinguish_status_ok.
  ok_upd. done.
Qed.


Lemma clause_body_status_ok pr nc i p nw s r :
  clause_body pr nc i p nw s = Some r → status_ok s → status_ok (flow_solver r).
Proof.
  unfold clause_body. intros H Hok.
  simplify_option_eq; simpl; ok_upd; eauto using extinguish_status_ok.
  all: match goal with
       | H : search_loop _ _ _ _ _ ?s = Some ?r |- _ =>
           assert (status_ok (after_search r)) by
             (eapply search_loop_status_ok; [exact H | assumption])
       end.
  all: repeat case_match; simplify_option_eq; simpl; ok_upd;
         try ok_known; eauto using trail_queue_lit_status_ok.
Qed.

Lemma clause_loop_status_ok pr sz nc n : ∀ i visited nw s r,
  clause_loop pr sz nc n i visited nw s = Some r → status_ok s →
  status_ok (scanned_solver r).
Proof.
  induction n as [|n IH]; simpl; intros i visited nw s r H Hok; [by simplify_eq|].
  destruct (data_at s pr sz i) as [[p|]|]; simpl in H; [|by eauto|done].
  destruct (clause_body pr nc i p nw s) as [fl|] eqn:Hb; simpl in H; [|done].
  apply clause_body_status_ok in Hb; [|done].
  destruct fl; simpl in Hb; simplify_eq; eauto.
Qed.

Lemma prop_step_status_ok s r :
  prop_step s = Some r → status_ok s →
  match r with inl s' | inr s' => status_ok s' end.
Proof.
  unfold prop_step, scan_head, finish_head. intros H Hok.
  destruct (trail_read s (trail_head (trail s))) as [pr|]; simpl in H; [|done].
  destruct (assign pr s) as [s1|] eqn:Ha; simpl in H; [|done].
  apply assign_status_ok in Ha; [|done].
  destruct (get_ass s1 pr) as [a|]; simpl in H; [|done].
  destruct (clause_loop _ _ _ _ _ _ _ _) as [sc|] eqn:Hl; simpl in H; [|done].
  apply clause_loop_status_ok in Hl; [|done].
  destruct sc; simpl in *; simplify_option_eq; ok_upd; ok_known.
Qed.

Lemma prop_loop_status_ok fuel : ∀ s t s',
  prop_loop fuel s = Some (t, s') → status_ok s → status_ok s'.
Proof.
  induction fuel as [|fuel IH]; simpl; intros s t s' H Hok;
    case_decide; simplify_option_eq; try done.
  match goal with H : prop_step _ = Some _ |- _ =>
    apply prop_step_status_ok in H; [|assumption] end.
  repeat case_match; simplify_option_eq; eauto.
Qed.

Lemma CDCL_prop_status_ok s t s' :
  CDCL_prop s = Some (t, s') → status_ok s → status_ok s'.
Proof. apply prop_loop_status_ok. Qed.

Lemma decide_loop_status_ok n : ∀ v s t s',
  decide_loop n v s = Some (t, s') → status_ok s → status_ok s'.
Proof.
  induction n as [|n IH]; simpl; intros v s t s' H Hok; simplify_option_eq; eauto.
  ok_upd.
  match goal with H : trail_queue_lit _ _ _ = Some _ |- _ =>
    apply trail_queue_lit_status_ok in H; [|assumption] end.
  ok_known.
Qed.

Lemma CDCL_decide_status_ok s t s' :
  CDCL_decide s = Some (t, s') → status_ok s → status_ok s'.
Proof.
  unfold CDCL_decide. intros H Hok. case_decide; simplify_option_eq;
    eauto using decide_loop_status_ok.
Qed.

Lemma learn_status_ok s s' : learn s = Some s' → status_ok s → status_ok s'.
Proof.
  unfold learn. intros H Hok. simplify_option_eq. ok_upd. ok_known.
Qed.

Lemma CDCL_repair_conflict_status_ok s s' :
  CDCL_repair_conflict s = Some (Running s') → status_ok s → status_ok s'.
Proof.
  unfold CDCL_repair_conflict. intros H Hok.
  repeat (case_decide || simplify_option_eq).
  - match goal with H : learn _ = Some _ |- _ =>
      apply learn_status_ok in H; [|ok_known] end.
    match goal with H : backtrack _ _ = Some _ |- _ =>
      apply backtrack_status_ok in H; [|ok_known] end.
    ok_same_model. eauto using trail_queue_lit_status_ok.
  - match goal with H : backtrack _ _ = Some _ |- _ =>
      apply backtrack_status_ok in H; [|ok_known] end.
    ok_same_model. eauto using trail_queue_lit_status_ok.
Qed.

Lemma driver_step_status_ok s s' :
  driver_step s = Some (Running s') → status_ok s → status_ok s'.
Proof.
  unfold driver_step. intros H Hok.
  repeat (case_match; simplify_option_eq); ok_same_model;
    eauto using CDCL_decide_status_ok, CDCL_prop_status_ok,
      CDCL_repair_conflict_status_ok.
Qed.

Lemma operation_status_ok s s' : operation s s' → status_ok s → status_ok s'.
Proof.
  destruct 1; eauto using assign_status_ok, unassign_status_ok, backtrack_status_ok,
    trail_queue_lit_status_ok, CDCL_prop_status_ok, CDCL_decide_status_ok,
    CDCL_repair_conflict_status_ok, driver_step_status_ok.
Qed.

Lemma read_lits_status_ok input : ∀ i c s c' s',
  read_lits input i c s = Some (c', s') → status_ok s → status_ok s'.
Proof.
  induction input as [|x input IH]; simpl; intros i c s c' s' H Hok;
    simplify_option_eq; [done|].
  ok_upd. eauto.
Qed.

Lemma init_clauses_status_ok input : ∀ s s',
  init_clauses input s = Some (Running s') → status_ok s → status_ok s'.
Proof.
  induction input as [|cl input IH]; simpl; intros s s' H Hok; simplify_option_eq; [done|].
  destruct cl as [|x [|y cl]]; simplify_option_eq.
  - match goal with H : trail_queue_lit _ _ _ = Some _ |- _ =>
      apply trail_queue_lit_status_ok in H; [|assumption] end.
    eapply IH; [eassumption|]. ok_known.
  - repeat case_match; simplify_option_eq. ok_upd.
    match goal with H : read_lits _ _ _ _ = Some _ |- _ =>
      apply read_lits_status_ok in H; [|assumption] end.
    ok_upd. eauto.
Qed.

Lemma init_model_status_ok raw n : Forall ok_ass (init_model raw n).
Proof.
  unfold init_model. apply Forall_fmap, Forall_forall. intros i _.
  unfold ok_ass. simpl. auto.
Qed.

Lemma started_status_ok s : started s → status_ok s.
Proof.
  intros (raw & V & input & _ & H). unfold CDCL_init in H.
  repeat (case_decide; simplify_option_eq).
  repeat case_match; simplify_option_eq.
  ok_same_model.
  eapply init_clauses_status_ok; [eassumption|].
  apply init_model_status_ok.
Qed.

(** C8: in every state that any sequence of operations of the file leads
    to from a started solver, the status of every record is AVAILABLE or
    PENDING, so that it compares unequal to ACTIVE and to DECEASED. *)
Theorem status_available_or_pending (s : solver) :
  reachable s → Forall ok_ass (model s).
Proof.
  intros (s0 & Hs0 & Hrun). apply started_status_ok in Hs0.
  induction Hrun; eauto using operation_status_ok.
Qed.


Lemma status_available_or_pending_witness :
  reachable demo_conflict ∧ Forall ok_ass (model demo_conflict).
Proof.
  assert (H : reachable demo_conflict).
  { exists demo_start. split.
    - exists zeroed, 2, [[-1; 2]].
      split; [unfold ULONG_MAX; lia | vm_compute; reflexivity].
    - eapply rtc_l; [apply op_driver; vm_compute; reflexivity |].
      eapply rtc_l; [apply op_driver; vm_compute; reflexivity |].
      apply rtc_refl. }
  split; [exact H | apply (status_available_or_pending demo_conflict H)].
Defined.

(** *** Backtracking *)

Lemma with_model_id s : with_model (model s) s = s.
Proof. by destruct s. Qed.

Lemma set_dec_level_id a : set_dec_level (dec_level a) a = a.
Proof. by destruct a. Qed.

Lemma upd_ass_get f lit s s' :
  upd_ass f lit s = Some s' →
  ∃ a, get_ass s lit = Some a ∧ get_ass s' lit = Some (f a) ∧
       s' = with_model (<[Z.to_nat lit := f a]> (model s)) s.
Proof.
  unfold upd_ass. intros H.
  destruct (get_ass s lit) as [a|] eqn:Ha; simplify_eq/=.
  exists a. split_and!; [done| |done].
  unfold get_ass in *. simpl. case_decide; [|done].
  apply list_lookup_insert_eq. by eapply lookup_lt_Some.
Qed.

Lemma upd_ass_get_other f lit s s' l :
  upd_ass f lit s = Some s' → l ≠ lit → get_ass s' l = get_ass s l.
Proof.
  unfold upd_ass. intros H Hne.
  destruct (get_ass s lit) as [a|] eqn:Ha; simplify_eq/=.
  unfold get_ass in *. simpl. repeat case_decide; try done.
  apply list_lookup_insert_ne. lia.
Qed.

(** A level write keeps the levels that are [DEC_MAX] already. *)
Lemma upd_ass_level_DEC_MAX lit s s' l a :
  upd_ass (set_dec_level DEC_MAX) lit s = Some s' →
  get_ass s l = Some a → dec_level a = DEC_MAX →
  ∃ a', get_ass s' l = Some a' ∧ dec_level a' = DEC_MAX.
Proof.
  intros H Ha Hl. destruct (decide (l = lit)) as [->|Hne].
  - apply upd_ass_get in H as (a0 & H0 & H1 & _). eauto.
  - erewrite upd_ass_get_other by done. eauto.
Qed.

Lemma upd_ass_frame f lit s s' :
  upd_ass f lit s = Some s' →
  trail s' = trail s ∧ num_vars s' = num_vars s.
Proof. unfold upd_ass. intros H. by simplify_option_eq. Qed.

Lemma unassign_frame lit s s' :
  unassign lit s = Some s' → trail s' = trail s ∧ num_vars s' = num_vars s.
Proof.
  unfold unassign. intros H. simplify_option_eq.
  repeat match goal with H : upd_ass _ _ _ = Some _ |- _ =>
    apply upd_ass_frame in H as [? ?] end.
  split; congruence.
Qed.

Lemma unassign_unassigned lit s s' j :
  unassign lit s = Some s' → unassigned s j → unassigned s' j.
Proof.
  intros H (l & a & a' & Hr & Ha & Hl & Ha' & Hl').
  pose proof (unassign_frame _ _ _ H) as [Ht Hv].
  unfold unassign in H. simplify_option_eq.
  match goal with
  | H1 : upd_ass _ lit s = Some ?s1, H2 : upd_ass _ _ ?s1 = Some s' |- _ =>
      destruct (upd_ass_level_DEC_MAX _ _ _ _ _ H1 Ha Hl) as (b & Hb & Hlb);
      destruct (upd_ass_level_DEC_MAX _ _ _ _ _ H1 Ha' Hl') as (b' & Hb' & Hlb');
      destruct (upd_ass_level_DEC_MAX _ _ _ _ _ H2 Hb Hlb) as (c & Hc & Hlc);
      destruct (upd_ass_level_DEC_MAX _ _ _ _ _ H2 Hb' Hlb') as (c' & Hc' & Hlc')
  end.
  exists l, c, c'. unfold trail_read in *. rewrite Ht, Hv. done.
Qed.

(** [unassign] leaves the literal it is called on unassigned. *)
Lemma unassign_here lit s s' j :
  unassign lit s = Some s' → trail_read s (Z.of_nat j) = Some lit → unassigned s' j.
Proof.
  intros H Hr. pose proof (unassign_frame _ _ _ H) as [Ht Hv].
  unfold unassign in H. simplify_option_eq.
  match goal with
  | H1 : upd_ass _ lit s = Some ?s1, H2 : upd_ass _ _ ?s1 = Some s' |- _ =>
      pose proof (upd_ass_frame _ _ _ _ H1) as [_ Hv1];
      destruct (upd_ass_get _ _ _ _ H1) as (a & _ & Ha & _);
      destruct (upd_ass_level_DEC_MAX _ _ _ _ _ H2 Ha eq_refl) as (c & Hc & Hlc);
      destruct (upd_ass_get _ _ _ _ H2) as (a' & _ & Ha' & _)
  end.
  exists lit, c, (set_dec_level DEC_MAX a').
  unfold trail_read in *. rewrite Ht, Hv. rewrite <- Hv1. done.
Qed.

(** [unassign] changes nothing where the levels are [DEC_MAX] already. *)
Lemma unassign_id s j lit :
  unassigned s j → trail_read s (Z.of_nat j) = Some lit → unassign lit s = Some s.
Proof.
  intros (l & a & a' & Hr & Ha & Hl & Ha' & Hl') Hr'. simplify_eq.
  assert (Hid : ∀ x b, get_ass s x = Some b → dec_level b = DEC_MAX →
                       upd_ass (set_dec_level DEC_MAX) x s = Some s).
  { intros x b Hb Hlb. unfold upd_ass. rewrite Hb. simpl.
    rewrite <- Hlb, set_dec_level_id.
    unfold get_ass in Hb. case_decide; [|done].
    by rewrite list_insert_id, with_model_id. }
  unfold unassign. rewrite (Hid _ _ Ha Hl). simpl. by rewrite (Hid _ _ Ha' Hl').
Qed.

Lemma backtrack_loop_stops k n s :
  stops k n s → backtrack_loop k n s = Some (with_head (Z.of_nat n - 1) s).
Proof.
  destruct n as [|h]; simpl; [done|].
  intros (lit & a & -> & Ha & Hle). simpl. rewrite Ha. simpl.
  case_decide; [done|]. do 2 f_equal. lia.
Qed.

Lemma backtrack_loop_spec k n : ∀ s s',
  backtrack_loop k n s = Some s' →
  ∃ m s'', (m ≤ n)%nat ∧ s' = with_head (Z.of_nat m - 1) s'' ∧ stops k m s'' ∧
           (∀ j, unassigned s j → unassigned s'' j) ∧
           ((m < n)%nat → unassigned s'' m).
Proof.
  induction n as [|h IH]; simpl; intros s s' H.
  - exists 0%nat, s. simplify_eq. split_and!; [done..|lia].
  - destruct (trail_read s (Z.of_nat h)) as [lit|] eqn:Hr; simpl in H; [|done].
    destruct (get_ass s lit) as [a|] eqn:Ha; simpl in H; [|done].
    case_decide.
    + destruct (unassign lit s) as [s1|] eqn:Hu; simpl in H; [|done].
      destruct (IH _ _ H) as (m & s'' & Hm & -> & Hstop & Hkeep & Hlast).
      exists m, s''. split_and!; [lia|done|done| |].
      * eauto using unassign_unassigned.
      * intros _. destruct (decide (m = h)) as [->|]; [|apply Hlast; lia].
        eauto using unassign_here.
    + exists (S h), s. simplify_eq. split_and!; [done| |by exists lit, a|done|lia].
      do 2 f_equal. lia.
Qed.

(** C10: when the literal at the trail head has a level above [k], as at
    the one call of [backtrack] in the file, and [k] is below [DEC_MAX], a
    second [backtrack k] is defined and changes nothing: the state after it
    is the state after the first, in every field. *)
Theorem backtrack_twice (s : solver) (k lit : Z) (a : ass_t) (s1 : solver) :
  trail_read s (trail_head (trail s)) = Some lit →
  get_ass s lit = Some a → dec_level a > k → k < DEC_MAX →
  backtrack k s = Some s1 →
  backtrack k s1 = Some s1.
Proof.
  intros Hr Ha Hgt Hk H.
  assert (Hh : 0 <= trail_head (trail s)).
  { unfold trail_read, seq_at in Hr. by case_decide. }
  unfold backtrack in H. case_decide; [|lia].
  destruct (backtrack_loop k _ s) as [s'|] eqn:Hloop; simpl in H; [|done].
  replace (Z.to_nat (trail_head (trail s) + 1)) with (S (Z.to_nat (trail_head (trail s))))
    in Hloop by lia.
  assert (Hfirst : ∃ s0, unassign lit s = Some s0 ∧
                         backtrack_loop k (Z.to_nat (trail_head (trail s))) s0 = Some s').
  { simpl in Hloop. rewrite Z2Nat.id, Hr in Hloop by done. simpl in Hloop.
    rewrite Ha in Hloop. simpl in Hloop. case_decide; [|done].
    destruct (unassign lit s) as [s0|]; [|done]. eauto. }
  destruct Hfirst as (s0 & Hu & Hrest).
  apply backtrack_loop_spec in Hrest as (m & s'' & Hm & -> & Hstop & Hkeep & Hlast).
  assert (Hun : unassigned s'' m).
  { destruct (decide (m = Z.to_nat (trail_head (trail s)))) as [->|]; [|apply Hlast; lia].
    apply Hkeep. eapply unassign_here; [done|]. by rewrite Z2Nat.id. }
  simplify_eq. simpl.
  set (s1 := with_cur_dec_level k _).
  assert (Hun1 : unassigned s1 m) by exact Hun.
  assert (Hstop1 : stops k m s1).
  { destruct m; [done|]. exact Hstop. }
  unfold backtrack.
  assert (Hhead : trail_head (trail s1) = Z.of_nat m - 1 + 1) by done.
  rewrite Hhead. case_decide; [|lia].
  replace (Z.to_nat (Z.of_nat m - 1 + 1 + 1)) with (S m) by lia.
  destruct Hun1 as (l & b & b' & Hrl & Hb & Hlb & Hb' & Hlb').
  simpl. rewrite Hrl. simpl. rewrite Hb. simpl.
  case_decide; [|unfold DEC_MAX, ULONG_MAX in *; lia].
  rewrite (unassign_id s1 m l); [|by exists l, b, b'|done]. simpl.
  rewrite (backtrack_loop_stops _ _ _ Hstop1). simpl.
  reflexivity.
Qed.

Lemma backtrack_twice_witness :
  backtrack 0 demo_conflict = Some demo_backtracked ∧
  backtrack 0 demo_backtracked = Some demo_backtracked.
Proof.
  split; [vm_compute; reflexivity |].
  eapply (backtrack_twice demo_conflict 0 0);
    [vm_compute; reflexivity | vm_compute; reflexivity | reflexivity | reflexivity
    | vm_compute; reflexivity].
Defined.

Lemma demo_units_driven : driven demo_units.
Proof.
  exists demo_units. split; [|apply rtc_refl].
  exists zeroed, 2, [[1]; [2]].
  split; [unfold ULONG_MAX; lia | vm_compute; reflexivity].
Qed.

(** The claim of C10 as it stands fails on the file [p cnf 2 2 / 1 0 / 2 0]
    started in fresh memory: the first [backtrack 0] finds the literal at the
    head at level 0 and moves the head from 0 to 1, the second moves it
    to 2. *)
Lemma backtrack_not_idempotent :
  ¬ (∀ s k s1 s2, driven s → 0 <= k < DEC_MAX →
       backtrack k s = Some s1 → backtrack k s1 = Some s2 → s2 = s1).
Proof.
  intros H.
  pose (s1 := with_cur_dec_level 0 (with_tail 1 (with_head 1 demo_units))).
  pose (s2 := with_cur_dec_level 0 (with_tail 2 (with_head 2 demo_units))).
  assert (Heq : s2 = s1).
  { apply (H demo_units 0); [apply demo_units_driven | done | vm_compute; reflexivity
                            | vm_compute; reflexivity]. }
  apply (f_equal (λ s, trail_head (trail s))) in Heq. vm_compute in Heq. discriminate.
Qed.

(** *** The writes of the operations, seen on the cores *)

Lemma get_ass_cat s lit : core_of <$> get_ass s lit = cat (cores s) lit.
Proof.
  unfold get_ass, cat, cores. case_decide; [|done]. by rewrite list_lookup_fmap.
Qed.

Lemma cat_Some_get_ass s lit c :
  cat (cores s) lit = Some c → ∃ a, get_ass s lit = Some a ∧ core_of a = c.
Proof.
  rewrite <- get_ass_cat. destruct (get_ass s lit) as [a|]; simpl; [|done].
  intros [= <-]. eauto.
Qed.

Lemma cat_range cs lit c : cat cs lit = Some c → 0 <= lit < Z.of_nat (length cs).
Proof.
  unfold cat. case_decide; [|done]. intros Hlt%lookup_lt_Some. lia.
Qed.

Lemma cat_is_Some cs lit : 0 <= lit < Z.of_nat (length cs) → is_Some (cat cs lit).
Proof.
  intros H. unfold cat. case_decide; [|lia]. apply lookup_lt_is_Some. lia.
Qed.

Lemma cat_c_upd g lit cs l :
  0 <= lit →
  cat (c_upd g lit cs) l = if decide (l = lit) then g <$> cat cs l else cat cs l.
Proof.
  intros Hl. unfold cat, c_upd. case_decide as H0.
  - case_decide as Heq.
    + subst. apply list_lookup_alter_eq.
    + apply list_lookup_alter_ne. lia.
  - by case_decide.
Qed.

Lemma length_c_upd g lit cs : length (c_upd g lit cs) = length cs.
Proof. apply length_alter. Qed.

Lemma upd_ass_cores f g lit s s' :
  (∀ a, core_of (f a) = g (core_of a)) →
  upd_ass f lit s = Some s' →
  view s' = (num_vars s, cur_dec_level s, trail s, c_upd g lit (cores s)).
Proof.
  intros Hfg H. unfold upd_ass, get_ass in H.
  case_decide; [|done].
  destruct (model s !! Z.to_nat lit) as [a|] eqn:Ha; simplify_eq/=.
  unfold view, cores, c_upd. simpl. f_equal.
  rewrite list_fmap_insert, Hfg.
  apply list_eq. intros i. destruct (decide (i = Z.to_nat lit)) as [->|Hne].
  - rewrite list_lookup_alter_eq, list_lookup_insert_eq, list_lookup_fmap, Ha; [done|].
    rewrite length_fmap. by eapply lookup_lt_Some.
  - by rewrite list_lookup_alter_ne, list_lookup_insert_ne.
Qed.

Lemma c_upd_id lit cs : c_upd (λ c, c) lit cs = cs.
Proof. unfold c_upd. apply list_alter_id. done. Qed.

(** A write to the counter or to the watch list of a record changes nothing
    the search is decided by. *)
Lemma upd_ass_view f lit s s' :
  (∀ a, core_of (f a) = core_of a) → upd_ass f lit s = Some s' → view s' = view s.
Proof.
  intros Hf H. rewrite (upd_ass_cores f (λ c, c) _ _ _ Hf H). by rewrite c_upd_id.
Qed.

Lemma upd_ass_is_Some f lit s :
  0 <= lit < Z.of_nat (length (model s)) → is_Some (upd_ass f lit s).
Proof.
  intros H. unfold upd_ass, get_ass. case_decide; [|lia].
  destruct (lookup_lt_is_Some_2 (model s) (Z.to_nat lit)) as [a ->]; [lia|].
  by eexists.
Qed.

Lemma view_length s s' : view s' = view s → length (model s') = length (model s).
Proof.
  unfold view, cores. intros [= _ _ _ H].
  by rewrite <- (length_fmap core_of (model s')), H, length_fmap.
Qed.

Lemma length_cores s : length (cores s) = length (model s).
Proof. apply length_fmap. Qed.

Lemma view_eq s V d tr cs :
  view s = (V, d, tr, cs) →
  num_vars s = V ∧ cur_dec_level s = d ∧ trail s = tr ∧ cores s = cs.
Proof. unfold view. by intros [= -> -> -> ->]. Qed.

(** The cores of a solver changed outside its model. *)
Ltac cores_simpl :=
  repeat match goal with
  | |- context [cores ?t] =>
      lazymatch t with
      | with_tail _ ?s => change (cores t) with (cores s)
      | with_head _ ?s => change (cores t) with (cores s)
      | with_trail _ ?s => change (cores t) with (cores s)
      | with_heap _ ?s => change (cores t) with (cores s)
      | with_state _ ?s => change (cores t) with (cores s)
      | with_cnf_size _ ?s => change (cores t) with (cores s)
      | with_learned_cnf _ ?s => change (cores t) with (cores s)
      | with_cur_dec_level _ ?s => change (cores t) with (cores s)
      | with_num_conflicts _ ?s => change (cores t) with (cores s)
      | with_num_decisions _ ?s => change (cores t) with (cores s)
      | with_num_unit_props _ ?s => change (cores t) with (cores s)
      end
  | H : context [cores ?t] |- _ =>
      lazymatch t with
      | with_tail _ ?s => change (cores t) with (cores s) in H
      | with_head _ ?s => change (cores t) with (cores s) in H
      | with_trail _ ?s => change (cores t) with (cores s) in H
      | with_heap _ ?s => change (cores t) with (cores s) in H
      | with_state _ ?s => change (cores t) with (cores s) in H
      | with_cnf_size _ ?s => change (cores t) with (cores s) in H
      | with_learned_cnf _ ?s => change (cores t) with (cores s) in H
      | with_cur_dec_level _ ?s => change (cores t) with (cores s) in H
      | with_num_conflicts _ ?s => change (cores t) with (cores s) in H
      | with_num_decisions _ ?s => change (cores t) with (cores s) in H
      | with_num_unit_props _ ?s => change (cores t) with (cores s) in H
      end
  end.

(** The views of the solvers on the way are chained into one. *)
Ltac view_subst :=
  unfold view in *; cores_simpl; simpl in *;
  repeat match goal with
  | H : (_, _, _, _) = (_, _, _, _) |- _ =>
      let E1 := fresh in let E2 := fresh in let E3 := fresh in let E4 := fresh in
      injection H as E1 E2 E3 E4;
      try rewrite E1 in *; try rewrite E2 in *; try rewrite E3 in *; try rewrite E4 in *;
      clear E1 E2 E3 E4
  end.

Lemma upd_ass_shape f lit s s' :
  upd_ass f lit s = Some s' →
  length (model s') = length (model s) ∧ num_vars s' = num_vars s ∧
  cur_dec_level s' = cur_dec_level s ∧ trail s' = trail s ∧ heap s' = heap s ∧
  learned_cnf s' = learned_cnf s.
Proof.
  unfold upd_ass. intros H. simplify_option_eq. simpl. by rewrite length_insert.
Qed.

Lemma assign_view lit s s' :
  assign lit s = Some s' →
  view s' = (num_vars s, cur_dec_level s, trail s,
             assigned (num_vars s) (cur_dec_level s) lit (cores s)).
Proof.
  unfold assign. intros H. simplify_option_eq.
  repeat match goal with
  | H : upd_ass (set_truth_value ?x) _ _ = Some _ |- _ =>
      apply (upd_ass_cores _ (cset_truth x)) in H; [|done]
  | H : upd_ass (set_dec_level ?x) _ _ = Some _ |- _ =>
      apply (upd_ass_cores _ (cset_level x)) in H; [|done]
  end.
  view_subst. done.
Qed.

Lemma unassign_view lit s s' :
  unassign lit s = Some s' →
  view s' = (num_vars s, cur_dec_level s, trail s,
             unassigned_cores (num_vars s) lit (cores s)).
Proof.
  unfold unassign. intros H. simplify_option_eq.
  repeat match goal with
  | H : upd_ass (set_dec_level ?x) _ _ = Some _ |- _ =>
      apply (upd_ass_cores _ (cset_level x)) in H; [|done]
  end.
  view_subst. done.
Qed.

Lemma trail_queue_lit_view lit ty s s' :
  trail_queue_lit lit ty s = Some s' →
  0 <= trail_tail (trail s) < Z.of_nat (length (sequence (trail s))) ∧
  view s' = (num_vars s, cur_dec_level s, pushed lit (trail s),
             queued (num_vars s) lit ty (cores s)).
Proof.
  unfold trail_queue_lit, trail_write. intros H. simplify_option_eq.
  repeat match goal with
  | H : upd_ass (set_ass_type ?x) _ _ = Some _ |- _ =>
      apply (upd_ass_cores _ (cset_type x)) in H; [|done]
  | H : upd_ass (set_ass_status ?x) _ _ = Some _ |- _ =>
      apply (upd_ass_cores _ (cset_status x)) in H; [|done]
  end.
  view_subst. done.
Qed.

Lemma assign_is_Some lit s :
  0 <= lit < Z.of_nat (length (model s)) →
  0 <= get_comp_lit (num_vars s) lit < Z.of_nat (length (model s)) →
  is_Some (assign lit s).
Proof.
  intros Hl Hc. unfold assign.
  destruct (upd_ass_is_Some (set_truth_value POSITIVE) lit s Hl) as [s1 H1].
  rewrite H1. simpl. destruct (upd_ass_shape _ _ _ _ H1) as (L1 & _).
  destruct (upd_ass_is_Some (set_dec_level (cur_dec_level s)) lit s1) as [s2 H2]; [lia|].
  rewrite H2. simpl. destruct (upd_ass_shape _ _ _ _ H2) as (L2 & _).
  destruct (upd_ass_is_Some (set_truth_value NEGATIVE) (get_comp_lit (num_vars s) lit) s2)
    as [s3 H3]; [lia|].
  rewrite H3. simpl. destruct (upd_ass_shape _ _ _ _ H3) as (L3 & _).
  apply upd_ass_is_Some. lia.
Qed.

Lemma unassign_is_Some lit s :
  0 <= lit < Z.of_nat (length (model s)) →
  0 <= get_comp_lit (num_vars s) lit < Z.of_nat (length (model s)) →
  is_Some (unassign lit s).
Proof.
  intros Hl Hc. unfold unassign.
  destruct (upd_ass_is_Some (set_dec_level DEC_MAX) lit s Hl) as [s1 H1].
  rewrite H1. simpl. destruct (upd_ass_shape _ _ _ _ H1) as (L1 & V1 & _).
  rewrite V1. apply upd_ass_is_Some. lia.
Qed.

Lemma trail_queue_lit_is_Some lit ty s :
  0 <= lit < Z.of_nat (length (model s)) →
  0 <= get_comp_lit (num_vars s) lit < Z.of_nat (length (model s)) →
  0 <= trail_tail (trail s) < Z.of_nat (length (sequence (trail s))) →
  is_Some (trail_queue_lit lit ty s).
Proof.
  intros Hl Hc Ht. unfold trail_queue_lit.
  destruct (upd_ass_is_Some (set_ass_type ty) lit s Hl) as [s1 H1].
  rewrite H1. simpl. destruct (upd_ass_shape _ _ _ _ H1) as (L1 & _ & _ & T1 & _).
  destruct (upd_ass_is_Some (set_ass_status PENDING) lit s1) as [s2 H2]; [lia|].
  rewrite H2. simpl. destruct (upd_ass_shape _ _ _ _ H2) as (L2 & _ & _ & T2 & _).
  destruct (upd_ass_is_Some (set_ass_type ty) (get_comp_lit (num_vars s) lit) s2)
    as [s3 H3]; [lia|].
  rewrite H3. simpl. destruct (upd_ass_shape _ _ _ _ H3) as (L3 & _ & _ & T3 & _).
  destruct (upd_ass_is_Some (set_ass_status PENDING) (get_comp_lit (num_vars s) lit) s3)
    as [s4 H4]; [lia|].
  rewrite H4. simpl. destruct (upd_ass_shape _ _ _ _ H4) as (L4 & _ & _ & T4 & _).
  unfold trail_write. rewrite T4, T3, T2, T1. case_decide; [|lia]. by eexists.
Qed.

(** *** The clause loop, as the search sees it *)

Lemma upd_clause_view p c s s' : upd_clause p c s = Some s' → view s' = view s.
Proof. unfold upd_clause. intros H. by simplify_option_eq. Qed.

Lemma push_watch_view lit p s s' : push_watch lit p s = Some s' → view s' = view s.
Proof. apply upd_ass_view. done. Qed.

Lemma null_data_view pr i s s' : null_data pr i s = Some s' → view s' = view s.
Proof.
  unfold null_data. intros H.
  destruct (get_ass s pr) as [a|]; simpl in H; [|done].
  case_decide; [|done]. by refine (upd_ass_view _ _ _ _ _ H).
Qed.

Lemma decrement_active_view c todo : ∀ s s',
  decrement_active c todo s = Some s' → view s' = view s.
Proof.
  induction todo as [|i todo IH]; simpl; intros s s' H; simplify_option_eq; [done|].
  match goal with H : upd_ass _ _ _ = Some _ |- _ =>
    apply upd_ass_view in H; [|done] end.
  by rewrite (IH _ _ H).
Qed.

Lemma extinguish_view pr i c s s' : extinguish pr i c s = Some s' → view s' = view s.
Proof.
  unfold extinguish. intros H. simplify_option_eq.
  match goal with
  | H1 : null_data _ _ _ = Some _, H2 : decrement_active _ _ _ = Some _ |- _ =>
      by rewrite (decrement_active_view _ _ _ _ H2), (null_data_view _ _ _ _ H1)
  end.
Qed.

Lemma search_loop_view pr i p n : ∀ k s r,
  search_loop pr i p n k s = Some r → view (after_search r) = view s.
Proof.
  induction n as [|n IH]; simpl; intros k s r H; simplify_option_eq; simpl;
    eauto using extinguish_view.
  match goal with
  | H1 : upd_clause _ _ _ = Some _, H2 : push_watch _ _ _ = Some _ |- _ =>
      by rewrite (push_watch_view _ _ _ _ H2), (upd_clause_view _ _ _ _ H1)
  end.
Qed.

Lemma clause_body_qsteps pr nc i p nw s r :
  clause_body pr nc i p nw s = Some r → rtc qstep s (flow_solver r).
Proof.
  unfold clause_body. intros H.
  destruct (heap s !! p) as [c|]; simpl in H; [|done].
  destruct (lit_at c 0) as [lit0|]; simpl in H; [|done].
  destruct (if decide (lit0 ≠ pr) then _ else _) as [s1|] eqn:Hn; simpl in H; [|done].
  assert (V1 : view s1 = view s).
  { case_decide; simplify_option_eq; eauto using upd_clause_view. }
  apply rtc_l with s1; [by apply qstep_same|]. clear Hn V1 c lit0.
  destruct (heap s1 !! p) as [c|]; simpl in H; [|done].
  destruct (lit_at c 1) as [lit1|]; simpl in H; [|done].
  destruct (get_ass s1 lit1) as [a1|]; simpl in H; [|done].
  case_decide.
  { destruct (extinguish pr i c s1) as [s2|] eqn:He; simplify_eq/=.
    apply rtc_once, qstep_same. eauto using extinguish_view. }
  case_decide; [simplify_eq/=; apply rtc_refl|].
  destruct (search_loop _ _ _ _ _ _) as [r0|] eqn:Hs; simpl in H; [|done].
  apply search_loop_view in Hs.
  apply rtc_l with (after_search r0); [by apply qstep_same|]. clear Hs.
  destruct (clause_is_unit r0 && negb (clause_is_extinct r0));
    [|simplify_eq/=; apply rtc_refl].
  set (s2 := with_num_unit_props _ _) in *.
  apply rtc_l with s2; [by apply qstep_same|].
  destruct (heap _ !! p) as [c2|]; simpl in H; [|done].
  destruct (lit_at c2 1) as [lit2|]; simpl in H; [|done].
  destruct (get_ass s2 lit2) as [a2|] eqn:Ha2; simpl in H; [|done].
  case_decide.
  { destruct (trail_queue_lit lit2 PROP_ASS s2) as [s3|] eqn:Hq; simplify_eq/=.
    apply rtc_once. by eapply qstep_queue. }
  case_decide; [|simplify_eq/=; apply rtc_refl].
  destruct (upd_ass _ pr s2) as [s3|] eqn:Hu; simplify_eq/=.
  apply rtc_once, qstep_same. by refine (upd_ass_view _ _ _ _ _ Hu).
Qed.

Lemma clause_loop_qsteps pr sz nc n : ∀ i visited nw s r,
  clause_loop pr sz nc n i visited nw s = Some r → rtc qstep s (scanned_solver r).
Proof.
  induction n as [|n IH]; simpl; intros i visited nw s r H;
    [simplify_eq/=; apply rtc_refl|].
  destruct (data_at s pr sz i) as [[p|]|]; simpl in H; [|by eauto|done].
  destruct (clause_body pr nc i p nw s) as [fl|] eqn:Hb; simpl in H; [|done].
  apply clause_body_qsteps in Hb.
  destruct fl; simpl in Hb; simplify_eq/=; [|done..].
  etrans; [done|eauto].
Qed.

(** *** Literals and their complements *)

Lemma get_comp_lit_spec V l :
  0 < V <= 2 ^ 62 → 0 <= l < 2 * V →
  (l < V ∧ get_comp_lit V l = l + V) ∨ (V <= l ∧ get_comp_lit V l = l - V).
Proof.
  intros HV Hl. unfold get_comp_lit, to_ulong.
  rewrite Z.mod_small by lia.
  destruct (Z.ltb_spec l V); lia.
Qed.

Lemma Inv_view b n0 D s s' : view s' = view s → Inv b n0 D s → Inv b n0 D s'.
Proof. unfold Inv, view. by intros [= -> -> -> ->]. Qed.

Lemma seq_at_pushed lit tr j :
  0 <= trail_tail tr < Z.of_nat (length (sequence tr)) →
  seq_at (pushed lit tr) j =
    if decide (j = trail_tail tr) then Some lit else seq_at tr j.
Proof.
  intros Ht. unfold seq_at, pushed. simpl.
  case_decide as Hj; [|case_decide; [lia|done]].
  case_decide as Heq.
  - subst. rewrite list_lookup_insert_eq; [done|lia].
  - rewrite list_lookup_insert_ne; [done|lia].
Qed.

Lemma cat_queued V lit ty cs l :
  0 <= lit → 0 <= get_comp_lit V lit →
  cat (queued V lit ty cs) l =
    if decide (l = lit ∨ l = get_comp_lit V lit)
    then (λ c, cset_status PENDING (cset_type ty c)) <$> cat cs l
    else cat cs l.
Proof.
  intros H1 H2. unfold queued. rewrite !cat_c_upd by done.
  repeat case_decide; try (exfalso; intuition congruence); try done;
    destruct (cat cs l); done.
Qed.

Lemma cat_assigned V d lit cs l :
  0 <= lit → 0 <= get_comp_lit V lit → get_comp_lit V lit ≠ lit →
  cat (assigned V d lit cs) l =
    if decide (l = lit) then (λ c, cset_level d (cset_truth POSITIVE c)) <$> cat cs l
    else if decide (l = get_comp_lit V lit)
         then (λ c, cset_level d (cset_truth NEGATIVE c)) <$> cat cs l
         else cat cs l.
Proof.
  intros H1 H2 Hne. unfold assigned. rewrite !cat_c_upd by done.
  repeat case_decide; try (exfalso; intuition congruence); try done;
    destruct (cat cs l); done.
Qed.

Lemma cat_unassigned V lit cs l :
  0 <= lit → 0 <= get_comp_lit V lit →
  cat (unassigned_cores V lit cs) l =
    if decide (l = lit ∨ l = get_comp_lit V lit)
    then cset_level DEC_MAX <$> cat cs l
    else cat cs l.
Proof.
  intros H1 H2. unfold unassigned_cores. rewrite !cat_c_upd by done.
  repeat case_decide; try (exfalso; intuition congruence); try done;
    destruct (cat cs l); done.
Qed.

Lemma length_queued V lit ty cs : length (queued V lit ty cs) = length cs.
Proof. unfold queued. by rewrite !length_c_upd. Qed.
Lemma length_assigned V d lit cs : length (assigned V d lit cs) = length cs.
Proof. unfold assigned. by rewrite !length_c_upd. Qed.
Lemma length_unassigned V lit cs : length (unassigned_cores V lit cs) = length cs.
Proof. unfold unassigned_cores. by rewrite !length_c_upd. Qed.

(** *** The invariant along the clause loop *)

(** The partner of an AVAILABLE literal is AVAILABLE. *)
Lemma inv_comp_status b n0 D V d tr cs l c :
  inv b n0 D V d tr cs → cat cs l = Some c →
  ∃ c', cat cs (get_comp_lit V l) = Some c' ∧ c_status c' = c_status c ∧
        0 <= l < 2 * V ∧ 0 <= get_comp_lit V l < 2 * V ∧ get_comp_lit V l ≠ l.
Proof.
  intros I Hc. pose proof (inv_V _ _ _ _ _ _ _ I) as HV.
  pose proof (inv_len _ _ _ _ _ _ _ I) as HL.
  pose proof (cat_range _ _ _ Hc) as Hr.
  destruct (get_comp_lit_spec V l) as [[Hlt ->]|[Hge ->]]; [lia..| |].
  - destruct (cat_is_Some cs (l + V)) as [c' Hc']; [lia|].
    exists c'. split_and!; [done| |lia..].
    eapply (inv_pair _ _ _ _ _ _ _ I l); [lia|done..].
  - destruct (cat_is_Some cs (l - V)) as [c' Hc']; [lia|].
    exists c'. split_and!; [done| |lia..].
    symmetry. eapply (inv_pair _ _ _ _ _ _ _ I (l - V)); [lia|done|].
    by replace (l - V + V) with l by lia.
Qed.

Lemma inv_queue b n0 D V d tr cs lit c :
  inv b n0 D V d tr cs →
  cat cs lit = Some c → c_status c = AVAILABLE →
  0 <= trail_tail tr < Z.of_nat (length (sequence tr)) →
  inv b n0 D V d (pushed lit tr) (queued V lit PROP_ASS cs).
Proof.
  intros I Hc Hav Ht.
  destruct (inv_comp_status _ _ _ _ _ _ _ _ _ I Hc) as (c' & Hc' & Hst' & Hl & Hcl & Hne).
  rewrite Hav in Hst'.
  pose proof (inv_V _ _ _ _ _ _ _ I) as HV.
  pose proof (inv_ht _ _ _ _ _ _ _ I) as Hht.
  assert (Hup : assigned_upto b (pushed lit tr) = assigned_upto b tr) by done.
  assert (Hupt : assigned_upto b tr <= trail_tail tr).
  { unfold assigned_upto. destruct b; [|lia].
    pose proof (inv_b _ _ _ _ _ _ _ I eq_refl). lia. }
  (* an entry of the old trail is neither [lit] nor its complement *)
  assert (Hfresh : ∀ j l, 0 <= j < trail_tail tr → seq_at tr j = Some l →
                          l ≠ lit ∧ l ≠ get_comp_lit V lit).
  { intros j l Hj Hs.
    destruct (inv_pending _ _ _ _ _ _ _ I j Hj) as (l0 & c0 & Hs0 & _ & Hc0 & Hp0).
    simplify_eq. split; intros ->; simplify_eq; congruence. }
  (* so is its complement *)
  assert (Hfresh' : ∀ j l, 0 <= j < trail_tail tr → seq_at tr j = Some l →
                           get_comp_lit V l ≠ lit ∧ get_comp_lit V l ≠ get_comp_lit V lit).
  { intros j l Hj Hs.
    destruct (inv_pending _ _ _ _ _ _ _ I j Hj) as (l0 & c0 & Hs0 & Hr0 & Hc0 & Hp0).
    simplify_eq. destruct (Hfresh _ _ Hj Hs).
    destruct (get_comp_lit_spec V l) as [[? ?]|[? ?]]; [lia..| |];
    destruct (get_comp_lit_spec V lit) as [[? ?]|[? ?]]; try lia. }
  constructor; simpl.
  - done.
  - rewrite length_queued. eapply inv_len, I.
  - rewrite length_insert, length_queued. eapply inv_seq, I.
  - eapply inv_d, I.
  - pose proof (inv_n0 _ _ _ _ _ _ _ I). lia.
  - lia.
  - intros Hb. pose proof (inv_b _ _ _ _ _ _ _ I Hb). lia.
  - intros v c1 c2 Hv. rewrite !cat_queued by lia. intros H1 H2.
    destruct (cat cs v) as [o1|] eqn:E1; [|by repeat case_decide].
    destruct (cat cs (v + V)) as [o2|] eqn:E2; [|by repeat case_decide].
    pose proof (inv_pair _ _ _ _ _ _ _ I v _ _ Hv E1 E2).
    destruct (get_comp_lit_spec V lit) as [[? ?]|[? ?]]; [lia..| |];
      repeat case_decide; simplify_eq/=; try done; lia.
  - intros v c1 Hv. rewrite cat_queued by lia. intros H1.
    destruct (cat cs v) as [o1|] eqn:E1; [|by case_decide].
    pose proof (inv_dec _ _ _ _ _ _ _ I v _ Hv E1) as Hd.
    case_decide as Hcase; simplify_eq/=; [|done].
    split; [intros [_ [=]]|].
    intros Hin. apply Hd in Hin as [Hna _].
    destruct Hcase as [->| ->]; simplify_eq; congruence.
  - eapply inv_nodup, I.
  - intros j Hj. rewrite seq_at_pushed by done. case_decide as Hjt.
    + exists lit. eexists. rewrite cat_queued, decide_True, Hc by (lia || auto).
      simpl. split_and!; first [done | lia | reflexivity].
    + destruct (inv_pending _ _ _ _ _ _ _ I j) as (l0 & c0 & Hs0 & Hr0 & Hc0 & Hp0); [lia|].
      exists l0. rewrite cat_queued, Hc0 by lia.
      case_decide; simpl; eexists; split_and!; first [done | lia | reflexivity].
  - intros j l Hj. rewrite Hup in Hj. rewrite seq_at_pushed by done.
    rewrite decide_False by lia. intros Hs.
    destruct (inv_level _ _ _ _ _ _ _ I j l Hj Hs) as (c1 & c2 & H1 & H2 & Heq & Hb).
    destruct (Hfresh j l) as [? ?]; [lia|done|].
    destruct (Hfresh' j l) as [? ?]; [lia|done|].
    exists c1, c2. rewrite !cat_queued by lia.
    rewrite !decide_False by (intros [?|?]; done). done.
  - intros i j li lj ci cj Hij Hj. rewrite Hup in Hj.
    rewrite !seq_at_pushed by done. rewrite !decide_False by lia.
    intros Hsi Hsj.
    destruct (Hfresh i li) as [? ?]; [lia|done|].
    destruct (Hfresh j lj) as [? ?]; [lia|done|].
    rewrite !cat_queued by lia. rewrite !decide_False by (intros [?|?]; done).
    by eapply (inv_mono _ _ _ _ _ _ _ I).
  - intros k v Hk.
    destruct (inv_pos _ _ _ _ _ _ _ I k v Hk)
      as (Hv & pos & Hpos & Hpt & Hkp & Hs & Hbelow & Hass).
    split; [done|]. exists pos.
    split; [done|]. split; [simpl; lia|]. split; [done|]. split_and!.
    + rewrite seq_at_pushed by done. by rewrite decide_False by lia.
    + intros j l c1 Hj. rewrite seq_at_pushed by done.
      rewrite decide_False by lia. intros Hsj.
      destruct (Hfresh j l) as [? ?]; [lia|done|].
      rewrite cat_queued by lia. rewrite decide_False by (intros [?|?]; done).
      by eapply Hbelow.
    + rewrite Hup. intros Hlt. destruct (Hass Hlt) as (c1 & H1 & H2 & H3).
      destruct (Hfresh pos v) as [? ?]; [lia|done|].
      exists c1. rewrite cat_queued by lia.
      by rewrite decide_False by (intros [?|?]; done).
  - intros i j li lj Hij Hj. rewrite !seq_at_pushed by done.
    rewrite (decide_False (P := i = _)) by lia. intros Hsi.
    case_decide as Hjt.
    + intros [= <-]. eapply Hfresh; [|done]. lia.
    + intros Hsj. eapply (inv_distinct _ _ _ _ _ _ _ I i j); [done|lia|done..].
Qed.

(** *** The invariant when the head is assigned *)

Lemma seq_at_range (t0 : trail_t) j l :
  seq_at t0 j = Some l → 0 <= j < Z.of_nat (length (sequence t0)).
Proof.
  unfold seq_at. case_decide; [|done].
  destruct (sequence t0 !! Z.to_nat j) eqn:E; [|done].
  apply lookup_lt_Some in E. intros _. lia.
Qed.

(** There are no more decisions than entries on the trail. *)
Lemma inv_d_bound b n0 D V d tr cs :
  inv b n0 D V d tr cs → 0 <= d <= trail_tail tr ∧ trail_tail tr <= 2 * V ∧ d <= 2 ^ 63.
Proof.
  intros I. pose proof (inv_V _ _ _ _ _ _ _ I) as HV.
  pose proof (inv_d _ _ _ _ _ _ _ I) as Hd.
  pose proof (inv_ht _ _ _ _ _ _ _ I) as Hht.
  assert (Ht : trail_tail tr <= 2 * V).
  { destruct (decide (trail_tail tr = 0)) as [->|]; [lia|].
    destruct (inv_pending _ _ _ _ _ _ _ I (trail_tail tr - 1)) as (l & _ & Hs & _); [lia|].
    apply seq_at_range in Hs.
    rewrite (inv_seq _ _ _ _ _ _ _ I), (inv_len _ _ _ _ _ _ _ I) in Hs. lia. }
  assert (d <= trail_tail tr).
  { destruct (decide (length D = 0%nat)) as [E|]; [rewrite E in Hd; lia|].
    destruct (lookup_lt_is_Some_2 D (length D - 1)) as [v' Hk']; [lia|].
    destruct (inv_pos _ _ _ _ _ _ _ I _ v' Hk') as (_ & pos' & ? & ? & ? & _). lia. }
  lia.
Qed.

Lemma get_comp_lit_inj V l l' :
  0 < V <= 2 ^ 62 → 0 <= l < 2 * V → 0 <= l' < 2 * V →
  get_comp_lit V l = get_comp_lit V l' → l = l'.
Proof.
  intros HV Hl Hl' Heq.
  destruct (get_comp_lit_spec V l) as [[? ?]|[? ?]]; [lia..| |];
  destruct (get_comp_lit_spec V l') as [[? ?]|[? ?]]; lia.
Qed.

Lemma get_comp_lit_invol V l :
  0 < V <= 2 ^ 62 → 0 <= l < 2 * V → get_comp_lit V (get_comp_lit V l) = l.
Proof.
  intros HV Hl.
  destruct (get_comp_lit_spec V l) as [[? E]|[? E]]; [lia..| |];
  destruct (get_comp_lit_spec V (get_comp_lit V l)) as [[? ?]|[? ?]]; lia.
Qed.

(** Once a decision is made, the head differs from every literal before it. *)
Lemma inv_head_fresh b n0 D V d tr cs p i li :
  inv b n0 D V d tr cs → D ≠ [] →
  trail_head tr < trail_tail tr → seq_at tr (trail_head tr) = Some p →
  0 <= i < trail_head tr → seq_at tr i = Some li →
  li ≠ p ∧ li ≠ get_comp_lit V p ∧
  get_comp_lit V li ≠ p ∧ get_comp_lit V li ≠ get_comp_lit V p.
Proof.
  intros I HD Hlt Hp Hi Hli.
  destruct D as [|v0 D0]; [done|].
  destruct (inv_pos _ _ _ _ _ _ _ I 0%nat v0 eq_refl) as (_ & pos & Hpos & _).
  destruct (inv_distinct _ _ _ _ _ _ _ I i (trail_head tr) li p) as [N1 N2];
    [lia|lia|done|done|].
  pose proof (inv_V _ _ _ _ _ _ _ I) as HV.
  destruct (inv_pending _ _ _ _ _ _ _ I i) as (? & ? & ? & Hri & _); [lia|].
  destruct (inv_pending _ _ _ _ _ _ _ I (trail_head tr)) as (? & ? & ? & Hrp & _); [lia|].
  simplify_eq. split_and!; [done|done| |].
  - intros E. apply N2. rewrite <- E. by rewrite get_comp_lit_invol.
  - intros E. apply N1. by eapply get_comp_lit_inj.
Qed.

Lemma inv_assign n0 D V d tr cs p :
  inv false n0 D V d tr cs →
  trail_head tr < trail_tail tr → seq_at tr (trail_head tr) = Some p →
  inv true n0 D V d tr (assigned V d p cs).
Proof.
  intros I Hlt Hp.
  pose proof (inv_V _ _ _ _ _ _ _ I) as HV.
  pose proof (inv_ht _ _ _ _ _ _ _ I) as Hht.
  pose proof (inv_d _ _ _ _ _ _ _ I) as Hd.
  destruct (inv_pending _ _ _ _ _ _ _ I (trail_head tr))
    as (p0 & cp & Hp0 & Hpr & Hcp & _); [lia|].
  rewrite Hp in Hp0. injection Hp0 as <-. rename p into p0. subst d.
  destruct (inv_comp_status _ _ _ _ _ _ _ _ _ I Hcp) as (cq & Hcq & _ & _ & Hqr & Hne).
  set (q := get_comp_lit V p0) in *.
  assert (Hqq : get_comp_lit V q = p0) by (by apply get_comp_lit_invol).
  assert (Hcat : ∀ l, cat (assigned V (Z.of_nat (length D)) p0 cs) l =
            if decide (l = p0) then (λ c, cset_level (Z.of_nat (length D)) (cset_truth POSITIVE c)) <$> cat cs l
            else if decide (l = q)
                 then (λ c, cset_level (Z.of_nat (length D)) (cset_truth NEGATIVE c)) <$> cat cs l
                 else cat cs l).
  { intros l. apply cat_assigned; lia. }
  assert (Hup : assigned_upto true tr = trail_head tr + 1) by done.
  assert (Hup0 : assigned_upto false tr = trail_head tr) by (unfold assigned_upto; lia).
  constructor.
  - done.
  - rewrite length_assigned. eapply inv_len, I.
  - rewrite length_assigned. eapply inv_seq, I.
  - done.
  - eapply inv_n0, I.
  - done.
  - done.
  - intros v c1 c2 Hv. rewrite !Hcat. intros H1 H2.
    destruct (cat cs v) as [o1|] eqn:E1; [|by repeat case_decide].
    destruct (cat cs (v + V)) as [o2|] eqn:E2; [|by repeat case_decide].
    pose proof (inv_pair _ _ _ _ _ _ _ I v _ _ Hv E1 E2).
    repeat case_decide; simplify_eq/=; done.
  - intros v c1 Hv. rewrite Hcat. intros H1.
    destruct (cat cs v) as [o1|] eqn:E1; [|by repeat case_decide].
    pose proof (inv_dec _ _ _ _ _ _ _ I v _ Hv E1) as Hdv.
    repeat case_decide; simplify_eq/=; done.
  - eapply inv_nodup, I.
  - intros j Hj.
    destruct (inv_pending _ _ _ _ _ _ _ I j Hj) as (l0 & c0 & Hs0 & Hr0 & Hc0 & Hp0').
    exists l0. rewrite Hcat, Hc0.
    repeat case_decide; simpl; eexists; split_and!; simpl; first [done | lia | reflexivity].
  - intros j l Hj Hs. rewrite Hup in Hj. rewrite !Hcat.
    destruct (decide (j = trail_head tr)) as [->|Hjh].
    + simplify_eq. fold q. rewrite decide_True by done.
      rewrite decide_False by done. rewrite decide_True by done.
      rewrite Hcp, Hcq. simpl. do 2 eexists.
      split; [reflexivity|]. split; [reflexivity|]. simpl. lia.
    + destruct (inv_level _ _ _ _ _ _ _ I j l) as (c1 & c2 & H1 & H2 & Heq & Hb);
        [lia|done|].
      destruct (inv_pending _ _ _ _ _ _ _ I j) as (? & ? & ? & Hrl & _); [lia|].
      simplify_eq. rewrite H1, H2.
      destruct (decide (l = p0)) as [->|N1].
      { fold q. rewrite decide_False by done. rewrite decide_True by done.
        simpl. do 2 eexists.
        split; [reflexivity|]. split; [reflexivity|]. simpl. lia. }
      destruct (decide (l = q)) as [->|N2].
      { rewrite Hqq. rewrite decide_True by done.
        simpl. do 2 eexists.
        split; [reflexivity|]. split; [reflexivity|]. simpl. lia. }
      rewrite decide_False.
      2:{ intros E. apply N2. rewrite <- Hqq in E.
          eapply get_comp_lit_inj; [done|done|lia|done]. }
      rewrite decide_False.
      2:{ intros E. apply N1. eapply get_comp_lit_inj; [done|done|lia|done]. }
      do 2 eexists. split; [reflexivity|]. split; [reflexivity|]. lia.
  - intros i j li lj ci cj Hij Hj Hsi Hsj. rewrite Hup in Hj. rewrite !Hcat.
    intros Hci Hcj.
    (* the old levels *)
    assert (Hold : ∀ x lx cx, 0 <= x < trail_head tr → seq_at tr x = Some lx →
                     cat cs lx = Some cx → 0 <= c_level cx <= Z.of_nat (length D)).
    { intros x lx cx Hx Hsx Hcx.
      destruct (inv_level _ _ _ _ _ _ _ I x lx) as (c1 & _ & H1 & _ & _ & Hb);
        [lia|done|]. by simplify_eq. }
    assert (Hnew : ∀ x lx cx, 0 <= x <= trail_head tr → seq_at tr x = Some lx →
               (if decide (lx = p0) then (λ c, cset_level (Z.of_nat (length D)) (cset_truth POSITIVE c)) <$> cat cs lx
                else if decide (lx = q)
                     then (λ c, cset_level (Z.of_nat (length D)) (cset_truth NEGATIVE c)) <$> cat cs lx
                     else cat cs lx) = Some cx →
               0 <= c_level cx <= Z.of_nat (length D)).
    { intros x lx cx Hx Hsx Hcx.
      destruct (decide (x = trail_head tr)) as [->|].
      - simplify_eq. rewrite decide_True, Hcp in Hcx by done. simplify_eq/=. lia.
      - destruct (cat cs lx) as [ox|] eqn:Ex; [|by repeat case_decide].
        assert (Bx := Hold x lx ox ltac:(lia) Hsx Ex).
        repeat case_decide; simplify_eq/=; lia. }
    assert (Bi := Hnew i li ci ltac:(lia) Hsi Hci).
    assert (Bj := Hnew j lj cj ltac:(lia) Hsj Hcj).
    destruct (decide (j = trail_head tr)) as [->|Hjh].
    { simplify_eq. rewrite decide_True, Hcp in Hcj by done. simplify_eq/=. lia. }
    destruct (cat cs li) as [oi|] eqn:Ei; [|by repeat case_decide].
    destruct (cat cs lj) as [oj|] eqn:Ej; [|by repeat case_decide].
    destruct D as [|v0 D0] eqn:ED.
    { simpl in *. lia. }
    destruct (inv_head_fresh _ _ _ _ _ _ _ p0 i li I) as (N1 & N2 & _);
      [done|done|done|lia|done|].
    destruct (inv_head_fresh _ _ _ _ _ _ _ p0 j lj I) as (N3 & N4 & _);
      [done|done|done|lia|done|].
    fold q in N2, N4. rewrite !decide_False in Hci by done.
    rewrite !decide_False in Hcj by done. simplify_eq.
    eapply (inv_mono _ _ _ _ _ _ _ I i j); [lia|lia|done..].
  - intros k v Hk.
    destruct (inv_pos _ _ _ _ _ _ _ I k v Hk)
      as (Hv & pos & Hpos & Hpt & Hkp & Hs & Hbelow & Hass).
    assert (HD : D ≠ []) by (intros ->; done).
    split; [done|]. exists pos.
    split; [done|]. split; [done|]. split; [done|]. split; [done|]. split.
    + intros j l c1 Hj Hsj. rewrite Hcat.
      destruct (inv_head_fresh _ _ _ _ _ _ _ p0 j l I) as (N1 & N2 & _);
        [done|done|done|lia|done|].
      fold q in N2. rewrite !decide_False by done. by eapply Hbelow.
    + intros _. rewrite Hcat.
      destruct (decide (pos = trail_head tr)) as [->|Hph].
      * simplify_eq. rewrite decide_True, Hcp by done. simpl.
        eexists. split; [done|]. split; [|done]. simpl.
        destruct (decide (Z.of_nat k + 1 = Z.of_nat (length D))) as [|Hk1]; [done|].
        exfalso. apply lookup_lt_Some in Hk as Hklt.
        destruct (lookup_lt_is_Some_2 D (length D - 1)) as [v' Hk']; [lia|].
        destruct (inv_pos _ _ _ _ _ _ _ I _ v' Hk')
          as (_ & pos' & Hpos' & _ & _ & Hs' & _ & Hass').
        assert (pos' ≠ trail_head tr).
        { intros ->. simplify_eq.
          pose proof (NoDup_lookup _ _ _ _ (inv_nodup _ _ _ _ _ _ _ I) Hk Hk'). lia. }
        destruct Hass' as (c' & Hc' & Hl' & _); [rewrite Hup0; lia|].
        pose proof (inv_n0 _ _ _ _ _ _ _ I) as Hn0.
        assert (Bp := Hbelow pos' v' c' ltac:(lia) Hs' Hc'). lia.
      * destruct Hass as (c1 & H1 & H2 & H3); [rewrite Hup0; lia|].
        destruct (inv_head_fresh _ _ _ _ _ _ _ p0 pos v I) as (N1 & N2 & _);
          [done|done|done|lia|done|].
        fold q in N2. rewrite !decide_False by done. eauto.
  - eapply inv_distinct, I.
Qed.

Lemma inv_finish n0 D V d tr cs :
  inv true n0 D V d tr cs →
  inv false n0 D V d (mk_trail (sequence tr) (trail_head tr + 1) (trail_tail tr)) cs.
Proof.
  intros I. pose proof (inv_b _ _ _ _ _ _ _ I eq_refl) as Hlt.
  pose proof (inv_ht _ _ _ _ _ _ _ I) as Hht.
  assert (Hup : assigned_upto false (mk_trail (sequence tr) (trail_head tr + 1) (trail_tail tr))
                = assigned_upto true tr).
  { unfold assigned_upto. simpl. lia. }
  constructor; try rewrite Hup; simpl; try (by destruct I).
  - lia.
  - intros k v Hk.
    destruct (inv_pos _ _ _ _ _ _ _ I k v Hk)
      as (Hv & pos & Hpos & Hpt & Hkp & Hs & Hbelow & Hass).
    split; [done|]. exists pos. simpl.
    split; [lia|]. split; [done|]. split; [done|]. split; [done|]. split; done.
Qed.

(** *** The invariant along [CDCL_prop] *)

Lemma qstep_Inv b n0 D s s' : qstep s s' → Inv b n0 D s → Inv b n0 D s'.
Proof.
  intros [s1 s2 Hv|s1 lit a s2 Ha Hav Hq] I; [by eapply Inv_view|].
  destruct (trail_queue_lit_view _ _ _ _ Hq) as [Ht Hview].
  unfold Inv in *. unfold view in Hview. injection Hview as -> -> -> ->.
  eapply (inv_queue _ _ _ _ _ _ _ lit (core_of a)); [done| |done|done].
  by rewrite <- get_ass_cat, Ha.
Qed.

Lemma qsteps_Inv b n0 D s s' : rtc qstep s s' → Inv b n0 D s → Inv b n0 D s'.
Proof. induction 1; eauto using qstep_Inv. Qed.

Lemma assign_Inv n0 D s p s' :
  Inv false n0 D s → trail_head (trail s) < trail_tail (trail s) →
  trail_read s (trail_head (trail s)) = Some p → assign p s = Some s' →
  Inv true n0 D s'.
Proof.
  intros I Hlt Hp Ha. apply assign_view in Ha.
  unfold Inv in *. unfold view in Ha. injection Ha as -> -> -> ->.
  by apply inv_assign.
Qed.

Lemma finish_head_Inv n0 D s pr nw s' :
  Inv true n0 D s → finish_head pr nw s = Some s' → Inv false n0 D s'.
Proof.
  unfold finish_head. intros I H.
  destruct (upd_ass _ pr s) as [s1|] eqn:Hu; simplify_eq/=.
  apply upd_ass_view in Hu; [|done].
  apply (Inv_view _ _ _ _ _ Hu) in I. unfold Inv in *.
  by apply inv_finish in I.
Qed.

Lemma prop_step_Inv n0 D s r :
  Inv false n0 D s → trail_head (trail s) ≠ trail_tail (trail s) →
  prop_step s = Some r →
  match r with inl s' => Inv false n0 D s' | inr s' => Inv true n0 D s' end.
Proof.
  intros I Hne H. unfold prop_step, scan_head in H.
  pose proof (inv_ht _ _ _ _ _ _ _ I) as Hht.
  destruct (trail_read s _) as [pr|] eqn:Hpr; simpl in H; [|done].
  destruct (assign pr s) as [s1|] eqn:Ha; simpl in H; [|done].
  eapply assign_Inv in Ha; [|done|lia|done].
  destruct (get_ass s1 pr) as [a|]; simpl in H; [|done].
  destruct (clause_loop _ _ _ _ _ _ _ _) as [sc|] eqn:Hl; simpl in H; [|done].
  apply clause_loop_qsteps in Hl. eapply qsteps_Inv in Hl; [|done].
  destruct sc as [vis nw s2|vis s2]; simpl in *; [|by simplify_eq].
  destruct (finish_head pr nw s2) as [s3|] eqn:Hf; simplify_eq/=.
  by eapply finish_head_Inv.
Qed.

Lemma prop_loop_Inv n0 D fuel : ∀ s t s',
  Inv false n0 D s → prop_loop fuel s = Some (t, s') →
  (t = DECIDE ∧ Inv false n0 D s' ∧ trail_head (trail s') = trail_tail (trail s')) ∨
  (t = CONFLICT ∧ Inv true n0 D s').
Proof.
  induction fuel as [|fuel IH]; simpl; intros s t s' I H.
  - case_decide; simplify_eq. by left.
  - case_decide; [simplify_eq; by left|].
    destruct (prop_step s) as [r|] eqn:Hs; simpl in H; [|done].
    eapply prop_step_Inv in Hs; [|done..].
    destruct r; simplify_eq; eauto.
Qed.

(** *** The invariant along [CDCL_decide] *)

Lemma inv_decide n0 D V d tr cs cs' v c :
  inv false n0 D V d tr cs →
  trail_head tr = trail_tail tr →
  0 <= v < V → cat cs v = Some c → c_status c = AVAILABLE →
  trail_tail tr < Z.of_nat (length (sequence tr)) →
  length cs' = length cs →
  (∀ l, cat cs' l = if decide (l = v ∨ l = v + V)
                    then (λ c, cset_status PENDING (cset_type DEC_ASS c)) <$> cat cs l
                    else cat cs l) →
  inv false n0 (D ++ [v]) V (d + 1) (pushed v tr) cs'.
Proof.
  intros I Hht Hv Hc Hav Ht Hlen Hcat.
  destruct (inv_comp_status _ _ _ _ _ _ _ _ _ I Hc) as (c' & Hc' & Hst' & Hl & Hcl & Hne).
  rewrite Hav in Hst'.
  pose proof (inv_V _ _ _ _ _ _ _ I) as HV.
  pose proof (inv_ht _ _ _ _ _ _ _ I) as Hht'.
  pose proof (inv_n0 _ _ _ _ _ _ _ I) as Hn0.
  pose proof (inv_d _ _ _ _ _ _ _ I) as Hd.
  assert (Hcv : get_comp_lit V v = v + V).
  { destruct (get_comp_lit_spec V v) as [[? ?]|[? ?]]; lia. }
  rewrite Hcv in *.
  assert (Hup : assigned_upto false (pushed v tr) = trail_head tr).
  { unfold assigned_upto. simpl. lia. }
  assert (Hup0 : assigned_upto false tr = trail_head tr).
  { unfold assigned_upto. lia. }
  assert (Hfresh : ∀ j l, 0 <= j < trail_tail tr → seq_at tr j = Some l →
                          l ≠ v ∧ l ≠ v + V ∧
                          get_comp_lit V l ≠ v ∧ get_comp_lit V l ≠ v + V).
  { intros j l Hj Hs.
    destruct (inv_pending _ _ _ _ _ _ _ I j Hj) as (l0 & c0 & Hs0 & Hr0 & Hc0 & Hp0).
    rewrite Hs in Hs0. injection Hs0 as <-.
    assert (l ≠ v ∧ l ≠ v + V) as [??] by (split; intros ->; simplify_eq; congruence).
    split_and!; [done|done| |];
      destruct (get_comp_lit_spec V l) as [[? ?]|[? ?]]; lia. }
  constructor.
  - done.
  - rewrite Hlen. eapply inv_len, I.
  - simpl. rewrite length_insert, Hlen. eapply inv_seq, I.
  - rewrite length_app. simpl. lia.
  - simpl. lia.
  - simpl. lia.
  - done.
  - intros w c1 c2 Hw. rewrite !Hcat. intros H1 H2.
    destruct (cat cs w) as [o1|] eqn:E1; [|by repeat case_decide].
    destruct (cat cs (w + V)) as [o2|] eqn:E2; [|by repeat case_decide].
    pose proof (inv_pair _ _ _ _ _ _ _ I w _ _ Hw E1 E2).
    repeat case_decide; simplify_eq/=; try done; lia.
  - intros w c1 Hw. rewrite Hcat. intros H1. rewrite elem_of_app, list_elem_of_singleton.
    destruct (cat cs w) as [o1|] eqn:E1; [|by repeat case_decide].
    pose proof (inv_dec _ _ _ _ _ _ _ I w _ Hw E1) as Hdw.
    case_decide as Hcase; simplify_eq/=.
    + assert (w = v) as -> by lia. split; [auto|]. intros _. done.
    + rewrite Hdw. split; [auto|]. intros [?| ->]; [done|]. exfalso. auto.
  - apply NoDup_app. split; [eapply inv_nodup, I|]. split; [|apply NoDup_singleton].
    intros x Hx ->%list_elem_of_singleton.
    apply (inv_dec _ _ _ _ _ _ _ I v _ Hv Hc) in Hx as [? _]. done.
  - intros j Hj. simpl in Hj. rewrite seq_at_pushed by lia. case_decide as Hjt.
    + exists v. rewrite Hcat, decide_True, Hc by auto. simpl.
      eexists. split; [done|]. split; [lia|]. split; [reflexivity|done].
    + destruct (inv_pending _ _ _ _ _ _ _ I j) as (l0 & c0 & Hs0 & Hr0 & Hc0 & Hp0); [lia|].
      exists l0. rewrite Hcat, Hc0.
      case_decide; simpl; eexists; (split; [done|]); (split; [lia|]);
        (split; [reflexivity|done]).
  - intros j l Hj. rewrite Hup in Hj. rewrite seq_at_pushed by lia.
    rewrite decide_False by lia. intros Hs.
    destruct (inv_level _ _ _ _ _ _ _ I j l) as (c1 & c2 & H1 & H2 & Heq & Hb);
      [lia|done|].
    destruct (Hfresh j l) as (? & ? & ? & ?); [lia|done|].
    exists c1, c2. rewrite !Hcat.
    rewrite !decide_False by (intros [?|?]; done).
    split; [done|]. split; [done|]. lia.
  - intros i j li lj ci cj Hij Hj. rewrite Hup in Hj.
    rewrite !seq_at_pushed by lia. rewrite !decide_False by lia.
    intros Hsi Hsj.
    destruct (Hfresh i li) as (? & ? & _); [lia|done|].
    destruct (Hfresh j lj) as (? & ? & _); [lia|done|].
    rewrite !Hcat. rewrite !decide_False by (intros [?|?]; done).
    eapply (inv_mono _ _ _ _ _ _ _ I); [done|lia|done..].
  - intros k w Hk.
    assert (Hbound : Z.of_nat (length D) <= trail_tail tr).
    { destruct (decide (length D = 0%nat)) as [->|]; [lia|].
      destruct (lookup_lt_is_Some_2 D (length D - 1)) as [v' Hk']; [lia|].
      destruct (inv_pos _ _ _ _ _ _ _ I _ v' Hk') as (_ & pos' & ? & ? & ? & _). lia. }
    apply lookup_app_Some in Hk as [Hk|[Hge Hk]].
    + destruct (inv_pos _ _ _ _ _ _ _ I k w Hk)
        as (Hw & pos & Hpos & Hpt & Hkp & Hs & Hbelow & Hass).
      split; [done|]. exists pos. simpl.
      split; [done|]. split; [lia|]. split; [done|]. split.
      { rewrite seq_at_pushed by lia. by rewrite decide_False by lia. }
      split.
      * intros j l c1 Hj. rewrite seq_at_pushed by lia.
        rewrite decide_False by lia. intros Hsj.
        destruct (Hfresh j l) as (? & ? & _); [lia|done|].
        rewrite Hcat. rewrite decide_False by (intros [?|?]; done).
        by eapply Hbelow.
      * rewrite Hup. intros Hlt. destruct Hass as (c1 & H1 & H2 & H3); [by rewrite Hup0|].
        destruct (Hfresh pos w) as (? & ? & _); [lia|done|].
        exists c1. rewrite Hcat.
        by rewrite decide_False by (intros [?|?]; done).
    + apply list_lookup_singleton_Some in Hk as [Hk0 <-].
      assert (k = length D) as -> by lia.
      split; [done|]. exists (trail_tail tr). simpl.
      split; [lia|]. split; [lia|]. split; [lia|]. split.
      { rewrite seq_at_pushed by lia. by rewrite decide_True. }
      split.
      * intros j l c1 Hj. rewrite seq_at_pushed by lia.
        rewrite decide_False by lia. intros Hsj.
        destruct (Hfresh j l) as (? & ? & _); [lia|done|].
        rewrite Hcat. rewrite decide_False by (intros [?|?]; done).
        intros Hc1.
        destruct (inv_level _ _ _ _ _ _ _ I j l) as (c2 & _ & H2 & _ & _ & Hb);
          [rewrite Hup0; lia|done|].
        simplify_eq. lia.
      * rewrite Hup. intros; lia.
  - intros i j li lj Hij Hj. simpl in Hj. rewrite !seq_at_pushed by lia.
    rewrite (decide_False (P := i = _)) by lia. intros Hsi.
    case_decide as Hjt.
    + intros [= <-]. rewrite Hcv.
      destruct (Hfresh i li) as (? & ? & _); [lia|done|]. done.
    + intros Hsj. eapply (inv_distinct _ _ _ _ _ _ _ I i j); [done|lia|done..].
Qed.

Lemma decide_loop_PROPAGATE n : ∀ w s s',
  decide_loop n w s = Some (PROPAGATE, s') →
  ∃ v a s1 s2 s3,
    w <= v < w + Z.of_nat n ∧
    get_ass s v = Some a ∧ ass_status a = AVAILABLE ∧
    upd_ass (set_ass_type DEC_ASS) v s = Some s1 ∧
    upd_ass (set_ass_type DEC_ASS) (v + num_vars s1) s1 = Some s2 ∧
    trail_queue_lit v DEC_ASS s2 = Some s3 ∧
    s' = with_num_decisions (to_ulong (num_decisions s3 + 1))
           (with_cur_dec_level (to_ulong (cur_dec_level s3 + 1)) s3).
Proof.
  induction n as [|n IH]; simpl; intros w s s' H; [done|].
  destruct (get_ass s w) as [a|] eqn:Ha; simpl in H; [|done].
  case_decide as Hav.
  - destruct (upd_ass _ w s) as [s1|] eqn:H1; simpl in H; [|done].
    destruct (upd_ass _ _ s1) as [s2|] eqn:H2; simpl in H; [|done].
    destruct (trail_queue_lit w DEC_ASS s2) as [s3|] eqn:H3; simpl in H; [|done].
    injection H as <-. exists w, a, s1, s2, s3. split_and!; try done; lia.
  - apply IH in H as (v & a' & s1 & s2 & s3 & Hv & ?). exists v, a', s1, s2, s3.
    split; [lia|done].
Qed.

Lemma CDCL_decide_Inv n0 D s s' :
  Inv false n0 D s → trail_head (trail s) = trail_tail (trail s) →
  CDCL_decide s = Some (PROPAGATE, s') →
  ∃ v, trail_read s' (trail_tail (trail s') - 1) = Some v ∧
       Inv false n0 (D ++ [v]) s'.
Proof.
  intros I Hht H. unfold CDCL_decide in H. case_decide; [done|].
  apply decide_loop_PROPAGATE in H
    as (v & a & s1 & s2 & s3 & Hv & Ha & Hav & H1 & H2 & H3 & ->).
  pose proof (inv_V _ _ _ _ _ _ _ I) as HV.
  pose proof (inv_d _ _ _ _ _ _ _ I) as Hd.
  pose proof (inv_len _ _ _ _ _ _ _ I) as Hlen.
  pose proof (inv_seq _ _ _ _ _ _ _ I) as Hseq.
  rewrite Z2Nat.id in Hv by lia.
  apply (upd_ass_cores _ (cset_type DEC_ASS)) in H1; [|done].
  apply (upd_ass_cores _ (cset_type DEC_ASS)) in H2; [|done].
  destruct (trail_queue_lit_view _ _ _ _ H3) as [Ht Hview]. clear H3.
  unfold view in H1. injection H1 as E1 E2 E3 E4.
  rewrite ?E1, ?E2, ?E3, ?E4 in H2. unfold view in H2. injection H2 as F1 F2 F3 F4.
  rewrite ?F1, ?F2, ?F3, ?F4 in Hview. rewrite ?F1, ?F2, ?F3, ?F4 in Ht.
  unfold view in Hview.
  injection Hview as G1 G2 G3 G4.
  assert (Hcv : get_comp_lit (num_vars s) v = v + num_vars s).
  { destruct (get_comp_lit_spec (num_vars s) v) as [[? ?]|[? ?]]; lia. }
  assert (Hbound : Z.of_nat (length D) <= 2 ^ 63).
  { destruct (decide (length D = 0%nat)) as [->|]; [lia|].
    destruct (lookup_lt_is_Some_2 D (length D - 1)) as [v' Hk']; [lia|].
    destruct (inv_pos _ _ _ _ _ _ _ I _ v' Hk') as (_ & pos' & ? & ? & ? & _).
    rewrite length_cores in *. lia. }
  exists v. split.
  - unfold trail_read. simpl. rewrite G3. simpl.
    replace (trail_tail (trail s) + 1 - 1) with (trail_tail (trail s)) by lia.
    rewrite seq_at_pushed by done. by rewrite decide_True.
  - unfold Inv. simpl. cores_simpl. rewrite G1, G2, G3, G4.
    replace (to_ulong (cur_dec_level s + 1)) with (cur_dec_level s + 1).
    2:{ unfold to_ulong. rewrite Z.mod_small; lia. }
    eapply (inv_decide _ _ _ _ _ _ _ v (core_of a)); [done|done|lia| |done|lia| |].
    + by rewrite <- get_ass_cat, Ha.
    + by rewrite length_queued, !length_c_upd.
    + intros l. rewrite cat_queued, !cat_c_upd by lia. rewrite Hcv.
      repeat case_decide; try (exfalso; intuition congruence); try done;
        destruct (cat (cores s) l); done.
Qed.

(** *** The invariant along [backtrack] and the flip *)

Section Backtrack.
Context (n0 : Z) (D : list Z) (v : Z) (V d : Z) (tr : trail_t) (cs : list core).
Context (I : inv true n0 (D ++ [v]) V d tr cs).

(** The position of the last decision. *)
Context (pos : Z).
Context (Hpos : n0 <= pos <= trail_head tr).
Context (Hseq : seq_at tr pos = Some v).
Context (Hbelow : ∀ j l c, 0 <= j < pos → seq_at tr j = Some l → cat cs l = Some c →
                           c_level c <= Z.of_nat (length D)).
Context (cv : core) (Hcv : cat cs v = Some cv) (Hlv : c_level cv = Z.of_nat (length D) + 1).

Lemma bt_V : 0 < V <= 2 ^ 62.
Proof. eapply inv_V, I. Qed.

Lemma bt_d : d = Z.of_nat (length D) + 1.
Proof. rewrite (inv_d _ _ _ _ _ _ _ I), length_app. simpl. lia. Qed.

Lemma bt_lt : trail_head tr < trail_tail tr.
Proof. by eapply inv_b. Qed.

Lemma bt_n0 : 0 <= n0.
Proof. pose proof (inv_n0 _ _ _ _ _ _ _ I). lia. Qed.

Lemma bt_entry j :
  0 <= j < trail_tail tr →
  ∃ l c, seq_at tr j = Some l ∧ 0 <= l < 2 * V ∧ cat cs l = Some c ∧
         0 <= get_comp_lit V l < 2 * V.
Proof.
  intros Hj. destruct (inv_pending _ _ _ _ _ _ _ I j Hj) as (l & c & Hs & Hr & Hc & _).
  destruct (inv_comp_status _ _ _ _ _ _ _ _ _ I Hc) as (_ & _ & _ & _ & ? & _).
  eauto 10.
Qed.

(** A literal below [lo] and its complement are not among those of the
    positions from [lo] on. *)
Lemma bt_untouched i li lo :
  0 <= i < lo → n0 <= lo → seq_at tr i = Some li →
  ∀ j lj, lo <= j <= trail_head tr → seq_at tr j = Some lj →
    (li ≠ lj ∧ li ≠ get_comp_lit V lj) ∧
    (get_comp_lit V li ≠ lj ∧ get_comp_lit V li ≠ get_comp_lit V lj).
Proof.
  intros Hi Hlo Hsi j lj Hj Hsj. pose proof bt_lt. pose proof bt_V.
  destruct (inv_distinct _ _ _ _ _ _ _ I i j li lj) as [N1 N2]; [lia|lia|done|done|].
  destruct (bt_entry i) as (? & ? & ? & Hri & _); [lia|].
  destruct (bt_entry j) as (? & ? & ? & Hrj & _); [lia|].
  simplify_eq. split_and!; [done|done| |].
  - intros E. apply N2. rewrite <- E. by rewrite get_comp_lit_invol.
  - intros E. apply N1. by eapply get_comp_lit_inj.
Qed.

Lemma agree_cat_below cs1 lo i li :
  agree V tr cs cs1 lo → 0 <= i < lo → n0 <= lo → seq_at tr i = Some li →
  cat cs1 li = cat cs li ∧ cat cs1 (get_comp_lit V li) = cat cs (get_comp_lit V li).
Proof.
  intros (_ & _ & A2) Hi Hlo Hsi.
  split; apply A2; intros j lj Hj Hsj;
    destruct (bt_untouched i li lo Hi Hlo Hsi j lj Hj Hsj) as [[??] [??]]; done.
Qed.

Lemma agree_unassign cs1 lo l :
  agree V tr cs cs1 (lo + 1) → pos <= lo <= trail_head tr → seq_at tr lo = Some l →
  agree V tr cs (unassigned_cores V l cs1) lo.
Proof.
  intros (A0 & A1 & A2) Hlo Hs. pose proof bt_lt. pose proof bt_V. pose proof bt_n0.
  destruct (bt_entry lo) as (l' & c & Hs' & Hr & Hc & Hrc); [lia|].
  rewrite Hs in Hs'. injection Hs' as <-.
  split_and!.
  - by rewrite length_unassigned.
  - intros l1. rewrite cat_unassigned by lia. rewrite <- A1.
    case_decide; [|done]. by destruct (cat cs1 l1).
  - intros l1 Hl1. rewrite cat_unassigned by lia.
    destruct (Hl1 lo l) as [??]; [lia|done|].
    rewrite decide_False by (intros [?|?]; done).
    apply A2. intros j lj Hj. apply Hl1. lia.
Qed.

(** The loop of [backtrack] unassigns the positions from the last decision
    up to the head and leaves the head one below it. *)
Lemma backtrack_loop_run (m : nat) : ∀ s1 cs1,
  pos + Z.of_nat m <= trail_head tr + 1 →
  view s1 = (V, d, tr, cs1) → agree V tr cs cs1 (pos + Z.of_nat m) →
  ∃ s2 cs2,
    backtrack_loop (d - 1) (Z.to_nat (pos + Z.of_nat m)) s1 = Some s2 ∧
    view s2 = (V, d, mk_trail (sequence tr) (pos - 1) (trail_tail tr), cs2) ∧
    agree V tr cs cs2 pos.
Proof.
  pose proof bt_lt as Hlt. pose proof bt_V as HV. pose proof bt_d as Hd.
  pose proof bt_n0 as Hn0.
  induction m as [|m IH]; intros s1 cs1 Hm Hview A.
  - rewrite Z.add_0_r in *. apply view_eq in Hview as (E1 & E2 & E3 & E4).
    destruct (decide (pos = 0)) as [->|Hp0].
    + exists (with_head (-1) s1), cs1. simpl. split; [done|].
      unfold view. cores_simpl. simpl. by rewrite E1, E2, E3, E4.
    + replace (Z.to_nat pos) with (S (Z.to_nat (pos - 1))) by lia.
      destruct (bt_entry (pos - 1)) as (l & c & Hs & Hr & Hc & Hrc); [lia|].
      destruct (agree_cat_below cs1 pos (pos - 1) l A) as [Hc1 _]; [lia|lia|done|].
      exists (with_head (pos - 1) s1), cs1. simpl.
      unfold trail_read. rewrite E3, Z2Nat.id, Hs by lia. simpl.
      rewrite <- E4, <- get_ass_cat in Hc1. rewrite Hc in Hc1.
      destruct (get_ass s1 l) as [a|]; [|done]. simpl in *. injection Hc1 as Hc1.
      assert (c_level c <= Z.of_nat (length D)) by (eapply (Hbelow (pos - 1)); [lia|done..]).
      rewrite decide_False.
      2:{ replace (dec_level a) with (c_level c) by (by rewrite <- Hc1). lia. }
      split; [done|]. unfold view. cores_simpl. simpl. by rewrite E1, E2, E3, E4.
  - replace (Z.to_nat (pos + Z.of_nat (S m))) with (S (Z.to_nat (pos + Z.of_nat m))) by lia.
    set (lo := pos + Z.of_nat m) in *.
    replace (pos + Z.of_nat (S m)) with (lo + 1) in * by lia.
    apply view_eq in Hview as (E1 & E2 & E3 & E4).
    destruct (bt_entry lo) as (l & c & Hs & Hr & Hc & Hrc); [lia|].
    pose proof A as (A0 & A1 & A2).
    assert (Hc1 : cat cs1 l = Some c).
    { rewrite <- Hc. apply A2. intros j lj Hj Hsj.
      eapply (bt_untouched lo l (lo + 1)); [lia|lia|done|done|done]. }
    simpl. unfold trail_read. rewrite E3, Z2Nat.id, Hs by lia. simpl.
    pose proof Hc1 as Hc1'. rewrite <- E4, <- get_ass_cat in Hc1'.
    destruct (get_ass s1 l) as [a|]; [|done]. simpl in *. injection Hc1' as Hc1'.
    assert (c_level cv <= c_level c).
    { eapply (inv_mono _ _ _ _ _ _ _ I pos lo v l); [lia|unfold assigned_upto; lia|done..]. }
    rewrite decide_True.
    2:{ replace (dec_level a) with (c_level c) by (by rewrite <- Hc1'). lia. }
    assert (Hmodel : Z.of_nat (length (model s1)) = 2 * V).
    { rewrite <- length_cores, E4, A0. eapply inv_len, I. }
    destruct (unassign_is_Some l s1) as [s1' Hu]; [lia|rewrite E1; lia|].
    rewrite Hu. simpl. apply unassign_view in Hu. rewrite E1, E2, E3, E4 in Hu.
    destruct (IH s1' _ ltac:(lia) Hu) as (s2 & cs2 & Hrun & Hv2 & A').
    { apply agree_unassign; [done|lia|done]. }
    eauto.
Qed.



(** The state after [backtrack] and the enqueueing of the complement of the
    last decision. *)
Lemma inv_flip cs2 :
  agree V tr cs cs2 pos →
  inv false n0 D V (d - 1)
    (pushed (get_comp_lit V v) (mk_trail (sequence tr) pos pos))
    (queued V (get_comp_lit V v) CON_ASS cs2).
Proof.
  intros A. pose proof A as (A0 & A1 & A2).
  pose proof bt_lt as Hlt. pose proof bt_V as HV. pose proof bt_d as Hd.
  pose proof bt_n0 as Hn0.
  assert (Hk : (D ++ [v]) !! length D = Some v).
  { by rewrite lookup_app_r, Nat.sub_diag. }
  destruct (inv_pos _ _ _ _ _ _ _ I _ _ Hk) as (Hvr & _).
  assert (Hcomp : get_comp_lit V v = v + V).
  { destruct (get_comp_lit_spec V v) as [[? ?]|[? ?]]; lia. }
  assert (Hcomp' : get_comp_lit V (v + V) = v).
  { destruct (get_comp_lit_spec V (v + V)) as [[? ?]|[? ?]]; lia. }
  rewrite Hcomp.
  set (tr0 := mk_trail (sequence tr) pos pos).
  assert (Hs0 : ∀ j, seq_at tr0 j = seq_at tr j) by done.
  assert (Hposlen : 0 <= pos < Z.of_nat (length (sequence tr))).
  { by eapply seq_at_range. }
  assert (Hsp : ∀ j, seq_at (pushed (v + V) tr0) j =
                     if decide (j = pos) then Some (v + V) else seq_at tr j).
  { intros j. rewrite seq_at_pushed by done. by rewrite Hs0. }
  assert (Hq : ∀ l, cat (queued V (v + V) CON_ASS cs2) l =
             if decide (l = v ∨ l = v + V)
             then (λ c, cset_status PENDING (cset_type CON_ASS c)) <$> cat cs2 l
             else cat cs2 l).
  { intros l. rewrite cat_queued by lia. rewrite Hcomp'.
    repeat case_decide; try (exfalso; intuition congruence); done. }
  (* the status, truth value and type of a record are those of [cs] *)
  assert (Hst : ∀ l c2, cat cs2 l = Some c2 →
            ∃ c, cat cs l = Some c ∧ c_status c2 = c_status c ∧
                 c_type c2 = c_type c ∧ c_truth c2 = c_truth c).
  { intros l c2 H2. specialize (A1 l). rewrite H2 in A1.
    destruct (cat cs l) as [c|]; [|done]. injection A1 as ???. eauto. }
  (* below the last decision nothing has changed *)
  assert (Hlow : ∀ j l, 0 <= j < pos → seq_at tr j = Some l →
            (l ≠ v ∧ l ≠ v + V) ∧
            (get_comp_lit V l ≠ v ∧ get_comp_lit V l ≠ v + V) ∧
            cat cs2 l = cat cs l ∧
            cat cs2 (get_comp_lit V l) = cat cs (get_comp_lit V l)).
  { intros j l Hj Hsj.
    destruct (bt_untouched j l pos Hj ltac:(lia) Hsj pos v ltac:(lia) Hseq)
      as [[??] [??]].
    rewrite Hcomp in *.
    destruct (agree_cat_below cs2 pos j l A) as [??]; [lia|lia|done|]. done. }
  assert (Hup : assigned_upto false (pushed (v + V) tr0) = pos).
  { unfold assigned_upto. simpl. lia. }
  constructor.
  - done.
  - rewrite length_queued, A0. eapply inv_len, I.
  - simpl. rewrite length_insert, length_queued, A0. eapply inv_seq, I.
  - lia.
  - simpl. lia.
  - simpl. lia.
  - done.
  - intros w c1 c2 Hw. rewrite !Hq. intros H1 H2.
    destruct (cat cs2 w) as [o1|] eqn:E1; [|by repeat case_decide].
    destruct (cat cs2 (w + V)) as [o2|] eqn:E2; [|by repeat case_decide].
    destruct (Hst _ _ E1) as (p1 & P1 & S1 & _).
    destruct (Hst _ _ E2) as (p2 & P2 & S2 & _).
    pose proof (inv_pair _ _ _ _ _ _ _ I w _ _ Hw P1 P2).
    repeat case_decide; simplify_eq/=; try done; try lia. congruence.
  - intros w c1 Hw. rewrite Hq. intros H1.
    destruct (cat cs2 w) as [o1|] eqn:E1; [|by repeat case_decide].
    destruct (Hst _ _ E1) as (p1 & P1 & S1 & T1 & _).
    pose proof (inv_dec _ _ _ _ _ _ _ I w _ Hw P1) as Hdw.
    rewrite elem_of_app, list_elem_of_singleton in Hdw.
    pose proof (inv_nodup _ _ _ _ _ _ _ I) as Hnd.
    apply NoDup_app in Hnd as (_ & Hnd & _).
    case_decide as Hcase; simplify_eq/=.
    + assert (w = v) as -> by lia. split; [intros [_ [=]]|].
      intros Hin. exfalso. eapply Hnd; [done|]. by apply list_elem_of_singleton.
    + rewrite S1, T1, Hdw. split; [|auto]. intros [?| ->]; [done|]. exfalso. auto.
  - pose proof (inv_nodup _ _ _ _ _ _ _ I) as Hnd. by apply NoDup_app in Hnd as (? & _).
  - intros j Hj. simpl in Hj. rewrite Hsp. case_decide as Hjp.
    + exists (v + V). rewrite Hq, decide_True by auto.
      destruct (cat_is_Some cs2 (v + V)) as [c2 Hc2].
      { rewrite A0, (inv_len _ _ _ _ _ _ _ I). lia. }
      rewrite Hc2. simpl. eexists. split; [done|]. split; [lia|].
      split; [reflexivity|done].
    + destruct (inv_pending _ _ _ _ _ _ _ I j) as (l & c & Hsj & Hr & Hc & Hp); [lia|].
      destruct (Hlow j l) as (_ & _ & Hcl & _); [lia|done|].
      exists l. rewrite Hq, Hcl, Hc.
      case_decide; simpl; eexists; (split; [done|]); (split; [lia|]);
        (split; [reflexivity|done]).
  - intros j l Hj. rewrite Hup in Hj. rewrite Hsp, decide_False by lia. intros Hsj.
    destruct (Hlow j l) as ((? & ?) & (? & ?) & Hcl & Hcl'); [lia|done|].
    destruct (inv_level _ _ _ _ _ _ _ I j l) as (c1 & c2 & Hc1 & Hc2 & Heq & Hb);
      [unfold assigned_upto; lia|done|].
    exists c1, c2. rewrite !Hq.
    rewrite !decide_False by (intros [?|?]; done). rewrite Hcl, Hcl'.
    split; [done|]. split; [done|]. split; [done|].
    assert (c_level c1 <= Z.of_nat (length D)) by (by eapply (Hbelow j)). lia.
  - intros i j li lj ci cj Hij Hj. rewrite Hup in Hj.
    rewrite !Hsp, !decide_False by lia. intros Hsi Hsj.
    destruct (Hlow i li) as ((? & ?) & _ & Hci & _); [lia|done|].
    destruct (Hlow j lj) as ((? & ?) & _ & Hcj & _); [lia|done|].
    rewrite !Hq. rewrite !decide_False by (intros [?|?]; done). rewrite Hci, Hcj.
    eapply (inv_mono _ _ _ _ _ _ _ I); [done|unfold assigned_upto; lia|done..].
  - intros k w Hkw.
    assert (Hkw' : (D ++ [v]) !! k = Some w) by (by apply lookup_app_l_Some).
    apply lookup_lt_Some in Hkw as Hklt.
    destruct (inv_pos _ _ _ _ _ _ _ I k w Hkw')
      as (Hw & pk & Hpk & Hpt & Hkp & Hsk & Hbk & Hak).
    destruct Hak as (ck & Hck & Hlk & Htk); [unfold assigned_upto; lia|].
    assert (w ≠ v).
    { intros ->. pose proof (NoDup_lookup _ _ _ _ (inv_nodup _ _ _ _ _ _ _ I) Hkw' Hk). lia. }
    assert (pk < pos).
    { destruct (decide (pk = pos)) as [->|]; [congruence|].
      destruct (decide (pk < pos)); [done|]. exfalso.
      assert (c_level cv <= c_level ck).
      { eapply (inv_mono _ _ _ _ _ _ _ I pos pk v w);
          [lia|unfold assigned_upto; lia|done..]. }
      lia. }
    destruct (Hlow pk w) as ((? & ?) & _ & Hcw & _); [lia|done|].
    split; [done|]. exists pk. simpl.
    split; [lia|]. split; [lia|]. split; [done|]. split.
    { by rewrite Hsp, decide_False by lia. }
    split.
    + intros j l c1 Hj. rewrite Hsp, decide_False by lia. intros Hsj.
      destruct (Hlow j l) as ((? & ?) & _ & Hcl & _); [lia|done|].
      rewrite Hq. rewrite decide_False by (intros [?|?]; done). rewrite Hcl.
      by eapply Hbk.
    + intros _. exists ck. rewrite Hq.
      rewrite decide_False by (intros [?|?]; done). by rewrite Hcw.
  - intros i j li lj Hij Hj. simpl in Hj. rewrite !Hsp.
    rewrite (decide_False (P := i = _)) by lia. intros Hsi.
    case_decide as Hjp.
    + intros [= <-]. rewrite Hcomp'.
      destruct (Hlow i li) as ((? & ?) & _); [lia|done|]. done.
    + intros Hsj. eapply (inv_distinct _ _ _ _ _ _ _ I i j); [done|lia|done..].
Qed.

End Backtrack.

Lemma backtrack_flip_Inv n0 D v s :
  Inv true n0 (D ++ [v]) s →
  ∃ s1 s2,
    backtrack (to_ulong (cur_dec_level s - 1)) s = Some s1 ∧
    trail_read s1 (trail_head (trail s1)) = Some v ∧
    num_vars s1 = num_vars s ∧
    trail_queue_lit (get_comp_lit (num_vars s) v) CON_ASS s1 = Some s2 ∧
    Inv false n0 D s2.
Proof.
  intros I. unfold Inv in I.
  pose proof (inv_V _ _ _ _ _ _ _ I) as HV.
  pose proof (inv_ht _ _ _ _ _ _ _ I) as Hht.
  pose proof (inv_len _ _ _ _ _ _ _ I) as Hlen.
  pose proof (inv_seq _ _ _ _ _ _ _ I) as Hsl.
  pose proof (inv_b _ _ _ _ _ _ _ I eq_refl) as Hlt.
  pose proof (inv_n0 _ _ _ _ _ _ _ I) as Hn0.
  pose proof (inv_d _ _ _ _ _ _ _ I) as Hd. rewrite length_app in Hd. simpl in Hd.
  assert (Hk : (D ++ [v]) !! length D = Some v).
  { by rewrite lookup_app_r, Nat.sub_diag. }
  destruct (inv_pos _ _ _ _ _ _ _ I _ _ Hk)
    as (Hvr & pos & Hpos & Hpt & Hkp & Hseq & Hbelow & Hass).
  destruct Hass as (cv & Hcv & Hlv & _); [unfold assigned_upto; lia|].
  assert (Hcomp : get_comp_lit (num_vars s) v = v + num_vars s).
  { destruct (get_comp_lit_spec (num_vars s) v) as [[? ?]|[? ?]]; lia. }
  assert (Hposlen : 0 <= pos < Z.of_nat (length (sequence (trail s)))).
  { by eapply seq_at_range. }
  assert (Hk1 : to_ulong (cur_dec_level s - 1) = cur_dec_level s - 1).
  { pose proof (inv_d_bound _ _ _ _ _ _ _ I).
    unfold to_ulong. rewrite Z.mod_small; [done|]. lia. }
  rewrite Hk1.
  destruct (backtrack_loop_run n0 D v _ _ _ _ I pos ltac:(lia) Hseq Hbelow cv Hcv Hlv
              (Z.to_nat (trail_head (trail s) + 1 - pos)) s (cores s))
    as (s2 & cs2 & Hrun & Hv2 & A); [lia|done| |].
  { split_and!; [done|done|done]. }
  replace (pos + Z.of_nat (Z.to_nat (trail_head (trail s) + 1 - pos)))
    with (trail_head (trail s) + 1) in Hrun by lia.
  unfold backtrack. rewrite decide_True by lia. rewrite Hrun. simpl.
  apply view_eq in Hv2 as (E1 & E2 & E3 & E4).
  set (s1 := with_cur_dec_level _ _).
  assert (Hview1 : view s1 =
            (num_vars s, cur_dec_level s - 1, mk_trail (sequence (trail s)) pos pos, cs2)).
  { unfold view, s1. cores_simpl. simpl. rewrite E1, E3, E4. simpl.
    by replace (pos - 1 + 1) with pos by lia. }
  apply view_eq in Hview1 as (F1 & F2 & F3 & F4).
  assert (Hmodel : Z.of_nat (length (model s1)) = 2 * num_vars s).
  { rewrite <- length_cores, F4. destruct A as (-> & _). done. }
  destruct (trail_queue_lit_is_Some (get_comp_lit (num_vars s) v) CON_ASS s1)
    as [s3 Hq].
  { lia. }
  { rewrite F1, Hcomp.
    destruct (get_comp_lit_spec (num_vars s) (v + num_vars s)) as [[? ?]|[? ?]]; lia. }
  { rewrite F3. simpl. lia. }
  exists s1, s3. split; [done|]. split.
  { unfold trail_read. rewrite F3. simpl. done. }
  split; [done|]. split; [done|].
  destruct (trail_queue_lit_view _ _ _ _ Hq) as [_ Hview3].
  unfold Inv. apply view_eq in Hview3 as (-> & -> & -> & ->).
  rewrite F1, F2, F3, F4.
  by eapply (inv_flip n0 D v _ _ _ _ I pos ltac:(lia) Hseq Hbelow cv Hcv Hlv).
Qed.

(** *** The clause the learning loop builds *)

Lemma length_learned_lits V D w : length (learned_lits V D w) = length D.
Proof. unfold learned_lits. by rewrite length_fmap, length_reverse. Qed.

Lemma learn_loop_run n0 D s (n : nat) : ∀ w,
  Inv true n0 D s → 0 <= w → w + Z.of_nat n = num_vars s →
  learn_loop s n w (mk_clause (learned_lits (num_vars s) D w) (cur_dec_level s)) =
    Some (mk_clause (learned_lits (num_vars s) D (num_vars s)) (cur_dec_level s)).
Proof.
  intros w I. unfold Inv in I. revert w.
  pose proof (inv_V _ _ _ _ _ _ _ I) as HV.
  pose proof (inv_len _ _ _ _ _ _ _ I) as Hlen.
  pose proof (inv_d _ _ _ _ _ _ _ I) as Hd.
  pose proof (inv_ht _ _ _ _ _ _ _ I) as Hht.
  pose proof (inv_nodup _ _ _ _ _ _ _ I) as Hnd.
  induction n as [|n IH]; intros w Hw Hn; simpl.
  - by replace w with (num_vars s) by lia.
  - destruct (cat_is_Some (cores s) w) as [c Hc]; [lia|].
    destruct (cat_Some_get_ass _ _ _ Hc) as (a & Ha & <-). rewrite Ha. simpl.
    pose proof (inv_dec _ _ _ _ _ _ _ I w _ ltac:(lia) Hc) as Hdw. simpl in Hdw.
    case_decide as Hdec.
    + apply Hdw in Hdec as Hin. apply list_elem_of_lookup in Hin as [k Hk].
      destruct (inv_pos _ _ _ _ _ _ _ I k w Hk) as (_ & pos & Hpos & _ & _ & _ & _ & Hass).
      destruct Hass as (c' & Hc' & Hl' & Ht'); [unfold assigned_upto; lia|].
      rewrite Hc in Hc'. injection Hc' as <-. simpl in Hl', Ht'.
      apply lookup_lt_Some in Hk as Hklt.
      assert (Hi : to_ulong (cur_dec_level s - dec_level a) = Z.of_nat (length D - 1 - k)).
      { pose proof (inv_d_bound _ _ _ _ _ _ _ I).
        unfold to_ulong. rewrite Z.mod_small; lia. }
      rewrite Hi, length_learned_lits.
      rewrite decide_True by lia. rewrite decide_True by done.
      rewrite Nat2Z.id.
      replace (<[_ := _]> _) with (learned_lits (num_vars s) D (w + 1)).
      { apply IH; lia. }
      unfold learned_lits. apply list_eq. intros j.
      destruct (decide (j = length D - 1 - k)%nat) as [->|Hj].
      * rewrite list_lookup_insert_eq by (rewrite length_fmap, length_reverse; lia).
        rewrite list_lookup_fmap, reverse_lookup by lia.
        replace (length D - S (length D - 1 - k))%nat with k by lia.
        rewrite Hk. simpl. by rewrite decide_True by lia.
      * rewrite list_lookup_insert_ne by done. rewrite !list_lookup_fmap.
        destruct (decide (j < length D)%nat) as [Hjl|Hjl].
        2:{ rewrite lookup_ge_None_2; [done|]. rewrite length_reverse. lia. }
        rewrite reverse_lookup by lia.
        destruct (D !! (length D - S j)%nat) as [x|] eqn:Hx; [|done]. simpl.
        assert (x ≠ w).
        { intros ->. pose proof (NoDup_lookup _ _ _ _ Hnd Hk Hx). lia. }
        repeat case_decide; try done; lia.
    + replace (learned_lits (num_vars s) D w) with (learned_lits (num_vars s) D (w + 1)).
      { apply IH; lia. }
      unfold learned_lits. apply list_fmap_ext. intros j x Hx.
      assert (x ≠ w).
      { intros ->. apply Hdec, Hdw. apply elem_of_reverse. by eapply list_elem_of_lookup_2. }
      repeat case_decide; try done; lia.
Qed.

(** *** What the repair leaves of the store and of the watch lists *)

Lemma upd_ass_watch f lit s s' l :
  (∀ a, watched_lits (f a) = watched_lits a) →
  upd_ass f lit s = Some s' → watch_list s' l = watch_list s l.
Proof.
  intros Hf H. unfold watch_list.
  destruct (decide (l = lit)) as [->|Hne].
  - apply upd_ass_get in H as (a & Ha & Ha' & _). rewrite Ha, Ha'. simpl. by rewrite Hf.
  - by rewrite (upd_ass_get_other _ _ _ _ _ H Hne).
Qed.

Lemma data_mutable_push m p : data (mutable_push m p) = data m ++ [Some p].
Proof. unfold mutable_push. by case_decide. Qed.

Lemma push_watch_watch lit p s s' l :
  push_watch lit p s = Some s' →
  watch_list s' l =
    if decide (l = lit) then (λ w, w ++ [Some p]) <$> watch_list s l else watch_list s l.
Proof.
  intros H. unfold push_watch in H. unfold watch_list. case_decide as Hl.
  - subst. apply upd_ass_get in H as (a & Ha & Ha' & _). rewrite Ha, Ha'. simpl.
    by rewrite data_mutable_push.
  - by rewrite (upd_ass_get_other _ _ _ _ _ H Hl).
Qed.

Lemma same_store_refl s : same_store s s.
Proof. done. Qed.

Lemma same_store_trans s1 s2 s3 : same_store s1 s2 → same_store s2 s3 → same_store s1 s3.
Proof.
  intros (H1 & H2 & H3) (G1 & G2 & G3). split_and!; [congruence..|].
  intros l. by rewrite G3.
Qed.

Lemma upd_ass_same_store f lit s s' :
  (∀ a, watched_lits (f a) = watched_lits a) →
  upd_ass f lit s = Some s' → same_store s s'.
Proof.
  intros Hf H. destruct (upd_ass_shape _ _ _ _ H) as (_ & _ & _ & _ & ? & ?).
  split_and!; [done..|]. intros l. by eapply upd_ass_watch.
Qed.

Lemma unassign_same_store lit s s' : unassign lit s = Some s' → same_store s s'.
Proof.
  unfold unassign. intros H.
  destruct (upd_ass _ lit s) as [s1|] eqn:H1; simpl in H; [|done].
  eapply same_store_trans; eapply upd_ass_same_store; [|done| |done]; done.
Qed.

Lemma backtrack_loop_same_store k n : ∀ s s',
  backtrack_loop k n s = Some s' → same_store s s'.
Proof.
  induction n as [|n IH]; simpl; intros s s' H; [by simplify_eq|].
  destruct (trail_read s _) as [lit|]; simpl in H; [|done].
  destruct (get_ass s lit) as [a|]; simpl in H; [|done].
  case_decide; [|by simplify_eq].
  destruct (unassign lit s) as [s1|] eqn:Hu; simpl in H; [|done].
  eapply same_store_trans; [by eapply unassign_same_store|eauto].
Qed.

Lemma backtrack_same_store k s s' : backtrack k s = Some s' → same_store s s'.
Proof.
  unfold backtrack. intros H.
  destruct (if decide _ then _ else _) as [s1|] eqn:H1; simplify_eq/=.
  case_decide; simplify_eq; [|done].
  by apply backtrack_loop_same_store in H1.
Qed.

Lemma trail_queue_lit_same_store lit ty s s' :
  trail_queue_lit lit ty s = Some s' → same_store s s'.
Proof.
  unfold trail_queue_lit, trail_write. intros H.
  destruct (upd_ass _ lit s) as [s1|] eqn:H1; simpl in H; [|done].
  destruct (upd_ass _ lit s1) as [s2|] eqn:H2; simpl in H; [|done].
  destruct (upd_ass _ _ s2) as [s3|] eqn:H3; simpl in H; [|done].
  destruct (upd_ass _ _ s3) as [s4|] eqn:H4; simpl in H; [|done].
  case_decide; simplify_eq/=.
  apply upd_ass_same_store in H1, H2, H3, H4; try done.
  eapply same_store_trans; [done|]. eapply same_store_trans; [done|].
  eapply same_store_trans; [done|]. destruct H4 as (? & ? & ?). done.
Qed.

(** *** The invariant along [CDCL_repair_conflict] *)

Lemma clause_init_learned_lits n0 b D s :
  Inv b n0 D s →
  clause_init (cur_dec_level s) =
    mk_clause (learned_lits (num_vars s) D 0) (cur_dec_level s).
Proof.
  intros I. unfold clause_init. f_equal.
  rewrite (inv_d _ _ _ _ _ _ _ I), Nat2Z.id.
  unfold learned_lits. rewrite <- (length_reverse D).
  assert (H : ∀ x, x ∈ reverse D → 0 <= x).
  { intros x Hx. rewrite elem_of_reverse in Hx.
    apply list_elem_of_lookup in Hx as [k Hk].
    destruct (inv_pos _ _ _ _ _ _ _ I k x Hk) as (? & _). lia. }
  induction (reverse D) as [|x l IH]; [done|]. simpl.
  rewrite decide_False.
  2:{ pose proof (H x ltac:(left)). lia. }
  f_equal. apply IH. intros y Hy. apply H. by right.
Qed.

Lemma learned_lits_full n0 b D s :
  Inv b n0 D s →
  learned_lits (num_vars s) D (num_vars s) =
    (λ x, Some (get_comp_lit (num_vars s) x)) <$> reverse D.
Proof.
  intros I. unfold learned_lits. apply list_fmap_ext. intros j x Hx.
  apply list_elem_of_lookup_2 in Hx. rewrite elem_of_reverse in Hx.
  apply list_elem_of_lookup in Hx as [k Hk].
  destruct (inv_pos _ _ _ _ _ _ _ I k x Hk) as (? & _).
  rewrite decide_True; [done|lia].
Qed.

(** The loop over the variables builds the clause of the complements of
    the decisions, the last decision first. *)
Lemma learn_loop_decisions n0 D s :
  Inv true n0 D s →
  learn_loop s (Z.to_nat (num_vars s)) 0 (clause_init (cur_dec_level s)) =
    Some (mk_clause ((λ x, Some (get_comp_lit (num_vars s) x)) <$> reverse D)
                    (cur_dec_level s)).
Proof.
  intros I. pose proof (inv_V _ _ _ _ _ _ _ I) as HV.
  rewrite (clause_init_learned_lits _ _ _ _ I).
  rewrite (learn_loop_run n0 _ s _ 0 I) by lia.
  by rewrite (learned_lits_full _ _ _ _ I).
Qed.

(** The block that learns a clause, at a level of 2 or more: [v0] is the
    last decision and [v1] the one before. *)
Lemma learn_run n0 D v1 v0 s :
  Inv true n0 (D ++ [v1; v0]) s →
  ∃ s', learn s = Some s' ∧ view s' = view s ∧
    heap s' = heap s ++
      [mk_clause ((λ x, Some (get_comp_lit (num_vars s) x)) <$> reverse (D ++ [v1; v0]))
                 (cur_dec_level s)] ∧
    data (learned_cnf s') = data (learned_cnf s) ++ [Some (length (heap s))] ∧
    (∀ l, watch_list s' l =
          if decide (l = v0 ∨ l = v1)
          then (λ w, w ++ [Some (length (heap s))]) <$> watch_list s l
          else watch_list s l).
Proof.
  intros I. unfold learn.
  pose proof (inv_V _ _ _ _ _ _ _ I) as HV.
  pose proof (inv_len _ _ _ _ _ _ _ I) as Hlen. rewrite length_cores in Hlen.
  rewrite (learn_loop_decisions _ _ _ I). simpl.
  assert (Hrev : reverse (D ++ [v1; v0]) = v0 :: v1 :: reverse D).
  { by rewrite reverse_app. }
  rewrite Hrev. simpl. unfold lit_at. simpl.
  assert (H0 : (D ++ [v1; v0]) !! S (length D) = Some v0).
  { rewrite lookup_app_r by lia. by replace (S (length D) - length D)%nat with 1%nat by lia. }
  assert (H1 : (D ++ [v1; v0]) !! length D = Some v1).
  { by rewrite lookup_app_r, Nat.sub_diag. }
  destruct (inv_pos _ _ _ _ _ _ _ I _ _ H0) as (Hr0 & _).
  destruct (inv_pos _ _ _ _ _ _ _ I _ _ H1) as (Hr1 & _).
  assert (v0 ≠ v1).
  { intros ->. pose proof (NoDup_lookup _ _ _ _ (inv_nodup _ _ _ _ _ _ _ I) H0 H1). lia. }
  rewrite !get_comp_lit_invol by lia.
  set (C := mk_clause _ _). set (s1 := with_heap _ s).
  assert (is_Some (push_watch v0 (length (heap s)) s1)) as [s2 Hp0].
  { apply upd_ass_is_Some. simpl. lia. }
  rewrite Hp0. simpl.
  destruct (upd_ass_shape _ _ _ _ Hp0) as (L2 & V2 & _ & _ & Hh2 & Hl2).
  rewrite V2. simpl. rewrite !get_comp_lit_invol by lia.
  assert (is_Some (push_watch v1 (length (heap s)) s2)) as [s3 Hp1].
  { apply upd_ass_is_Some. rewrite L2. simpl. lia. }
  rewrite Hp1. simpl.
  destruct (upd_ass_shape _ _ _ _ Hp1) as (L3 & V3 & _ & _ & Hh3 & Hl3).
  eexists. split; [done|]. split_and!.
  - apply push_watch_view in Hp0, Hp1.
    change (view s3 = view s). by rewrite Hp1, Hp0.
  - simpl. by rewrite Hh3, Hh2.
  - simpl. by rewrite data_mutable_push, Hl3, Hl2.
  - intros l.
    change (watch_list s3 l = if decide (l = v0 ∨ l = v1)
              then (λ w, w ++ [Some (length (heap s))]) <$> watch_list s l
              else watch_list s l).
    rewrite (push_watch_watch _ _ _ _ l Hp1), (push_watch_watch _ _ _ _ l Hp0).
    change (watch_list s1 l) with (watch_list s l).
    repeat case_decide; try (exfalso; intuition congruence); try done.
    all: subst; exfalso; intuition congruence.
Qed.

Lemma repair_level_1 n0 v s :
  Inv true n0 [v] s →
  ∃ s', CDCL_repair_conflict s = Some (Running s') ∧ Inv false n0 [] s'.
Proof.
  intros I. unfold CDCL_repair_conflict.
  pose proof (inv_d _ _ _ _ _ _ _ I) as Hd. simpl in Hd.
  set (s0 := with_num_conflicts _ s).
  assert (I0 : Inv true n0 ([] ++ [v]) s0) by exact I.
  change (Z.of_nat 1) with 1 in Hd.
  change (cur_dec_level s0) with (cur_dec_level s).
  rewrite decide_False by lia. rewrite decide_False by (intros H; apply H; lia). simpl.
  destruct (backtrack_flip_Inv _ _ _ _ I0) as (s1 & s2 & Hb & Hr & Hv & Hq & I2).
  change (cur_dec_level s0) with (cur_dec_level s) in Hb.
  rewrite Hb. simpl. rewrite Hr. simpl. rewrite Hv, Hq. simpl.
  eexists. split; [done|]. exact I2.
Qed.

Lemma repair_learns n0 D v1 v0 s :
  Inv true n0 (D ++ [v1; v0]) s →
  ∃ s', CDCL_repair_conflict s = Some (Running s') ∧
    Inv false n0 (D ++ [v1]) s' ∧
    heap s' = heap s ∧
    data (learned_cnf s') = data (learned_cnf s) ++ [Some (length (heap s))] ∧
    (∀ l, watch_list s' l =
          if decide (l = v0 ∨ l = v1)
          then (λ w, w ++ [Some (length (heap s))]) <$> watch_list s l
          else watch_list s l).
Proof.
  intros I. unfold CDCL_repair_conflict.
  pose proof (inv_d _ _ _ _ _ _ _ I) as Hd. rewrite length_app in Hd. simpl in Hd.
  set (s0 := with_num_conflicts _ s).
  assert (I0 : Inv true n0 (D ++ [v1; v0]) s0) by exact I.
  change (cur_dec_level s0) with (cur_dec_level s).
  rewrite decide_False by lia. rewrite decide_True by lia.
  destruct (learn_run _ _ _ _ _ I0) as (s1 & Hl & Hv1 & Hh & Hlc & Hw).
  rewrite Hl. simpl.
  assert (I1 : Inv true n0 ((D ++ [v1]) ++ [v0]) s1).
  { rewrite <- app_assoc. by eapply Inv_view. }
  destruct (backtrack_flip_Inv _ _ _ _ I1) as (s2 & s3 & Hb & Hr & Hv & Hq & I3).
  apply view_eq in Hv1 as (E1 & E2 & _ & _).
  change (num_vars s0) with (num_vars s) in E1.
  change (cur_dec_level s0) with (cur_dec_level s) in E2.
  rewrite Hb. simpl. rewrite Hr. simpl. rewrite Hv, Hq. simpl.
  eexists. split; [done|]. split; [exact I3|].
  apply backtrack_same_store in Hb as (B1 & B2 & B3).
  apply trail_queue_lit_same_store in Hq as (Q1 & Q2 & Q3).
  split_and!.
  - simpl. rewrite Q1, B1, Hh. apply take_app_length.
  - simpl. by rewrite Q2, B2, Hlc.
  - intros l. change (watch_list (with_heap _ s3) l) with (watch_list s3 l).
    by rewrite Q3, B3, Hw.
Qed.

(** *** The invariant after [CDCL_init] *)

Lemma inv0_queue V d tr cs lit :
  inv0 V d tr cs →
  0 <= lit < 2 * V →
  0 <= trail_tail tr < Z.of_nat (length (sequence tr)) →
  inv0 V d (pushed lit tr) (queued V lit PROP_ASS cs).
Proof.
  intros I Hl Ht. pose proof (inv0_V _ _ _ _ I) as HV.
  assert (Hc : 0 <= get_comp_lit V lit < 2 * V).
  { destruct (get_comp_lit_spec V lit) as [[? ?]|[? ?]]; lia. }
  constructor; simpl.
  - done.
  - rewrite length_queued. eapply inv0_len, I.
  - rewrite length_insert, length_queued. eapply inv0_seq, I.
  - eapply inv0_d, I.
  - eapply inv0_head, I.
  - lia.
  - intros v c1 c2 Hv. rewrite !cat_queued by lia. intros H1 H2.
    destruct (cat cs v) as [o1|] eqn:E1; [|by repeat case_decide].
    destruct (cat cs (v + V)) as [o2|] eqn:E2; [|by repeat case_decide].
    pose proof (inv0_pair _ _ _ _ I v _ _ Hv E1 E2).
    destruct (get_comp_lit_spec V lit) as [[? ?]|[? ?]]; [lia..| |];
      repeat case_decide; simplify_eq/=; try done; lia.
  - intros l c. rewrite cat_queued by lia.
    destruct (cat cs l) as [o|] eqn:E; [|by case_decide].
    case_decide; intros [= <-]; simpl; [by right|].
    by eapply inv0_type.
  - intros j Hj. rewrite seq_at_pushed by done. case_decide as Hjt.
    + destruct (cat_is_Some cs lit) as [c Hcl].
      { pose proof (inv0_len _ _ _ _ I). lia. }
      exists lit. eexists. rewrite cat_queued, decide_True, Hcl by (lia || auto).
      simpl. split_and!; first [done | lia | reflexivity].
    + destruct (inv0_pending _ _ _ _ I j) as (l0 & c0 & Hs0 & Hr0 & Hc0 & Hp0); [lia|].
      exists l0. rewrite cat_queued, Hc0 by lia.
      case_decide; simpl; eexists; split_and!; first [done | lia | reflexivity].
Qed.

Lemma inv0_inv V d tr cs : inv0 V d tr cs → inv false (trail_tail tr) [] V d tr cs.
Proof.
  intros I. pose proof (inv0_head _ _ _ _ I) as Hh.
  pose proof (inv0_tail _ _ _ _ I) as Ht.
  constructor.
  - eapply inv0_V, I.
  - eapply inv0_len, I.
  - eapply inv0_seq, I.
  - by rewrite (inv0_d _ _ _ _ I).
  - lia.
  - lia.
  - done.
  - eapply inv0_pair, I.
  - intros v c Hv Hc. split; [|by intros ?%elem_of_nil].
    intros [Hna Hty]. destruct (inv0_type _ _ _ _ I v c Hc) as [?|Hp]; [done|].
    rewrite Hp in Hty. discriminate.
  - constructor.
  - eapply inv0_pending, I.
  - unfold assigned_upto. intros; lia.
  - unfold assigned_upto. intros; lia.
  - intros k v Hk. by rewrite lookup_nil in Hk.
  - intros; lia.
Qed.

Lemma upd_ass_state f lit s s' : upd_ass f lit s = Some s' → state s' = state s.
Proof. unfold upd_ass. intros H. by simplify_option_eq. Qed.

Lemma trail_queue_lit_state lit ty s s' :
  trail_queue_lit lit ty s = Some s' → state s' = state s.
Proof.
  unfold trail_queue_lit, trail_write. intros H. simplify_option_eq. simpl.
  repeat match goal with
  | H : upd_ass _ _ _ = Some _ |- _ => apply upd_ass_state in H
  end.
  congruence.
Qed.

Lemma trail_queue_lit_range lit ty s s' :
  trail_queue_lit lit ty s = Some s' → 0 <= lit < Z.of_nat (length (model s)).
Proof.
  unfold trail_queue_lit. intros H.
  destruct (upd_ass (set_ass_type ty) lit s) as [s1|] eqn:E; [|done].
  unfold upd_ass in E. destruct (get_ass s lit) as [a|] eqn:Ea; [|done].
  rewrite <- length_cores. eapply cat_range.
  rewrite <- get_ass_cat, Ea. done.
Qed.

Lemma trail_queue_lit_Inv0 lit s s' :
  Inv0 s → trail_queue_lit lit PROP_ASS s = Some s' → Inv0 s'.
Proof.
  intros I H. pose proof (trail_queue_lit_range _ _ _ _ H) as Hr.
  apply trail_queue_lit_view in H as [Ht Hv].
  apply view_eq in Hv as (E1 & E2 & E3 & E4).
  unfold Inv0. rewrite E1, E2, E3, E4.
  apply inv0_queue; [done| |done].
  pose proof (inv0_len _ _ _ _ I) as HL. rewrite length_cores in HL. lia.
Qed.

Lemma read_lits_view input : ∀ w c s c' s',
  read_lits input w c s = Some (c', s') → view s' = view s ∧ state s' = state s.
Proof.
  induction input as [|x input IH]; simpl; intros w c s c' s' H.
  - by simplify_eq.
  - case_decide; [|done].
    destruct (upd_ass _ _ s) as [s1|] eqn:E; simpl in H; [|done].
    apply IH in H as [-> ->]. split.
    + by refine (upd_ass_view _ _ _ _ _ E).
    + by eapply upd_ass_state.
Qed.

Lemma Inv0_view s s' : view s' = view s → Inv0 s → Inv0 s'.
Proof. unfold Inv0, view. by intros [= -> -> -> ->]. Qed.

Lemma ready_view s s' : view s' = view s → state s' = state s → ready s → ready s'.
Proof.
  intros (_ & _ & Ht & _)%view_eq Hs. unfold ready. rewrite Hs, Ht. done.
Qed.

Lemma init_clauses_Inv0 input : ∀ s s',
  Inv0 s → ready s → init_clauses input s = Some (Running s') →
  Inv0 s' ∧ ready s'.
Proof.
  induction input as [|literals input IH]; intros s s' I R H.
  - simpl in H. by simplify_eq.
  - destruct literals as [|x [|y literals]].
    + done.
    + simpl in H.
      destruct (trail_queue_lit _ _ s) as [s1|] eqn:E; simpl in H; [|done].
      apply IH in H; [done| |by right].
      eapply Inv0_view; [|eapply trail_queue_lit_Inv0; [exact I|exact E]]. done.
    + cbn [init_clauses] in H.
      destruct (read_lits _ _ _ s) as [[c s1]|] eqn:E; simpl in H; [|done].
      apply read_lits_view in E as [Ev Es].
      destruct (lit_at c 0) as [l0|]; simpl in H; [|done].
      destruct (push_watch _ _ _) as [s2|] eqn:E2 in H; simpl in H; [|done].
      destruct (lit_at c 1) as [l1|]; simpl in H; [|done].
      destruct (push_watch _ _ s2) as [s3|] eqn:E3 in H; simpl in H; [|done].
      pose proof (upd_ass_state _ _ _ _ E2) as S2.
      pose proof (upd_ass_state _ _ _ _ E3) as S3.
      apply push_watch_view in E2, E3.
      assert (Hv : view s3 = view s).
      { rewrite E3, E2. exact Ev. }
      apply IH in H; [done|by eapply Inv0_view|].
      eapply ready_view; [exact Hv| |done].
      rewrite S3, S2. exact Es.
Qed.

Lemma cat_init_model raw n l c :
  cat (core_of <$> init_model raw n) l = Some c → c_status c = AVAILABLE.
Proof.
  unfold cat. case_decide; [|done]. rewrite list_lookup_fmap.
  unfold init_model. change map with (@fmap list _) at 1. rewrite list_lookup_fmap.
  destruct (seq 0 n !! Z.to_nat l); simpl; [|done]. by intros [= <-].
Qed.

(** A started solver satisfies the invariant of the search, with no
    decision made. *)
Lemma started_Inv s :
  started s → ∃ n0, Inv false n0 [] s ∧ ready s.
Proof.
  intros (raw & V & input & HV & H). unfold CDCL_init in H.
  case_decide as H61; [done|]. case_decide as Hc; [done|].
  case_decide as H0; [done|].
  set (s0 := mk_solver _ _ _ _ _ _ _ _ _ _ _ _) in *.
  destruct (init_clauses input s0) as [[s1| |]|] eqn:E; simpl in H; [|done..].
  injection H as <-.
  assert (Hn : to_ulong (V * 2) = 2 * V).
  { unfold to_ulong. rewrite Z.mod_small; lia. }
  apply init_clauses_Inv0 in E as [I R].
  - exists (trail_tail (trail s1)). split; [|exact R].
    pose proof (inv0_d _ _ _ _ I) as Hd.
    apply inv0_inv in I. unfold Inv.
    change (inv false (trail_tail (trail s1)) [] (num_vars s1) 0 (trail s1) (cores s1)).
    by rewrite <- Hd.
  - constructor; simpl.
    + lia.
    + unfold cores. simpl. unfold init_model.
      rewrite length_fmap, length_map, length_seq, Hn. lia.
    + unfold cores. simpl. unfold init_model.
      by rewrite length_replicate, length_fmap, length_map, length_seq.
    + done.
    + done.
    + done.
    + intros v c c' _ Hc1 Hc2.
      by rewrite (cat_init_model _ _ _ _ Hc1), (cat_init_model _ _ _ _ Hc2).
    + intros l c Hc1. left. exact (cat_init_model _ _ _ _ Hc1).
    + intros; lia.
  - by left.
Qed.

(** *** The invariant along the driver *)

Lemma repair_Inv n0 D s s' :
  Inv true n0 D s → CDCL_repair_conflict s = Some (Running s') →
  Inv false n0 (removelast D) s'.
Proof.
  intros I H. pose proof (inv_d _ _ _ _ _ _ _ I) as Hd.
  destruct D as [|v0 D1 _] using rev_ind.
  - unfold CDCL_repair_conflict in H. simpl in H, Hd.
    rewrite decide_True in H by done. done.
  - rewrite removelast_last.
    destruct D1 as [|v1 D2 _] using rev_ind.
    + destruct (repair_level_1 _ _ _ I) as (s2 & H2 & I2). congruence.
    + rewrite <- app_assoc in I. simpl in I.
      destruct (repair_learns _ _ _ _ _ I) as (s2 & H2 & I2 & _). congruence.
Qed.

Lemma drives_search_inv D s : drives D s → ∃ n0, search_inv n0 D s.
Proof.
  induction 1 as [s H|D s s' v _ [n0 IH] Hst Hd Hv|D s t s' _ [n0 IH] Hst Hp
                 |D s s' _ [n0 IH] Hst Hr].
  - destruct (started_Inv _ H) as (n0 & I & R). exists n0. unfold search_inv.
    destruct R as [[-> Ht]| ->]; [|done]. split; [done|].
    pose proof (inv_ht _ _ _ _ _ _ _ I). lia.
  - exists n0. unfold search_inv in *. rewrite Hst in IH. destruct IH as [I Hht].
    destruct (CDCL_decide_Inv _ _ _ _ I Hht Hd) as (v' & Hv' & I').
    rewrite Hv in Hv'. injection Hv' as <-. exact I'.
  - exists n0. unfold search_inv in *. rewrite Hst in IH.
    destruct (prop_loop_Inv _ _ _ _ _ _ IH Hp) as [(-> & I & Hht)|[-> I]].
    + split; [exact I|exact Hht].
    + exact I.
  - exists n0. unfold search_inv in *. rewrite Hst in IH.
    exact (repair_Inv _ _ _ _ IH Hr).
Qed.

Lemma decisions_run_drives n : ∀ D s D' s',
  drives D s → decisions_run n D s = Some (D', s') → drives D' s'.
Proof.
  induction n as [|n IH]; simpl; intros D s D' s' Hd H; [by simplify_eq|].
  destruct (state s) eqn:Hst; [| | |done].
  - destruct (CDCL_decide s) as [[t s1]|] eqn:E; simpl in H; [|done].
    destruct t; try done.
    destruct (trail_read s1 _) as [v|] eqn:Ev; simpl in H; [|done].
    eapply IH; [|exact H]. by eapply drives_decide.
  - destruct (CDCL_prop s) as [[t s1]|] eqn:E; simpl in H; [|done].
    eapply IH; [|exact H]. by eapply drives_prop.
  - destruct (CDCL_repair_conflict s) as [[s1| |]|] eqn:E; simpl in H; try done.
    eapply IH; [|exact H]. by eapply drives_repair.
Qed.

(** The states [drives] speaks of are states of the driver. *)
Lemma drives_driven D s : drives D s → driven s.
Proof.
  induction 1 as [s H|D s s' v _ (s0 & H0 & IH) Hst Hd Hv
                 |D s t s' _ (s0 & H0 & IH) Hst Hp
                 |D s s' _ (s0 & H0 & IH) Hst Hr].
  - exists s. split; [done|apply rtc_refl].
  - exists s0. split; [done|]. eapply rtc_r; [exact IH|].
    unfold driver_step. rewrite Hst, Hd. done.
  - exists s0. split; [done|]. eapply rtc_r; [exact IH|].
    unfold driver_step. rewrite Hst, Hp. done.
  - exists s0. split; [done|]. eapply rtc_r; [exact IH|].
    unfold driver_step. rewrite Hst, Hr. done.
Qed.

Lemma decide_loop_state n : ∀ w s t s',
  decide_loop n w s = Some (t, s') → t = SUCCESS ∨ t = PROPAGATE.
Proof.
  induction n as [|n IH]; simpl; intros w s t s' H; [simplify_eq; by left|].
  destruct (get_ass s w) as [a|]; simpl in H; [|done].
  case_decide; [|by eapply IH].
  simplify_option_eq. by right.
Qed.

(** Every state of the driver has its list of decisions. *)
Lemma driven_drives s : driven s → ∃ D, drives D s.
Proof.
  intros (s0 & H0 & Hrun). revert s Hrun.
  apply (rtc_ind_r (λ s, ∃ D, drives D s)).
  - exists []. by apply drives_start.
  - intros s1 s2 _ Hstep [D HD].
    
    destruct (drives_search_inv _ _ HD) as [n0 I].
    unfold driver_step in Hstep. unfold search_inv in I.
    destruct (state s1) eqn:Hst; [| | |done].
    + destruct (CDCL_decide s1) as [[t s']|] eqn:E; simpl in Hstep; [|done].
      assert (t = SUCCESS ∨ t = PROPAGATE) as [->| ->].
      { unfold CDCL_decide in E. case_decide; [simplify_eq; by left|].
        by eapply decide_loop_state. }
      { done. }
      injection Hstep as <-. destruct I as [I Hht].
      destruct (CDCL_decide_Inv _ _ _ _ I Hht E) as (v & Hv & _).
      exists (D ++ [v]). by eapply drives_decide.
    + destruct (CDCL_prop s1) as [[t s']|] eqn:E; simpl in Hstep; [|done].
      injection Hstep as <-. exists D. by eapply drives_prop.
    + destruct (CDCL_repair_conflict s1) as [[s'| |]|] eqn:E; simpl in Hstep; try done.
      injection Hstep as <-. exists (removelast D). by eapply drives_repair.
Qed.

(** *** Conflict repair and its local clause *)

(** At a conflict every decision in force is assigned, at its level. *)
Lemma Inv_decision_at n0 D s k v :
  Inv true n0 D s → D !! k = Some v → decision_at s (Z.of_nat k + 1) v.
Proof.
  intros I Hk.
  destruct (inv_pos _ _ _ _ _ _ _ I k v Hk)
    as (Hv & pos & Hpos & _ & _ & _ & _ & Hass).
  destruct Hass as (c & Hc & Hl & Ht); [unfold assigned_upto; lia|].
  destruct (proj2 (inv_dec _ _ _ _ _ _ _ I v c Hv Hc)) as [Hna Hty].
  { by eapply list_elem_of_lookup_2. }
  destruct (cat_Some_get_ass _ _ _ Hc) as (a & Ha & <-).
  exists a. done.
Qed.

Lemma lookup_learned_clause (f : Z → option Z) D k v :
  D !! k = Some v → (f <$> reverse D) !! (length D - S k)%nat = Some (f v).
Proof.
  intros Hk. pose proof (lookup_lt_Some _ _ _ Hk) as Hlt.
  rewrite list_lookup_fmap, reverse_lookup by lia.
  replace (length D - S (length D - S k))%nat with k by lia.
  by rewrite Hk.
Qed.

(** C7: at a conflict of level [d >= 2] with the decisions [D] in force, the
    block that learns builds a clause [C] of width [d] whose literal at
    position [d - k] is the complement of the decision of level [k], for
    every level [k] from 1 to [d], and the repair pushes the address of [C]
    at the end of the store of the learned clauses and of the watch lists
    of the complements of [C[0]] and [C[1]].  The clause is the local
    [learned_clause] of the call, at the address [length (heap s)] on top of
    the heap: when the repair has returned the heap is the one before the
    call and no clause is at the address the three lists hold. *)
Theorem repair_conflict_learned_clause_is_local (D : list Z) (s : solver) :
  drives D s → state s = CONFLICT → 2 <= cur_dec_level s →
  ∃ C s1 l0 l1 w0 w1 s',
    learn (with_num_conflicts (to_ulong (num_conflicts s + 1)) s) = Some s1 ∧
    heap s1 = heap s ++ [C] ∧
    width C = cur_dec_level s ∧
    Z.of_nat (length (lits C)) = cur_dec_level s ∧
    Z.of_nat (length D) = cur_dec_level s ∧
    (∀ k v, D !! k = Some v →
       decision_at s (Z.of_nat k + 1) v ∧
       lits C !! (length D - S k)%nat = Some (Some (get_comp_lit (num_vars s) v))) ∧
    lit_at C 0 = Some l0 ∧ lit_at C 1 = Some l1 ∧
    watch_list s (get_comp_lit (num_vars s) l0) = Some w0 ∧
    watch_list s (get_comp_lit (num_vars s) l1) = Some w1 ∧
    CDCL_repair_conflict s = Some (Running s') ∧
    data (learned_cnf s') = data (learned_cnf s) ++ [Some (length (heap s))] ∧
    watch_list s' (get_comp_lit (num_vars s) l0) = Some (w0 ++ [Some (length (heap s))]) ∧
    watch_list s' (get_comp_lit (num_vars s) l1) = Some (w1 ++ [Some (length (heap s))]) ∧
    heap s' = heap s ∧
    heap s' !! length (heap s) = None.
Proof.
  intros Hd Hst Hlevel.
  destruct (drives_search_inv _ _ Hd) as [n0 I]. unfold search_inv in I.
  rewrite Hst in I.
  pose proof (inv_d _ _ _ _ _ _ _ I) as HD.
  pose proof (inv_V _ _ _ _ _ _ _ I) as HV.
  destruct D as [|v0 D1 _] using rev_ind; [simpl in HD; lia|].
  destruct D1 as [|v1 D2 _] using rev_ind; [simpl in HD; lia|].
  rewrite <- app_assoc in *. simpl in *.
  set (D := D2 ++ [v1; v0]) in *.
  assert (H0 : D !! S (length D2) = Some v0).
  { unfold D. rewrite lookup_app_r by lia.
    by replace (S (length D2) - length D2)%nat with 1%nat by lia. }
  assert (H1 : D !! length D2 = Some v1).
  { unfold D. by rewrite lookup_app_r, Nat.sub_diag. }
  destruct (Inv_decision_at _ _ _ _ _ I H0) as (a0 & Ha0 & _).
  destruct (Inv_decision_at _ _ _ _ _ I H1) as (a1 & Ha1 & _).
  destruct (inv_pos _ _ _ _ _ _ _ I _ _ H0) as (Hr0 & _).
  destruct (inv_pos _ _ _ _ _ _ _ I _ _ H1) as (Hr1 & _).
  set (sc := with_num_conflicts (to_ulong (num_conflicts s + 1)) s).
  assert (Ic : Inv true n0 D sc) by exact I.
  destruct (learn_run _ _ _ _ _ Ic) as (s1 & Hl & _ & Hh & _).
  destruct (repair_learns _ _ _ _ _ I) as (s' & Hr & _ & Hh' & Hlc & Hw).
  change (num_vars sc) with (num_vars s) in Hh.
  change (cur_dec_level sc) with (cur_dec_level s) in Hh.
  change (heap sc) with (heap s) in Hh.
  assert (Hrev : reverse D = v0 :: v1 :: reverse D2).
  { unfold D. by rewrite reverse_app. }
  subst D.
  eexists _, s1, (get_comp_lit (num_vars s) v0), (get_comp_lit (num_vars s) v1),
    (data (watched_lits a0)), (data (watched_lits a1)), s'.
  rewrite !get_comp_lit_invol by lia.
  split; [exact Hl|]. split; [exact Hh|]. split; [reflexivity|].
  split; [simpl; by rewrite length_fmap, length_reverse|].
  split; [done|].
  split.
  { intros k v Hk. split; [by eapply Inv_decision_at|].
    simpl. by apply (lookup_learned_clause (λ x, Some (get_comp_lit (num_vars s) x))). }
  split; [unfold lit_at; simpl; by rewrite Hrev|].
  split; [unfold lit_at; simpl; by rewrite Hrev|].
  split; [unfold watch_list; by rewrite Ha0|].
  split; [unfold watch_list; by rewrite Ha1|].
  split; [exact Hr|]. split; [exact Hlc|].
  assert (v0 ≠ v1).
  { intros ->. pose proof (NoDup_lookup _ _ _ _ (inv_nodup _ _ _ _ _ _ _ I) H0 H1). lia. }
  split.
  { rewrite Hw, decide_True by auto. unfold watch_list. by rewrite Ha0. }
  split.
  { rewrite Hw, decide_True by auto. unfold watch_list. by rewrite Ha1. }
  split; [exact Hh'|].
  rewrite Hh'. apply lookup_ge_None. lia.
Qed.

Lemma repair_conflict_learned_clause_is_local_witness :
  drives [0; 1] demo_learn_conflict ∧
  ∃ C s1 l0 l1 w0 w1 s',
    learn (with_num_conflicts (to_ulong (num_conflicts demo_learn_conflict + 1))
             demo_learn_conflict) = Some s1 ∧
    heap s1 = heap demo_learn_conflict ++ [C] ∧
    width C = cur_dec_level demo_learn_conflict ∧
    Z.of_nat (length (lits C)) = cur_dec_level demo_learn_conflict ∧
    Z.of_nat (length [0; 1]) = cur_dec_level demo_learn_conflict ∧
    (∀ k v, [0; 1] !! k = Some v →
       decision_at demo_learn_conflict (Z.of_nat k + 1) v ∧
       lits C !! (length [0; 1] - S k)%nat =
         Some (Some (get_comp_lit (num_vars demo_learn_conflict) v))) ∧
    lit_at C 0 = Some l0 ∧ lit_at C 1 = Some l1 ∧
    watch_list demo_learn_conflict (get_comp_lit (num_vars demo_learn_conflict) l0) = Some w0 ∧
    watch_list demo_learn_conflict (get_comp_lit (num_vars demo_learn_conflict) l1) = Some w1 ∧
    CDCL_repair_conflict demo_learn_conflict = Some (Running s') ∧
    data (learned_cnf s') =
      data (learned_cnf demo_learn_conflict) ++ [Some (length (heap demo_learn_conflict))] ∧
    watch_list s' (get_comp_lit (num_vars demo_learn_conflict) l0) =
      Some (w0 ++ [Some (length (heap demo_learn_conflict))]) ∧
    watch_list s' (get_comp_lit (num_vars demo_learn_conflict) l1) =
      Some (w1 ++ [Some (length (heap demo_learn_conflict))]) ∧
    heap s' = heap demo_learn_conflict ∧
    heap s' !! length (heap demo_learn_conflict) = None.
Proof.
  assert (H : drives [0; 1] demo_learn_conflict).
  { apply (decisions_run_drives 4 [] demo_learn_start).
    - apply drives_start. exists zeroed, 3, [[-2; 3]].
      split; [unfold ULONG_MAX; lia | vm_compute; reflexivity].
    - vm_compute. reflexivity. }
  split; [exact H|].
  apply (repair_conflict_learned_clause_is_local [0; 1] demo_learn_conflict H).
  - reflexivity.
  - simpl. lia.
Defined.

(** *** More on the literal maps *)

(** The internal form of a DIMACS literal of a declared variable. *)
Lemma DIMACS_to_lit_spec V x :
  1 <= Z.abs x <= V →
  (0 < x ∧ DIMACS_to_lit V x = x - 1) ∨ (x < 0 ∧ DIMACS_to_lit V x = - x - 1 + V).
Proof.
  intros Hx. unfold DIMACS_to_lit. destruct (Z.ltb_spec x 0); lia.
Qed.

(** The DIMACS form of a literal of the table. *)
Lemma lit_to_DIMACS_spec V l :
  0 < V < 2 ^ 62 → 0 <= l < 2 * V →
  (l < V ∧ lit_to_DIMACS V l = l + 1) ∨ (V <= l ∧ lit_to_DIMACS V l = - (l - V + 1)).
Proof.
  intros HV Hl. unfold lit_to_DIMACS, to_ulong, to_long.
  rewrite (Z.mod_small l) by lia.
  destruct (Z.ltb_spec l V) as [Hlt|Hge].
  - left. split; [done|]. rewrite (Z.mod_small l V) by lia.
    rewrite (Z.mod_small (l + 1)) by lia.
    rewrite (Z.mod_small (l + 1 + 2 ^ 63)) by lia.
    replace ((l + 1 + 2 ^ 63 - 2 ^ 63) * 1 + 2 ^ 63) with (l + 1 + 2 ^ 63) by lia.
    rewrite Z.mod_small by lia. lia.
  - right. split; [done|].
    replace (l mod V) with (l - V).
    2:{ apply Z.mod_unique_pos with 1; lia. }
    rewrite (Z.mod_small (l - V + 1)) by lia.
    rewrite (Z.mod_small (l - V + 1 + 2 ^ 63)) by lia.
    replace ((l - V + 1 + 2 ^ 63 - 2 ^ 63) * -1 + 2 ^ 63)
      with (2 ^ 63 - (l - V + 1)) by lia.
    rewrite Z.mod_small by lia. lia.
Qed.

(** The records of a table that fits have the addresses [48 * l], below
    [2 ^ 63]. *)
Lemma fits_record V l :
  0 < V <= Ptr.max_vars → 0 <= l < 2 * V →
  0 <= Ptr.sizeof_ass_t * l < 2 ^ 63.
Proof. unfold Ptr.max_vars, Ptr.sizeof_ass_t. lia. Qed.

Lemma Ptr_record_inj V l l' :
  0 < V <= Ptr.max_vars → 0 <= l < 2 * V → 0 <= l' < 2 * V →
  Ptr.record l = Ptr.record l' → l = l'.
Proof.
  intros HV Hl Hl'. pose proof (fits_record V l HV Hl).
  pose proof (fits_record V l' HV Hl').
  rewrite !Ptr_record_small by lia. unfold Ptr.sizeof_ass_t. lia.
Qed.

(** Two numbers of records with the same address are [2 ^ 60] or a
    multiple of it apart: [48 * 2 ^ 60] is [3 * 2 ^ 64]. *)
Lemma Ptr_record_alias k l :
  Ptr.record k = Ptr.record l → ∃ q, k - l = 2 ^ 60 * q.
Proof.
  unfold Ptr.record, Ptr.add, Ptr.model, Ptr.sizeof_ass_t, to_ulong.
  rewrite !Z.add_0_l. intros E.
  pose proof (Z.div_mod (48 * k) (2 ^ 64) ltac:(lia)) as Hk.
  pose proof (Z.div_mod (48 * l) (2 ^ 64) ltac:(lia)) as Hl.
  rewrite E in Hk.
  exists (k - l - 384307168202282325 * (48 * k / 2 ^ 64 - 48 * l / 2 ^ 64)). lia.
Qed.

Lemma Ptr_record_shift k : Ptr.record (k + 2 ^ 60) = Ptr.record k.
Proof.
  unfold Ptr.record, Ptr.add, Ptr.model, Ptr.sizeof_ass_t, to_ulong.
  replace (0 + 48 * (k + 2 ^ 60)) with (0 + 48 * k + 3 * 2 ^ 64) by lia.
  apply Z_mod_plus_full.
Qed.

(** X1: for a number of variables up to 96076792050570581, where the table
    has at most [PTRDIFF_MAX] bytes, [get_comp_lit] of the address of a
    record of the table is the address of a record of the table, the one
    [num_vars] records up or down that the reading on numbers gives: it
    moves between the positive and the negative half, is never the address
    it was given, and undoes itself. *)
Theorem get_comp_lit_involution (V l : Z) :
  0 < V <= Ptr.max_vars → 0 <= l < 2 * V →
  ∃ l', Ptr.get_comp_lit V (Ptr.record l) = Ptr.record l' ∧
        l' = get_comp_lit V l ∧
        0 <= l' < 2 * V ∧
        (l < V ↔ V <= l') ∧
        Ptr.record l' ≠ Ptr.record l ∧
        Ptr.get_comp_lit V (Ptr.record l') = Ptr.record l.
Proof.
  intros HV Hl. exists (get_comp_lit V l).
  assert (HV2 : 0 < V <= 2 ^ 62) by (unfold Ptr.max_vars in HV; lia).
  assert (Hc : 0 <= get_comp_lit V l < 2 * V ∧ (l < V ↔ V <= get_comp_lit V l) ∧
               get_comp_lit V l ≠ l ∧ get_comp_lit V (get_comp_lit V l) = l).
  { destruct (get_comp_lit_spec V l HV2 Hl) as [[Hlt E]|[Hge E]]; rewrite E.
    - split; [lia|]. split; [lia|]. split; [lia|].
      destruct (get_comp_lit_spec V (l + V) HV2) as [[? ?]|[_ ->]]; lia.
    - split; [lia|]. split; [lia|]. split; [lia|].
      destruct (get_comp_lit_spec V (l - V) HV2) as [[_ ->]|[? ?]]; lia. }
  destruct Hc as (Hr & Hhalf & Hne & Hinv).
  split; [apply Ptr_get_comp_lit_record; by eapply fits_record|].
  split; [done|]. split; [done|]. split; [done|]. split.
  - intros E. by apply (Ptr_record_inj V) in E.
  - rewrite Ptr_get_comp_lit_record by (by eapply fits_record). by rewrite Hinv.
Qed.

Lemma get_comp_lit_involution_witness :
  ∃ l', Ptr.get_comp_lit 3 (Ptr.record 4) = Ptr.record l' ∧
        l' = get_comp_lit 3 4 ∧
        0 <= l' < 2 * 3 ∧
        (4 < 3 ↔ 3 <= l') ∧
        Ptr.record l' ≠ Ptr.record 4 ∧
        Ptr.get_comp_lit 3 (Ptr.record l') = Ptr.record 4.
Proof. apply (get_comp_lit_involution 3 4); unfold Ptr.max_vars; lia. Defined.

(** X2: for a number of variables up to 96076792050570581, the sign of a
    DIMACS literal is the half of the table its record lies in: the
    negation of a DIMACS literal of a declared variable has the address
    [get_comp_lit] gives for the literal, and the DIMACS form of
    [get_comp_lit] of a record of the table is the negation of the DIMACS
    form of the record. *)
Theorem negation_is_complement (V : Z) :
  0 < V <= Ptr.max_vars →
  (∀ x, 1 <= Z.abs x <= V →
        Ptr.DIMACS_to_lit V (- x) = Ptr.get_comp_lit V (Ptr.DIMACS_to_lit V x)) ∧
  (∀ l, 0 <= l < 2 * V →
        Ptr.lit_to_DIMACS V (Ptr.get_comp_lit V (Ptr.record l)) =
        - Ptr.lit_to_DIMACS V (Ptr.record l)).
Proof.
  intros HV.
  assert (HV2 : 0 < V < 2 ^ 62) by (unfold Ptr.max_vars in HV; lia).
  assert (HV3 : 0 < V <= 2 ^ 62) by lia.
  split.
  - intros x Hx. pose proof (DIMACS_to_lit_table V x Hx) as Hl.
    rewrite !Ptr_DIMACS_to_lit_record.
    rewrite Ptr_get_comp_lit_record by (by eapply fits_record). f_equal.
    destruct (DIMACS_to_lit_spec V x Hx) as [[Hs E]|[Hs E]];
      destruct (DIMACS_to_lit_spec V (- x)) as [[Hs' E']|[Hs' E']]; try lia;
      rewrite E, E'.
    + destruct (get_comp_lit_spec V (x - 1)) as [[_ ->]|[? _]]; lia.
    + destruct (get_comp_lit_spec V (- x - 1 + V)) as [[? _]|[_ ->]]; lia.
  - intros l Hl.
    rewrite Ptr_get_comp_lit_record by (by eapply fits_record).
    assert (Hc : 0 <= get_comp_lit V l < 2 * V)
      by (destruct (get_comp_lit_spec V l HV3 Hl) as [[? ->]|[? ->]]; lia).
    rewrite !Ptr_lit_to_DIMACS_record by (by eapply fits_record).
    destruct (get_comp_lit_spec V l) as [[Hlt E]|[Hge E]]; [lia|lia| |]; rewrite E.
    + destruct (lit_to_DIMACS_spec V l HV2 Hl) as [[_ ->]|[? _]]; [|lia].
      destruct (lit_to_DIMACS_spec V (l + V) HV2) as [[? _]|[_ ->]]; lia.
    + destruct (lit_to_DIMACS_spec V l HV2 Hl) as [[? _]|[_ ->]]; [lia|].
      destruct (lit_to_DIMACS_spec V (l - V) HV2) as [[_ ->]|[? _]]; lia.
Qed.

Lemma negation_is_complement_witness :
  (∀ x, 1 <= Z.abs x <= 5 →
        Ptr.DIMACS_to_lit 5 (- x) = Ptr.get_comp_lit 5 (Ptr.DIMACS_to_lit 5 x)) ∧
  (∀ l, 0 <= l < 2 * 5 →
        Ptr.lit_to_DIMACS 5 (Ptr.get_comp_lit 5 (Ptr.record l)) =
        - Ptr.lit_to_DIMACS 5 (Ptr.record l)).
Proof. apply (negation_is_complement 5). unfold Ptr.max_vars. lia. Defined.

(** X3: for a number of variables up to 96076792050570581, every record of
    the table prints as a DIMACS literal of a declared variable, positive
    for the lower half of the table, and reading that literal gives the
    address of the record back: [DIMACS_to_lit (lit_to_DIMACS l) = l]. *)
Theorem DIMACS_to_lit_to_DIMACS (V l : Z) :
  0 < V <= Ptr.max_vars → 0 <= l < 2 * V →
  1 <= Z.abs (Ptr.lit_to_DIMACS V (Ptr.record l)) <= V ∧
  (0 < Ptr.lit_to_DIMACS V (Ptr.record l) ↔ l < V) ∧
  Ptr.DIMACS_to_lit V (Ptr.lit_to_DIMACS V (Ptr.record l)) = Ptr.record l.
Proof.
  intros HV Hl.
  assert (HV2 : 0 < V < 2 ^ 62) by (unfold Ptr.max_vars in HV; lia).
  rewrite Ptr_lit_to_DIMACS_record by (by eapply fits_record).
  rewrite Ptr_DIMACS_to_lit_record.
  destruct (lit_to_DIMACS_spec V l HV2 Hl) as [[Hlt E]|[Hge E]]; rewrite E.
  - split; [lia|]. split; [lia|]. f_equal.
    destruct (DIMACS_to_lit_spec V (l + 1)) as [[_ ->]|[? _]]; lia.
  - split; [lia|]. split; [lia|]. f_equal.
    destruct (DIMACS_to_lit_spec V (- (l - V + 1))) as [[? _]|[_ ->]]; lia.
Qed.

Lemma DIMACS_to_lit_to_DIMACS_witness :
  1 <= Z.abs (Ptr.lit_to_DIMACS 3 (Ptr.record 5)) <= 3 ∧
  (0 < Ptr.lit_to_DIMACS 3 (Ptr.record 5) ↔ 5 < 3) ∧
  Ptr.DIMACS_to_lit 3 (Ptr.lit_to_DIMACS 3 (Ptr.record 5)) = Ptr.record 5.
Proof. apply (DIMACS_to_lit_to_DIMACS 3 5); unfold Ptr.max_vars; lia. Defined.

(** X4: [DIMACS_to_lit] checks nothing.  For a number of variables up to
    96076792050570581 and a value between [- 2 ^ 59] and [2 ^ 59], its
    result is the address of a record of the table exactly when the value
    is nonzero and lies between [-V] and [2 * V]: 0 and the values below
    [-V] or above [2 * V] give a pointer outside the table, and a value
    [V + k] with [1 <= k <= V], a variable the header does not declare,
    gives the record of [-k].  Past that range the addresses wrap: a
    positive value and the value [2 ^ 60] above it give the same
    pointer. *)
Theorem DIMACS_to_lit_range (V x : Z) :
  0 < V <= Ptr.max_vars → - 2 ^ 59 <= x <= 2 ^ 59 →
  ((∃ l, 0 <= l < 2 * V ∧ Ptr.DIMACS_to_lit V x = Ptr.record l) ↔
   x ≠ 0 ∧ - V <= x <= 2 * V) ∧
  (V < x <= 2 * V → Ptr.DIMACS_to_lit V x = Ptr.DIMACS_to_lit V (- (x - V))) ∧
  (0 < x → Ptr.DIMACS_to_lit V (x + 2 ^ 60) = Ptr.DIMACS_to_lit V x).
Proof.
  intros HV Hx. rewrite !Ptr_DIMACS_to_lit_record.
  unfold Ptr.max_vars in HV. split; [|split].
  - split.
    + intros (l & Hl & E). apply Ptr_record_alias in E as [q E].
      unfold DIMACS_to_lit in E. destruct (Z.ltb_spec x 0); lia.
    + intros Hr. exists (DIMACS_to_lit V x). split; [|done].
      unfold DIMACS_to_lit. destruct (Z.ltb_spec x 0); lia.
  - intros Hr. f_equal. unfold DIMACS_to_lit.
    destruct (Z.ltb_spec x 0); destruct (Z.ltb_spec (- (x - V)) 0); lia.
  - intros Hp. rewrite <- (Ptr_record_shift (DIMACS_to_lit V x)). f_equal.
    unfold DIMACS_to_lit.
    destruct (Z.ltb_spec x 0); destruct (Z.ltb_spec (x + 2 ^ 60) 0); lia.
Qed.

Lemma DIMACS_to_lit_range_witness :
  ((∃ l, 0 <= l < 2 * 3 ∧ Ptr.DIMACS_to_lit 3 5 = Ptr.record l) ↔
   5 ≠ 0 ∧ - 3 <= 5 <= 2 * 3) ∧
  (3 < 5 <= 2 * 3 → Ptr.DIMACS_to_lit 3 5 = Ptr.DIMACS_to_lit 3 (- (5 - 3))) ∧
  (0 < 5 → Ptr.DIMACS_to_lit 3 (5 + 2 ^ 60) = Ptr.DIMACS_to_lit 3 5).
Proof. apply (DIMACS_to_lit_range 3 5); unfold Ptr.max_vars; lia. Defined.

(** *** Mutables *)

(** The capacity of a mutable that was filled by [mutable_push] alone: a
    power of two that holds the entries and of which more than half is in
    use. *)
Lemma mutable_push_capacity m datum :
  size m < 2 ^ 63 →
  used m <= size m ∧ (size m < 2 * used m ∨ (used m = 0 ∧ size m = 1)) ∧
    (∃ k : nat, size m = 2 ^ Z.of_nat k) →
  let m' := mutable_push m datum in
  used m' = used m + 1 ∧
  used m' <= size m' ∧ size m' < 2 * used m' ∧
    (∃ k : nat, size m' = 2 ^ Z.of_nat k).
Proof.
  intros Hs (Hle & Hhalf & k & Hk). unfold mutable_push, used in *.
  case_decide as He; simpl; rewrite length_app; simpl.
  - unfold to_ulong. rewrite Z.mod_small by lia.
    split; [lia|]. split; [lia|]. split; [lia|].
    exists (S k). rewrite Nat2Z.inj_succ, Z.pow_succ_r by lia. lia.
  - split; [lia|]. split; [lia|]. split; [lia|]. by exists k.
Qed.

(** X5: [mutable_push] on a fresh mutable, any number of times below
    [2 ^ 60] (where the byte count given to [realloc] does not wrap): the
    data are the pointers pushed, in the order of the pushes and none of
    them NULL, [used] counts them, and the capacity [size] is a power of two
    with [used <= size], so that the write [data[used++]] is inside the
    array, and [size < 2 * used] after the first push. *)
Theorem mutable_push_all (ds : list clause_ptr) :
  Z.of_nat (length ds) < 2 ^ 60 →
  let m := foldl mutable_push mutable_init ds in
  data m = Some <$> ds ∧
  used m = Z.of_nat (length ds) ∧
  used m <= size m ∧
  (ds ≠ [] → size m < 2 * used m) ∧
  ∃ k : nat, size m = 2 ^ Z.of_nat k.
Proof.
  induction ds as [|d ds IH] using rev_ind; intros Hlen m.
  - subst m. simpl. split_and!; try done. by exists 0%nat.
  - subst m. rewrite foldl_app. simpl.
    rewrite length_app in Hlen. simpl in Hlen.
    destruct IH as (Hd & Hu & Hle & Hhalf & Hk); [lia|].
    set (m := foldl mutable_push mutable_init ds) in *.
    assert (Hs : size m < 2 ^ 63).
    { destruct ds as [|d0 ds0]; [by subst m|].
      specialize (Hhalf ltac:(done)). lia. }
    destruct (mutable_push_capacity m d Hs) as (Hu' & Hle' & Hhalf' & Hk').
    { split; [done|]. split; [|done].
      destruct ds as [|d0 ds0]; [right; by subst m|left; by apply Hhalf]. }
    split.
    { unfold mutable_push. rewrite fmap_app. case_decide; simpl; by rewrite Hd. }
    split; [rewrite Hu', Hu, length_app; simpl; lia|].
    split; [done|]. split; [done|]. done.
Qed.

Lemma mutable_push_all_witness :
  let m := foldl mutable_push mutable_init [4; 0; 2]%nat in
  data m = Some <$> [4; 0; 2]%nat ∧
  used m = Z.of_nat (length [4; 0; 2]%nat) ∧
  used m <= size m ∧
  ([4; 0; 2]%nat ≠ [] → size m < 2 * used m) ∧
  ∃ k : nat, size m = 2 ^ Z.of_nat k.
Proof. apply (mutable_push_all [4; 0; 2]%nat). simpl. lia. Defined.

(** *** What [CDCL_init] builds *)

Lemma get_ass_range_Some s l a : get_ass s l = Some a → 0 <= l < Z.of_nat (length (model s)).
Proof.
  unfold get_ass. case_decide; [|done]. intros Hl%lookup_lt_Some. lia.
Qed.

Lemma model_write_refl s : model_write s s.
Proof. split; [by destruct s|done]. Qed.

Lemma model_write_trans s1 s2 s3 :
  model_write s1 s2 → model_write s2 s3 → model_write s1 s3.
Proof.
  intros [E1 L1] [E2 L2]. split; [|congruence].
  rewrite E2 at 1. rewrite E1. by destruct s1.
Qed.

Lemma upd_ass_model_write f lit s s' : upd_ass f lit s = Some s' → model_write s s'.
Proof.
  intros (a & _ & _ & ->)%upd_ass_get. split; [done|].
  simpl. by rewrite length_insert.
Qed.

Lemma to_ulong_add_l a b : to_ulong (to_ulong a + b) = to_ulong (a + b).
Proof. unfold to_ulong. by rewrite Zplus_mod_idemp_l. Qed.

Lemma to_ulong_range a : 0 <= to_ulong a < 2 ^ 64.
Proof. unfold to_ulong. apply Z.mod_pos_bound. lia. Qed.

Lemma to_ulong_small a : 0 <= a < 2 ^ 64 → to_ulong a = a.
Proof. unfold to_ulong. apply Z.mod_small. Qed.

Lemma read_lits_model_write xs : ∀ w c s c' s',
  read_lits xs w c s = Some (c', s') → model_write s s'.
Proof.
  induction xs as [|x xs IH]; simpl; intros w c s c' s' H.
  - simplify_eq. apply model_write_refl.
  - case_decide; [|done].
    destruct (upd_ass _ _ s) as [s1|] eqn:E; simpl in H; [|done].
    eapply model_write_trans; [by eapply upd_ass_model_write|by eapply IH].
Qed.

Lemma model_write_num_vars s s' : model_write s s' → num_vars s' = num_vars s.
Proof. intros [-> _]. done. Qed.

(** The literals [read_lits] writes: those of the line, from the slot it
    starts at. *)
Lemma read_lits_lits xs : ∀ pre c s c' s',
  read_lits xs (length pre) c s = Some (c', s') →
  lits c = pre ++ replicate (length xs) None →
  lits c' = pre ++ ((λ x, Some (DIMACS_to_lit (num_vars s) x)) <$> xs) ∧
  width c' = width c.
Proof.
  induction xs as [|x xs IH]; simpl; intros pre c s c' s' H Hc.
  - simplify_eq. by rewrite Hc.
  - case_decide; [|done].
    destruct (upd_ass _ _ s) as [s1|] eqn:E; simpl in H; [|done].
    apply upd_ass_model_write, model_write_num_vars in E.
    destruct (IH (pre ++ [Some (DIMACS_to_lit (num_vars s) x)])
                (mk_clause (<[length pre:=Some (DIMACS_to_lit (num_vars s) x)]> (lits c))
                           (width c)) s1 c' s') as [Hl Hw].
    { rewrite length_app. simpl. rewrite Nat.add_1_r. exact H. }
    { simpl. rewrite Hc. rewrite insert_app_r_alt, Nat.sub_diag by lia. simpl.
      by rewrite <- app_assoc. }
    rewrite Hl, <- app_assoc, E. done.
Qed.

(** The records [read_lits] leaves: the counter of a literal has gone up
    by the number of times the line has it, and nothing else has
    changed. *)
Lemma read_lits_get xs : ∀ w c s c' s' l a,
  read_lits xs w c s = Some (c', s') → get_ass s l = Some a →
  ∃ a', get_ass s' l = Some a' ∧ a' = set_num_active (num_active a') a ∧
        to_ulong (num_active a') =
          to_ulong (num_active a +
                    Z.of_nat (length (filter (λ x, DIMACS_to_lit (num_vars s) x = l) xs))) ∧
        (0 <= num_active a < 2 ^ 64 → 0 <= num_active a' < 2 ^ 64).
Proof.
  induction xs as [|x xs IH]; simpl; intros w c s c' s' l a H Ha.
  - simplify_eq. exists a. split_and!; [done|by destruct a| |done]. by rewrite Z.add_0_r.
  - case_decide; [|done].
    destruct (upd_ass _ _ s) as [s1|] eqn:E; simpl in H; [|done].
    pose proof (model_write_num_vars _ _ (upd_ass_model_write _ _ _ _ E)) as Hv.
    rewrite filter_cons.
    destruct (decide (DIMACS_to_lit (num_vars s) x = l)) as [Hx|Hx].
    + rewrite Hx in E. destruct (upd_ass_get _ _ _ _ E) as (a0 & Ha0 & Ha1 & _).
      rewrite Ha in Ha0. injection Ha0 as <-.
      destruct (IH _ _ _ _ _ _ _ H Ha1) as (a' & Ha' & Hf & Hn & Hr).
      exists a'. split; [done|]. split; [by rewrite Hf; destruct a|]. split.
      * rewrite Hn. simpl. rewrite Hv, to_ulong_add_l. f_equal. lia.
      * intros _. apply Hr. simpl. apply to_ulong_range.
    + assert (Ha1 : get_ass s1 l = Some a).
      { rewrite <- Ha. eapply upd_ass_get_other; [done|]. congruence. }
      destruct (IH _ _ _ _ _ _ _ H Ha1) as (a' & Ha' & Hf & Hn & Hr).
      exists a'. by rewrite Hv in Hn.
Qed.

(** [read_lits] returns only if every literal of the line is in the
    table. *)
Lemma read_lits_range xs : ∀ w c s c' s' x,
  read_lits xs w c s = Some (c', s') → x ∈ xs →
  0 <= DIMACS_to_lit (num_vars s) x < Z.of_nat (length (model s)).
Proof.
  induction xs as [|y xs IH]; simpl; intros w c s c' s' x H Hx.
  - by apply elem_of_nil in Hx.
  - case_decide; [|done].
    destruct (upd_ass _ _ s) as [s1|] eqn:E; simpl in H; [|done].
    destruct (upd_ass_model_write _ _ _ _ E) as [E1 L1].
    apply elem_of_cons in Hx as [->|Hx].
    + destruct (upd_ass_get _ _ _ _ E) as (a & Ha & _). by eapply get_ass_range_Some.
    + rewrite <- L1. replace (num_vars s) with (num_vars s1) by (rewrite E1; done).
      by eapply IH.
Qed.

Lemma push_watch_get lit p s s' l a :
  push_watch lit p s = Some s' → get_ass s l = Some a →
  get_ass s' l =
    Some (if decide (l = lit)
          then set_watched_lits (mutable_push (watched_lits a) p) a else a).
Proof.
  intros H Ha. unfold push_watch in H. case_decide as Hl.
  - subst. destruct (upd_ass_get _ _ _ _ H) as (a0 & Ha0 & Ha1 & _). congruence.
  - by rewrite (upd_ass_get_other _ _ _ _ _ H Hl).
Qed.

Lemma trail_queue_lit_parts lit ty s s' :
  trail_queue_lit lit ty s = Some s' →
  ∃ s1, model_write s s1 ∧
        0 <= trail_tail (trail s) < Z.of_nat (length (sequence (trail s))) ∧
        s' = with_trail (pushed lit (trail s)) s1 ∧
        0 <= lit < Z.of_nat (length (model s)) ∧
        0 <= get_comp_lit (num_vars s) lit < Z.of_nat (length (model s)) ∧
        ∀ l a, get_ass s l = Some a →
          get_ass s1 l =
            Some (if decide (l = lit ∨ l = get_comp_lit (num_vars s) lit)
                  then set_ass_status PENDING (set_ass_type ty a) else a).
Proof.
  unfold trail_queue_lit, trail_write. intros H.
  destruct (upd_ass _ lit s) as [s1|] eqn:E1; simpl in H; [|done].
  destruct (upd_ass _ lit s1) as [s2|] eqn:E2; simpl in H; [|done].
  destruct (upd_ass _ _ s2) as [s3|] eqn:E3; simpl in H; [|done].
  destruct (upd_ass _ _ s3) as [s4|] eqn:E4; simpl in H; [|done].
  case_decide as Ht; simpl in H; [|done]. injection H as <-.
  pose proof (upd_ass_model_write _ _ _ _ E1) as W1.
  pose proof (upd_ass_model_write _ _ _ _ E2) as W2.
  pose proof (upd_ass_model_write _ _ _ _ E3) as W3.
  pose proof (upd_ass_model_write _ _ _ _ E4) as W4.
  assert (W : model_write s s4) by eauto using model_write_trans.
  assert (Ht4 : trail s4 = trail s) by (destruct W as [-> _]; done).
  rewrite Ht4 in Ht.
  exists s4. split; [done|]. split; [done|]. split.
  { unfold pushed. simpl. rewrite Ht4. by destruct s4. }
  destruct (upd_ass_get _ _ _ _ E1) as (a1 & G1 & G1' & _).
  destruct (upd_ass_get _ _ _ _ E2) as (a2 & G2 & G2' & _).
  destruct (upd_ass_get _ _ _ _ E3) as (a3 & G3 & G3' & _).
  destruct (upd_ass_get _ _ _ _ E4) as (a4 & G4 & G4' & _).
  assert (L2 : length (model s2) = length (model s)).
  { destruct W1 as [_ L1]. destruct W2 as [_ L2]. congruence. }
  split.
  { unfold get_ass in G1. case_decide; [|done]. apply lookup_lt_Some in G1. lia. }
  split.
  { unfold get_ass in G3. case_decide; [|done]. apply lookup_lt_Some in G3. lia. }
  intros l a Ha.
  destruct (decide (l = lit)) as [->|Hl].
  - rewrite decide_True by auto. simplify_eq.
    destruct (decide (get_comp_lit (num_vars s) lit = lit)) as [Hc|Hc].
    + rewrite Hc in *. simplify_eq. by destruct a1.
    + rewrite (upd_ass_get_other _ _ _ _ _ E4 (not_eq_sym Hc)).
      rewrite (upd_ass_get_other _ _ _ _ _ E3 (not_eq_sym Hc)). rewrite G2'.
      by destruct a1.
  - destruct (decide (l = get_comp_lit (num_vars s) lit)) as [->|Hl'].
    + rewrite decide_True by auto.
      rewrite (upd_ass_get_other _ _ _ _ _ E2 Hl),
        (upd_ass_get_other _ _ _ _ _ E1 Hl), Ha in G3.
      simplify_eq. done.
    + rewrite decide_False by (intros [?|?]; done).
      rewrite (upd_ass_get_other _ _ _ _ _ E4 Hl'), (upd_ass_get_other _ _ _ _ _ E3 Hl'),
        (upd_ass_get_other _ _ _ _ _ E2 Hl), (upd_ass_get_other _ _ _ _ _ E1 Hl). done.
Qed.

(** Induction over the clause loop of [CDCL_init]: a property of the lines
    read so far and of the solver that is kept by the step of a unit clause
    and by the step of a longer one holds of the whole file when the loop
    is through; and the loop is not through if a line is empty. *)
Lemma init_clauses_induction (input : list (list Z))
    (P : list (list Z) → solver → Prop) :
  (∀ pre x rest s s1,
     pre ++ [x] :: rest = input → P pre s →
     trail_queue_lit (DIMACS_to_lit (num_vars s) x) PROP_ASS s = Some s1 →
     P (pre ++ [[x]])
       (with_cnf_size (to_ulong (cnf_size s1 - 1)) (with_state PROPAGATE s1))) →
  (∀ pre literals rest s c s1 l0 l1 s2 s3,
     pre ++ literals :: rest = input → (2 ≤ length literals)%nat → P pre s →
     read_lits literals 0 (clause_init (Z.of_nat (length literals))) s = Some (c, s1) →
     lit_at c 0 = Some l0 → lit_at c 1 = Some l1 →
     push_watch (get_comp_lit (num_vars s1) l0) (length (heap s1))
       (with_heap (heap s1 ++ [c]) s1) = Some s2 →
     push_watch (get_comp_lit (num_vars s2) l1) (length (heap s1)) s2 = Some s3 →
     P (pre ++ [literals]) s3) →
  ∀ rest pre s s',
    pre ++ rest = input → P pre s → init_clauses rest s = Some (Running s') →
    P input s' ∧ [] ∉ rest.
Proof.
  intros Hunit Hclause.
  induction rest as [|literals rest IH]; intros pre s s' Hin HP H.
  - simpl in H. simplify_eq. rewrite app_nil_r. split; [done|]. apply not_elem_of_nil.
  - destruct literals as [|x [|y literals]].
    + done.
    + simpl in H.
      destruct (trail_queue_lit _ _ s) as [s1|] eqn:E; simpl in H; [|done].
      apply (IH (pre ++ [[x]])) in H as [HP' Hne];
        [|by rewrite <- app_assoc|by eapply Hunit].
      split; [done|]. rewrite not_elem_of_cons. done.
    + cbn [init_clauses] in H.
      destruct (read_lits _ _ _ s) as [[c s1]|] eqn:E; simpl in H; [|done].
      destruct (lit_at c 0) as [l0|] eqn:E0; simpl in H; [|done].
      destruct (push_watch _ _ _) as [s2|] eqn:E2 in H; simpl in H; [|done].
      destruct (lit_at c 1) as [l1|] eqn:E1; simpl in H; [|done].
      destruct (push_watch _ _ s2) as [s3|] eqn:E3 in H; simpl in H; [|done].
      apply (IH (pre ++ [x :: y :: literals])) in H as [HP' Hne];
        [|by rewrite <- app_assoc
         |eapply (Hclause pre (x :: y :: literals)); try done; simpl; lia].
      split; [done|]. rewrite not_elem_of_cons. done.
Qed.

Lemma file_units_app pre rest : file_units (pre ++ rest) = file_units pre ++ file_units rest.
Proof. unfold file_units. apply bind_app. Qed.

Lemma file_clauses_app pre rest :
  file_clauses (pre ++ rest) = file_clauses pre ++ file_clauses rest.
Proof. unfold file_clauses. apply filter_app. Qed.

Lemma length_file_units input : (length (file_units input) ≤ length input)%nat.
Proof.
  induction input as [|[|x [|y l]] input IH]; simpl; try lia.
Qed.

Lemma length_file input :
  length input = (length (file_units input) + length (file_clauses input))%nat.
Proof.
  induction input as [|[|x [|y l]] input IH]; [done|..];
    unfold file_clauses in *; rewrite filter_cons; simpl in *; lia.
Qed.

Lemma get_ass_is_Some s l : 0 <= l < Z.of_nat (length (model s)) → is_Some (get_ass s l).
Proof.
  intros H. unfold get_ass. case_decide; [|lia]. apply lookup_lt_is_Some. lia.
Qed.

Lemma file_watchers_snoc V l clauses literals :
  file_watchers V l (clauses ++ [literals]) =
    file_watchers V l clauses ++ watched_by V l (length clauses) literals.
Proof.
  unfold file_watchers. rewrite imap_app, concat_app. simpl.
  by rewrite Nat.add_0_r, app_nil_r.
Qed.

Lemma file_occurrences_snoc V l clauses literals :
  file_occurrences V l (clauses ++ [literals]) =
    (file_occurrences V l clauses +
     length (filter (λ x, DIMACS_to_lit V x = l) literals))%nat.
Proof.
  unfold file_occurrences. rewrite concat_app, filter_app, length_app. simpl.
  by rewrite app_nil_r.
Qed.

(** The step of a unit clause keeps [built]. *)
Lemma built_unit V N pre x s s1 :
  Z.of_nat (length pre) < N <= ULONG_MAX →
  built V N pre s →
  trail_queue_lit (DIMACS_to_lit (num_vars s) x) PROP_ASS s = Some s1 →
  built V N (pre ++ [[x]])
    (with_cnf_size (to_ulong (cnf_size s1 - 1)) (with_state PROPAGATE s1)).
Proof.
  intros HN B H.
  destruct (trail_queue_lit_parts _ _ _ _ H)
    as (s0 & [E0 L0] & Ht & -> & Hl & Hc & Hrec).
  pose proof (length_file_units pre) as Hu.
  assert (Hfu : file_units (pre ++ [[x]]) = file_units pre ++ [x]).
  { by rewrite file_units_app. }
  assert (Hfc : file_clauses (pre ++ [[x]]) = file_clauses pre).
  { rewrite file_clauses_app. change (file_clauses [[x]]) with (@nil (list Z)).
    by rewrite app_nil_r. }
  rewrite (built_num_vars _ _ _ _ B) in *.
  constructor; simpl; rewrite ?Hfu, ?Hfc, ?length_app; simpl.
  - eapply built_V_range, B.
  - rewrite E0. simpl. eapply built_num_vars, B.
  - rewrite E0. simpl. eapply built_level, B.
  - rewrite E0. simpl. eapply built_learned, B.
  - rewrite L0. eapply built_model, B.
  - rewrite length_insert. eapply built_sequence, B.
  - rewrite E0. simpl. eapply built_heap, B.
  - rewrite E0. simpl. rewrite (built_cnf_size _ _ _ _ B).
    rewrite to_ulong_small by (unfold ULONG_MAX in *; lia). lia.
  - eapply built_head, B.
  - rewrite (built_tail _ _ _ _ B). lia.
  - intros i y Hi. unfold trail_read. simpl.
    change (seq_at (pushed (DIMACS_to_lit V x) (trail s)) (Z.of_nat i) =
            Some (DIMACS_to_lit V y)).
    rewrite seq_at_pushed by done. rewrite (built_tail _ _ _ _ B).
    case_decide as Hit.
    + apply Nat2Z.inj in Hit. subst i.
      rewrite lookup_app_r, Nat.sub_diag in Hi by lia. by simplify_eq/=.
    + apply (built_units _ _ _ _ B).
      apply lookup_lt_Some in Hi as Hlt. rewrite length_app in Hlt. simpl in Hlt.
      rewrite lookup_app_l in Hi by lia. done.
  - pose proof (built_tail _ _ _ _ B). pose proof (built_sequence _ _ _ _ B). lia.
  - intros literals y [Hin|Hin]%elem_of_app Hy.
    + by eapply (built_valid _ _ _ _ B).
    + apply list_elem_of_singleton in Hin. subst literals.
      apply list_elem_of_singleton in Hy. subst y.
      pose proof (built_model _ _ _ _ B). lia.
  - rewrite decide_False; [done|]. by destruct (file_units pre).
  - intros l Hlr.
    destruct (built_records _ _ _ _ B l Hlr) as (a & Ha & Hn & Hw & Hs & Hty).
    specialize (Hrec l a Ha).
    eexists. split; [exact Hrec|].
    pose proof (built_model _ _ _ _ B) as Hm.
    assert (HV : 0 < V <= 2 ^ 62) by (eapply built_V_range, B).
    assert (Hq : queued_units V (pre ++ [[x]]) = queued_units V pre ++ [DIMACS_to_lit V x]).
    { unfold queued_units. by rewrite Hfu, fmap_app. }
    assert (Hiff : (l ∈ queued_units V (pre ++ [[x]]) ∨
                    get_comp_lit V l ∈ queued_units V (pre ++ [[x]])) ↔
                   ((l ∈ queued_units V pre ∨ get_comp_lit V l ∈ queued_units V pre) ∨
                    (l = DIMACS_to_lit V x ∨ l = get_comp_lit V (DIMACS_to_lit V x)))).
    { rewrite Hq, !elem_of_app, !list_elem_of_singleton.
      assert (get_comp_lit V l = DIMACS_to_lit V x ↔
              l = get_comp_lit V (DIMACS_to_lit V x)) as ->.
      { split; intros E.
        - rewrite <- E. symmetry. apply get_comp_lit_invol; [done|lia].
        - rewrite E. apply get_comp_lit_invol; [done|lia]. }
      tauto. }
    destruct (decide (l = DIMACS_to_lit V x ∨ l = get_comp_lit V (DIMACS_to_lit V x)))
      as [Hlx|Hlx].
    + rewrite decide_True by (apply Hiff; by right). simpl. done.
    + split; [done|]. split; [done|]. split; [|done].
      rewrite Hs. apply decide_ext. rewrite Hiff. tauto.
Qed.

(** The step of a longer clause keeps [built]. *)
Lemma built_clause V N pre literals s c s1 l0 l1 s2 s3 :
  (2 ≤ length literals)%nat →
  built V N pre s →
  read_lits literals 0 (clause_init (Z.of_nat (length literals))) s = Some (c, s1) →
  lit_at c 0 = Some l0 → lit_at c 1 = Some l1 →
  push_watch (get_comp_lit (num_vars s1) l0) (length (heap s1))
    (with_heap (heap s1 ++ [c]) s1) = Some s2 →
  push_watch (get_comp_lit (num_vars s2) l1) (length (heap s1)) s2 = Some s3 →
  built V N (pre ++ [literals]) s3.
Proof.
  intros Hlen B Hr H0 H1 Hp0 Hp1.
  destruct literals as [|x [|y literals]]; simpl in Hlen; try lia. clear Hlen.
  set (line := x :: y :: literals) in *.
  pose proof (read_lits_model_write _ _ _ _ _ _ Hr) as [E1 L1].
  pose proof (upd_ass_model_write _ _ _ _ Hp0) as [E2 L2].
  pose proof (upd_ass_model_write _ _ _ _ Hp1) as [E3 L3].
  destruct (read_lits_lits line [] _ _ _ _ Hr) as [Hc Hw].
  { unfold clause_init. simpl. by rewrite Nat2Z.id. }
  rewrite app_nil_l in Hc. unfold clause_init in Hw. simpl in Hw.
  rewrite (built_num_vars _ _ _ _ B) in Hc.
  assert (Hst : c = stored V line).
  { destruct c. unfold stored. simpl in *. by subst. }
  assert (Hfu : file_units (pre ++ [line]) = file_units pre).
  { rewrite file_units_app. change (file_units [line]) with (@nil Z).
    by rewrite app_nil_r. }
  assert (Hfc : file_clauses (pre ++ [line]) = file_clauses pre ++ [line]).
  { rewrite file_clauses_app. done. }
  assert (Hv1 : num_vars s1 = V) by (rewrite E1; simpl; eapply built_num_vars, B).
  assert (Hv2 : num_vars s2 = V) by (rewrite E2; simpl; exact Hv1).
  assert (Hh1 : heap s1 = stored V <$> file_clauses pre).
  { rewrite E1. simpl. eapply built_heap, B. }
  rewrite Hv1 in Hp0. rewrite Hv2 in Hp1.
  constructor; rewrite ?Hfu, ?Hfc.
  - eapply built_V_range, B.
  - rewrite E3. simpl. exact Hv2.
  - rewrite E3, E2, E1. simpl. eapply built_level, B.
  - rewrite E3, E2, E1. simpl. eapply built_learned, B.
  - rewrite L3, L2. simpl. rewrite L1. eapply built_model, B.
  - rewrite E3, E2, E1. simpl. eapply built_sequence, B.
  - rewrite E3, E2. simpl. rewrite Hh1, fmap_app, Hst. done.
  - rewrite E3, E2, E1. simpl. eapply built_cnf_size, B.
  - rewrite E3, E2, E1. simpl. eapply built_head, B.
  - rewrite E3, E2, E1. simpl. eapply built_tail, B.
  - intros i u Hi. unfold trail_read. rewrite E3, E2, E1. simpl.
    by apply (built_units _ _ _ _ B).
  - eapply built_room, B.
  - intros literals' u [Hin|Hin]%elem_of_app Hu.
    + by eapply (built_valid _ _ _ _ B).
    + apply list_elem_of_singleton in Hin. subst literals'.
      pose proof (read_lits_range _ _ _ _ _ _ u Hr Hu) as Hrange.
      rewrite (built_num_vars _ _ _ _ B) in Hrange.
      pose proof (built_model _ _ _ _ B). lia.
  - rewrite E3, E2, E1. simpl. eapply built_state, B.
  - intros l Hlr.
    destruct (built_records _ _ _ _ B l Hlr) as (a & Ha & Hn & Hwl & Hs & Hty).
    destruct (read_lits_get _ _ _ _ _ _ l a Hr Ha) as (a1 & Ha1 & Hf1 & Hn1 & Hr1).
    assert (Ha1' : get_ass (with_heap (heap s1 ++ [c]) s1) l = Some a1) by exact Ha1.
    pose proof (push_watch_get _ _ _ _ l _ Hp0 Ha1') as Ha2.
    pose proof (push_watch_get _ _ _ _ l _ Hp1 Ha2) as Ha3.
    eexists. split; [exact Ha3|].
    rewrite file_occurrences_snoc, file_watchers_snoc.
    assert (Hl0 : l0 = DIMACS_to_lit V x ∧ l1 = DIMACS_to_lit V y).
    { rewrite Hst in H0, H1. unfold lit_at in H0, H1. simpl in H0, H1.
      by simplify_eq. }
    destruct Hl0 as [-> ->].
    assert (Hp : length (heap s1) = length (file_clauses pre)).
    { by rewrite Hh1, length_fmap. }
    rewrite Hp in *.
    assert (Hq : queued_units V (pre ++ [line]) = queued_units V pre).
    { unfold queued_units. by rewrite Hfu. }
    rewrite Hq.
    assert (Hs1 : ass_status a1 = ass_status a ∧ ass_type a1 = ass_type a).
    { by rewrite Hf1. }
    destruct Hs1 as [Hs1 Ht1].
    split; [|split; [|split]].
    3:{ rewrite <- Hs, <- Hs1. by repeat case_decide. }
    3:{ intros Hpend. rewrite <- Hty, <- Ht1.
        - by repeat case_decide.
        - rewrite <- Hs1. revert Hpend. by repeat case_decide. }
    + assert (num_active a1 = to_ulong (num_active a1)) as E.
      { symmetry. apply to_ulong_small. apply Hr1. rewrite Hn. apply to_ulong_range. }
      repeat case_decide; simpl; rewrite E, Hn1, Hn, to_ulong_add_l,
        (built_num_vars _ _ _ _ B); f_equal; lia.
    + assert (Hd1 : data (watched_lits a1) = data (watched_lits a)) by (by rewrite Hf1).
      unfold line, watched_by.
      repeat case_decide; simpl; rewrite ?data_mutable_push, Hd1, Hwl, !fmap_app; simpl;
        rewrite ?app_nil_r, <- ?app_assoc; done.
Qed.

Lemma init_model_lookup raw n (i : nat) :
  (i < n)%nat →
  init_model raw n !! i =
    Some (mk_ass AVAILABLE (raw_truth_value (raw i)) (raw_ass_type (raw i))
            (raw_dec_level (raw i)) 0 mutable_init).
Proof.
  intros Hi. unfold init_model. change map with (@fmap list _).
  rewrite list_lookup_fmap, lookup_seq_lt by done. done.
Qed.

(** What [CDCL_init] returns to its caller with: the file is not one of
    those it reports on, and the whole of it is built. *)
Lemma CDCL_init_built raw V input s :
  0 <= V → Z.of_nat (length input) <= ULONG_MAX →
  CDCL_init raw V input = Some (Running s) →
  0 < V <= 2 ^ 61 + 256 ∧ input ≠ [] ∧ ([] ∉ input) ∧
  built V (Z.of_nat (length input)) input s.
Proof.
  intros HV HN H. unfold CDCL_init in H.
  case_decide as H61; [done|]. case_decide as Hc; [done|].
  case_decide as H0; [done|].
  set (s0 := mk_solver _ _ _ _ _ _ _ _ _ _ _ _) in *.
  destruct (init_clauses input s0) as [[s1| |]|] eqn:E; simpl in H; [|done..].
  injection H as <-.
  assert (Hn : to_ulong (V * 2) = 2 * V).
  { unfold to_ulong. rewrite Z.mod_small; lia. }
  split; [lia|]. split.
  { intros ->. by apply Hc. }
  destruct (init_clauses_induction input (built V (Z.of_nat (length input))))
    with (rest := input) (pre := @nil (list Z)) (s := s0) (s' := s1) as [B Hne];
    [| | |.. ]; try done.
  - intros pre x rest s s2 Hin B Hq. eapply built_unit; [|done|done].
    split; [|exact HN]. rewrite <- Hin, length_app. simpl. lia.
  - intros pre literals rest s c s2 l0 l1 s3 s4 _ Hlen B. by eapply built_clause.
  - constructor; try done.
    + lia.
    + unfold s0, init_model. cbn [model]. rewrite length_map, length_seq, Hn. lia.
    + unfold s0. cbn [trail sequence]. rewrite length_replicate, Hn. lia.
    + unfold s0. cbn [cnf_size file_units]. simpl length. lia.
    + simpl length. lia.
    + intros literals x Hin. by apply elem_of_nil in Hin.
    + intros l Hl. unfold get_ass, s0. cbn [model]. rewrite decide_True by lia.
      rewrite init_model_lookup by (rewrite Hn; lia). eexists.
      split; [done|]. split; [done|]. split; [done|]. split; [|done].
      unfold queued_units. cbn [file_units mbind list_bind fmap list_fmap ass_status].
      destruct (decide _) as [[Hin|Hin]|]; [| |done]; by apply elem_of_nil in Hin.
  - split; [done|].
    destruct B. constructor; try done.
Qed.

(** The clause loop reports on an empty line only, and as UNSAT. *)
Lemma init_clauses_outcome rest : ∀ s o,
  init_clauses rest s = Some o →
  (∃ s', o = Running s') ∨ (∃ s', o = Exited UNSAT s' ∧ [] ∈ rest).
Proof.
  induction rest as [|literals rest IH]; intros s o H.
  - simpl in H. simplify_eq. eauto.
  - destruct literals as [|x [|y literals]].
    + simpl in H. simplify_eq. right. eexists. split; [done|]. by left.
    + simpl in H.
      destruct (trail_queue_lit _ _ s) as [s1|] eqn:E; simpl in H; [|done].
      apply IH in H as [?|(s' & ? & ?)]; [by left|]. right. exists s'.
      split; [done|]. by right.
    + cbn [init_clauses] in H.
      destruct (read_lits _ _ _ s) as [[c s1]|] eqn:E; simpl in H; [|done].
      destruct (lit_at c 0) as [l0|] eqn:E0; simpl in H; [|done].
      destruct (push_watch _ _ _) as [s2|] eqn:E2 in H; simpl in H; [|done].
      destruct (lit_at c 1) as [l1|] eqn:E1; simpl in H; [|done].
      destruct (push_watch _ _ s2) as [s3|] eqn:E3 in H; simpl in H; [|done].
      apply IH in H as [?|(s' & ? & ?)]; [by left|]. right. exists s'.
      split; [done|]. by right.
Qed.

(** X6: when [CDCL_init] returns, the clause store holds the clauses of the
    file that are not unit, in the order of the file, each with the width
    of its line and with its literals in the order of the line;
    [cnf.size] is their number; no clause is learned and the level
    is 0. *)
Theorem CDCL_init_store (raw : nat → raw_t) (V : Z) (input : list (list Z)) (s : solver) :
  0 <= V → Z.of_nat (length input) <= ULONG_MAX →
  CDCL_init raw V input = Some (Running s) →
  heap s = stored V <$> file_clauses input ∧
  cnf_size s = Z.of_nat (length (file_clauses input)) ∧
  learned_cnf s = mutable_init ∧
  cur_dec_level s = 0.
Proof.
  intros HV HN H. destruct (CDCL_init_built _ _ _ _ HV HN H) as (_ & _ & _ & B).
  split; [eapply built_heap, B|]. split; [|split; [eapply built_learned, B|eapply built_level, B]].
  rewrite (built_cnf_size _ _ _ _ B). pose proof (length_file input). lia.
Qed.

Lemma CDCL_init_store_witness :
  heap demo_learn_start = stored 3 <$> file_clauses [[-2; 3]] ∧
  cnf_size demo_learn_start = Z.of_nat (length (file_clauses [[-2; 3]])) ∧
  learned_cnf demo_learn_start = mutable_init ∧
  cur_dec_level demo_learn_start = 0.
Proof.
  apply (CDCL_init_store zeroed 3 [[-2; 3]]).
  - lia.
  - unfold ULONG_MAX. simpl. lia.
  - vm_compute. reflexivity.
Defined.

(** X7: when [CDCL_init] returns, the trail holds the literals of the unit
    clauses of the file, in the order of the file, from position 0 to the
    tail, and the head is at position 0; the state is PROPAGATE if the file
    has a unit clause and DECIDE if it has none. *)
Theorem CDCL_init_trail (raw : nat → raw_t) (V : Z) (input : list (list Z)) (s : solver) :
  0 <= V → Z.of_nat (length input) <= ULONG_MAX →
  CDCL_init raw V input = Some (Running s) →
  trail_head (trail s) = 0 ∧
  trail_tail (trail s) = Z.of_nat (length (file_units input)) ∧
  (∀ (i : nat) x, file_units input !! i = Some x →
                  trail_read s (Z.of_nat i) = Some (DIMACS_to_lit V x)) ∧
  state s = (if decide (file_units input = []) then DECIDE else PROPAGATE).
Proof.
  intros HV HN H. destruct (CDCL_init_built _ _ _ _ HV HN H) as (_ & _ & _ & B).
  split; [eapply built_head, B|]. split; [eapply built_tail, B|].
  split; [eapply built_units, B|eapply built_state, B].
Qed.

Lemma CDCL_init_trail_witness :
  trail_head (trail demo_units) = 0 ∧
  trail_tail (trail demo_units) = Z.of_nat (length (file_units [[1]; [2]])) ∧
  (∀ (i : nat) x, file_units [[1]; [2]] !! i = Some x →
                  trail_read demo_units (Z.of_nat i) = Some (DIMACS_to_lit 2 x)) ∧
  state demo_units = (if decide (file_units [[1]; [2]] = []) then DECIDE else PROPAGATE).
Proof.
  apply (CDCL_init_trail zeroed 2 [[1]; [2]]).
  - lia.
  - unfold ULONG_MAX. simpl. lia.
  - vm_compute. reflexivity.
Defined.

(** X8: when [CDCL_init] returns, the counter [num_active] of every literal
    of the table is the number of times the literal is written in the
    stored clauses, a literal written twice in a line counting twice, and
    the unit clauses not counting. *)
Theorem CDCL_init_num_active (raw : nat → raw_t) (V : Z) (input : list (list Z))
    (s : solver) (l : Z) :
  0 <= V → Z.of_nat (length input) <= ULONG_MAX →
  CDCL_init raw V input = Some (Running s) →
  0 <= l < 2 * V →
  active_of s l = Some (to_ulong (Z.of_nat (file_occurrences V l (file_clauses input)))).
Proof.
  intros HV HN H Hl. destruct (CDCL_init_built _ _ _ _ HV HN H) as (_ & _ & _ & B).
  destruct (built_records _ _ _ _ B l Hl) as (a & Ha & Hn & _).
  unfold active_of. rewrite Ha. simpl. by rewrite Hn.
Qed.

Lemma CDCL_init_num_active_witness :
  active_of demo_learn_start 4 =
    Some (to_ulong (Z.of_nat (file_occurrences 3 4 (file_clauses [[-2; 3]])))).
Proof.
  apply (CDCL_init_num_active zeroed 3 [[-2; 3]]).
  - lia.
  - unfold ULONG_MAX. simpl. lia.
  - vm_compute. reflexivity.
  - lia.
Defined.

(** X9: when [CDCL_init] returns, the watch list of every literal [l] of the
    table holds, in the order of the store and none of them NULL, the
    addresses of the stored clauses whose first or second literal is the
    complement of [l], a clause whose first two literals are both that
    complement being on the list twice. *)
Theorem CDCL_init_watch_lists (raw : nat → raw_t) (V : Z) (input : list (list Z))
    (s : solver) (l : Z) :
  0 <= V → Z.of_nat (length input) <= ULONG_MAX →
  CDCL_init raw V input = Some (Running s) →
  0 <= l < 2 * V →
  watch_list s l = Some (Some <$> file_watchers V l (file_clauses input)).
Proof.
  intros HV HN H Hl. destruct (CDCL_init_built _ _ _ _ HV HN H) as (_ & _ & _ & B).
  destruct (built_records _ _ _ _ B l Hl) as (a & Ha & _ & Hw & _).
  unfold watch_list. rewrite Ha. simpl. by rewrite Hw.
Qed.

Lemma CDCL_init_watch_lists_witness :
  watch_list demo_learn_start 1 =
    Some (Some <$> file_watchers 3 1 (file_clauses [[-2; 3]])).
Proof.
  apply (CDCL_init_watch_lists zeroed 3 [[-2; 3]]).
  - lia.
  - unfold ULONG_MAX. simpl. lia.
  - vm_compute. reflexivity.
  - lia.
Defined.

(** X10: [CDCL_init] returns to its caller only on a file that declares at
    least one variable and not more than [2 ^ 61 + 256], has at least one
    clause and no empty one, and whose literals all point into the table:
    on every other file it reports, stops in [error] or reads or writes
    outside the table. *)
Theorem CDCL_init_returns_on (raw : nat → raw_t) (V : Z) (input : list (list Z))
    (s : solver) :
  0 <= V → Z.of_nat (length input) <= ULONG_MAX →
  CDCL_init raw V input = Some (Running s) →
  0 < V <= 2 ^ 61 + 256 ∧ input ≠ [] ∧ ([] ∉ input) ∧
  ∀ literals x, literals ∈ input → x ∈ literals → 0 <= DIMACS_to_lit V x < 2 * V.
Proof.
  intros HV HN H. destruct (CDCL_init_built _ _ _ _ HV HN H) as (? & ? & ? & B).
  split; [done|]. split; [done|]. split; [done|]. eapply built_valid, B.
Qed.

Lemma CDCL_init_returns_on_witness :
  0 < 3 <= 2 ^ 61 + 256 ∧ [[-2; 3]] ≠ [] ∧ ([] ∉ [[-2; 3]]) ∧
  ∀ literals x, literals ∈ [[-2; 3]] → x ∈ literals → 0 <= DIMACS_to_lit 3 x < 2 * 3.
Proof.
  apply (CDCL_init_returns_on zeroed 3 [[-2; 3]] demo_learn_start).
  - lia.
  - unfold ULONG_MAX. simpl. lia.
  - vm_compute. reflexivity.
Defined.

(** X11: the trail has room for [2 * V] literals and [CDCL_init] queues
    every unit clause of the file without a look at the tail: on a file
    without an empty clause that has more than [2 * V] unit clauses, a
    repeated one counting each time, the behaviour of [CDCL_init] is not
    defined. *)
Theorem CDCL_init_trail_overflow (raw : nat → raw_t) (V : Z) (input : list (list Z)) :
  0 < V <= 2 ^ 61 + 256 → Z.of_nat (length input) <= ULONG_MAX →
  [] ∉ input →
  2 * V < Z.of_nat (length (file_units input)) →
  CDCL_init raw V input = None.
Proof.
  intros HV HN Hne Hu.
  destruct (CDCL_init raw V input) as [o|] eqn:H; [|done]. exfalso.
  destruct o as [s|r s|].
  - assert (HV0 : 0 <= V) by lia.
    destruct (CDCL_init_built _ _ _ _ HV0 HN H) as (_ & _ & _ & B).
    pose proof (built_room _ _ _ _ B). lia.
  - unfold CDCL_init in H. case_decide; [done|].
    case_decide as Hc; [|case_decide; [lia|]].
    + simpl in Hc. destruct input; [simpl in Hu; lia|done].
    + destruct (init_clauses input _) as [o|] eqn:E; simpl in H; [|done].
      apply init_clauses_outcome in E as [[s' ->]|(s' & -> & Hin)]; [done|].
      by apply Hne.
  - unfold CDCL_init in H. case_decide; [lia|].
    case_decide; [done|]. case_decide; [done|].
    destruct (init_clauses input _) as [o|] eqn:E; simpl in H; [|done].
    apply init_clauses_outcome in E as [[s' ->]|(s' & -> & Hin)]; done.
Qed.

Lemma CDCL_init_trail_overflow_witness :
  CDCL_init zeroed 1 [[1]; [1]; [1]] = None.
Proof.
  apply (CDCL_init_trail_overflow zeroed 1 [[1]; [1]; [1]]).
  - lia.
  - unfold ULONG_MAX. simpl. lia.
  - intros Hin. by repeat (apply elem_of_cons in Hin as [Hin|Hin]; [discriminate|]);
      apply elem_of_nil in Hin.
  - simpl. lia.
Defined.

(** X28: when [CDCL_init] returns, the record of a literal of the table is
    PENDING with the type PROP_ASS if the literal or its complement is the
    literal of a unit clause of the file, and AVAILABLE if neither is. *)
Theorem CDCL_init_statuses (raw : nat → raw_t) (V : Z) (input : list (list Z))
    (s : solver) (l : Z) :
  0 <= V → Z.of_nat (length input) <= ULONG_MAX →
  CDCL_init raw V input = Some (Running s) →
  0 <= l < 2 * V →
  ∃ a, get_ass s l = Some a ∧
       ass_status a =
         (if decide (l ∈ queued_units V input ∨ get_comp_lit V l ∈ queued_units V input)
          then PENDING else AVAILABLE) ∧
       (ass_status a = PENDING → ass_type a = PROP_ASS).
Proof.
  intros HV HN H Hl. destruct (CDCL_init_built _ _ _ _ HV HN H) as (_ & _ & _ & B).
  destruct (built_records _ _ _ _ B l Hl) as (a & Ha & _ & _ & Hs & Hty).
  exists a. done.
Qed.

Lemma CDCL_init_statuses_witness :
  ∃ a, get_ass demo_units 2 = Some a ∧
       ass_status a =
         (if decide (2 ∈ queued_units 2 [[1]; [2]] ∨
                     get_comp_lit 2 2 ∈ queued_units 2 [[1]; [2]])
          then PENDING else AVAILABLE) ∧
       (ass_status a = PENDING → ass_type a = PROP_ASS).
Proof.
  apply (CDCL_init_statuses zeroed 2 [[1]; [2]] demo_units 2).
  - lia.
  - unfold ULONG_MAX. simpl. lia.
  - vm_compute. reflexivity.
  - lia.
Defined.

(** *** The decision *)

(** The loop of [CDCL_decide] stops at the first variable whose record is
    AVAILABLE. *)
Lemma decide_loop_lowest n : ∀ w s s',
  decide_loop n w s = Some (PROPAGATE, s') →
  ∃ v a s1 s2 s3,
    w <= v < w + Z.of_nat n ∧
    get_ass s v = Some a ∧ ass_status a = AVAILABLE ∧
    (∀ u au, w <= u < v → get_ass s u = Some au → ass_status au ≠ AVAILABLE) ∧
    upd_ass (set_ass_type DEC_ASS) v s = Some s1 ∧
    upd_ass (set_ass_type DEC_ASS) (v + num_vars s1) s1 = Some s2 ∧
    trail_queue_lit v DEC_ASS s2 = Some s3 ∧
    s' = with_num_decisions (to_ulong (num_decisions s3 + 1))
           (with_cur_dec_level (to_ulong (cur_dec_level s3 + 1)) s3).
Proof.
  induction n as [|n IH]; simpl; intros w s s' H; [done|].
  destruct (get_ass s w) as [a|] eqn:Ha; simpl in H; [|done].
  case_decide as Hav.
  - destruct (upd_ass _ w s) as [s1|] eqn:H1; simpl in H; [|done].
    destruct (upd_ass _ _ s1) as [s2|] eqn:H2; simpl in H; [|done].
    destruct (trail_queue_lit w DEC_ASS s2) as [s3|] eqn:H3; simpl in H; [|done].
    injection H as <-. exists w, a, s1, s2, s3. split_and!; try done; lia.
  - apply IH in H as (v & a' & s1 & s2 & s3 & Hv & Ha' & Hav' & Hlow & ?).
    exists v, a', s1, s2, s3. split; [lia|]. split; [done|]. split; [done|].
    split; [|done]. intros u au Hu Hau.
    destruct (decide (u = w)) as [->|]; [congruence|]. apply (Hlow u au); [lia|done].
Qed.

(** X12: when [CDCL_decide] returns PROPAGATE it has decided the positive
    literal of the lowest variable whose record is AVAILABLE: that literal
    is written at the old tail of the trail, the tail moves one up and the
    head stays, the literal and its complement are PENDING with the type
    DEC_ASS, and the decision level and the count of decisions go up by
    one. *)
Theorem CDCL_decide_lowest_available (s s' : solver) :
  CDCL_decide s = Some (PROPAGATE, s') →
  ∃ v a b b',
    0 <= v < num_vars s ∧
    get_ass s v = Some a ∧ ass_status a = AVAILABLE ∧
    (∀ u au, 0 <= u < v → get_ass s u = Some au → ass_status au ≠ AVAILABLE) ∧
    trail_read s' (trail_tail (trail s)) = Some v ∧
    trail_tail (trail s') = trail_tail (trail s) + 1 ∧
    trail_head (trail s') = trail_head (trail s) ∧
    get_ass s' v = Some b ∧ ass_status b = PENDING ∧ ass_type b = DEC_ASS ∧
    get_ass s' (get_comp_lit (num_vars s) v) = Some b' ∧
    ass_status b' = PENDING ∧ ass_type b' = DEC_ASS ∧
    cur_dec_level s' = to_ulong (cur_dec_level s + 1) ∧
    num_decisions s' = to_ulong (num_decisions s + 1).
Proof.
  intros H. unfold CDCL_decide in H. case_decide; [done|].
  apply decide_loop_lowest in H
    as (v & a & s1 & s2 & s3 & Hv & Ha & Hav & Hlow & H1 & H2 & H3 & ->).
  destruct (upd_ass_model_write _ _ _ _ H1) as [E1 L1].
  destruct (upd_ass_model_write _ _ _ _ H2) as [E2 L2].
  destruct (trail_queue_lit_parts _ _ _ _ H3) as (s4 & [E4 L4] & Ht & -> & Hr & Hc & Hrec).
  assert (Hv2 : num_vars s2 = num_vars s) by (rewrite E2, E1; done).
  assert (Ht2 : trail s2 = trail s) by (rewrite E2, E1; done).
  rewrite Hv2 in *. rewrite Ht2 in *.
  destruct (get_ass_is_Some s2 v Hr) as [a2 Ha2].
  destruct (get_ass_is_Some s2 _ Hc) as [c2 Hc2].
  pose proof (Hrec _ _ Ha2) as Hb. rewrite decide_True in Hb by auto.
  pose proof (Hrec _ _ Hc2) as Hb'. rewrite decide_True in Hb' by auto.
  eexists v, a, _, _. split; [lia|]. split; [done|]. split; [done|].
  split; [intros u au Hu; apply Hlow; lia|].
  split.
  { unfold trail_read. simpl. rewrite seq_at_pushed by done. by rewrite decide_True. }
  split; [done|]. split; [done|].
  split; [exact Hb|]. split; [done|]. split; [done|].
  split; [exact Hb'|]. split; [done|]. split; [done|].
  split; simpl; rewrite E4, E2, E1; done.
Qed.

Lemma CDCL_decide_lowest_available_witness :
  ∃ v a b b',
    0 <= v < num_vars demo_learn_start ∧
    get_ass demo_learn_start v = Some a ∧ ass_status a = AVAILABLE ∧
    (∀ u au, 0 <= u < v → get_ass demo_learn_start u = Some au →
             ass_status au ≠ AVAILABLE) ∧
    trail_read demo_learn_decided (trail_tail (trail demo_learn_start)) = Some v ∧
    trail_tail (trail demo_learn_decided) = trail_tail (trail demo_learn_start) + 1 ∧
    trail_head (trail demo_learn_decided) = trail_head (trail demo_learn_start) ∧
    get_ass demo_learn_decided v = Some b ∧ ass_status b = PENDING ∧
    ass_type b = DEC_ASS ∧
    get_ass demo_learn_decided (get_comp_lit (num_vars demo_learn_start) v) = Some b' ∧
    ass_status b' = PENDING ∧ ass_type b' = DEC_ASS ∧
    cur_dec_level demo_learn_decided = to_ulong (cur_dec_level demo_learn_start + 1) ∧
    num_decisions demo_learn_decided = to_ulong (num_decisions demo_learn_start + 1).
Proof.
  apply (CDCL_decide_lowest_available demo_learn_start demo_learn_decided).
  vm_compute. reflexivity.
Defined.

Lemma decide_loop_SUCCESS n : ∀ w s s',
  decide_loop n w s = Some (SUCCESS, s') →
  s' = s ∧ ∀ u au, w <= u < w + Z.of_nat n → get_ass s u = Some au →
                   ass_status au ≠ AVAILABLE.
Proof.
  induction n as [|n IH]; simpl; intros w s s' H.
  - simplify_eq. split; [done|]. intros; lia.
  - destruct (get_ass s w) as [a|] eqn:Ha; simpl in H; [|done].
    case_decide as Hav; [by simplify_option_eq|].
    apply IH in H as [-> Hlow]. split; [done|]. intros u au Hu Hau.
    destruct (decide (u = w)) as [->|]; [congruence|]. apply (Hlow u au); [lia|done].
Qed.

Lemma decide_loop_state_of s t s' :
  CDCL_decide s = Some (t, s') → t = SUCCESS ∨ t = PROPAGATE.
Proof.
  unfold CDCL_decide. intros H. case_decide; [simplify_eq; by left|].
  by eapply decide_loop_state.
Qed.

(** X13: [CDCL_decide] returns SUCCESS or PROPAGATE and nothing else.  When
    it returns SUCCESS it has changed nothing, and either the head of the
    trail is at position [num_vars] or no record of a positive literal is
    AVAILABLE; the levels and the truth values are not looked at. *)
Theorem CDCL_decide_SUCCESS (s : solver) (t : state_t) (s' : solver) :
  CDCL_decide s = Some (t, s') →
  (t = SUCCESS ∨ t = PROPAGATE) ∧
  (t = SUCCESS →
   s' = s ∧
   (trail_head (trail s) = num_vars s ∨
    ∀ v a, 0 <= v < num_vars s → get_ass s v = Some a → ass_status a ≠ AVAILABLE)).
Proof.
  intros H. unfold CDCL_decide in H. case_decide as Hh.
  - simplify_eq. split; [by left|]. intros _. split; [done|by left].
  - split; [by eapply decide_loop_state|]. intros ->.
    apply decide_loop_SUCCESS in H as [-> Hlow]. split; [done|]. right.
    intros v a Hv. apply Hlow. lia.
Qed.

Lemma CDCL_decide_SUCCESS_witness :
  (SUCCESS = SUCCESS ∨ SUCCESS = PROPAGATE) ∧
  (SUCCESS = SUCCESS →
   demo_units_propagated = demo_units_propagated ∧
   (trail_head (trail demo_units_propagated) = num_vars demo_units_propagated ∨
    ∀ v a, 0 <= v < num_vars demo_units_propagated →
           get_ass demo_units_propagated v = Some a → ass_status a ≠ AVAILABLE)).
Proof.
  apply (CDCL_decide_SUCCESS demo_units_propagated SUCCESS demo_units_propagated).
  vm_compute. reflexivity.
Defined.

(** *** Invariants of the search, on the states of the driver *)

(** With no decision made the invariant does not depend on where the unit
    clauses end. *)
Lemma Inv_units n0 s : Inv false n0 [] s → Inv false (trail_tail (trail s)) [] s.
Proof.
  intros I. pose proof (inv_ht _ _ _ _ _ _ _ I) as Hht.
  constructor; try (by destruct I).
  - lia.
  - intros; lia.
Qed.

Lemma reaches_search_inv s0 s :
  started s0 → reaches s0 s →
  ∃ D, drives D s ∧ search_inv (trail_tail (trail s0)) D s.
Proof.
  intros H0 Hrun. revert s Hrun.
  apply (rtc_ind_r (λ s, ∃ D, drives D s ∧ search_inv (trail_tail (trail s0)) D s)).
  - exists []. split; [by apply drives_start|].
    destruct (started_Inv _ H0) as (n0 & I & R). apply Inv_units in I.
    unfold search_inv. destruct R as [[-> Ht]| ->]; [|done]. split; [done|].
    pose proof (inv_ht _ _ _ _ _ _ _ I). lia.
  - intros s1 s2 _ Hstep (D & HD & I).
    unfold driver_step in Hstep. unfold search_inv in I.
    destruct (state s1) eqn:Hst; [| | |done].
    + destruct (CDCL_decide s1) as [[t s']|] eqn:E; simpl in Hstep; [|done].
      assert (t = SUCCESS ∨ t = PROPAGATE) as [->| ->].
      { unfold CDCL_decide in E. case_decide; [simplify_eq; by left|].
        by eapply decide_loop_state. }
      { done. }
      injection Hstep as <-. destruct I as [I Hht].
      destruct (CDCL_decide_Inv _ _ _ _ I Hht E) as (v & Hv & I').
      exists (D ++ [v]). split; [by eapply drives_decide|exact I'].
    + destruct (CDCL_prop s1) as [[t s']|] eqn:E; simpl in Hstep; [|done].
      injection Hstep as <-. exists D. split; [by eapply drives_prop|].
      destruct (prop_loop_Inv _ _ _ _ _ _ I E) as [(-> & I' & Hht)|[-> I']].
      * unfold search_inv. simpl. split; [exact I'|exact Hht].
      * exact I'.
    + destruct (CDCL_repair_conflict s1) as [[s'| |]|] eqn:E; simpl in Hstep; try done.
      injection Hstep as <-. exists (removelast D).
      split; [by eapply drives_repair|]. exact (repair_Inv _ _ _ _ I E).
Qed.

(** The invariant of a state of the driver, with the flag read off the
    state. *)
Lemma reaches_Inv s0 s :
  started s0 → reaches s0 s →
  ∃ D, Inv (bool_decide (state s = CONFLICT)) (trail_tail (trail s0)) D s ∧
       (state s = DECIDE → trail_head (trail s) = trail_tail (trail s)).
Proof.
  intros H0 Hrun. destruct (reaches_search_inv _ _ H0 Hrun) as (D & _ & I).
  exists D. unfold search_inv in I. destruct (state s); simpl; try done.
  - by destruct I.
Qed.

Lemma get_ass_core s l c :
  cat (cores s) l = Some c →
  ∃ a, get_ass s l = Some a ∧ ass_status a = c_status c ∧ truth_value a = c_truth c ∧
       ass_type a = c_type c ∧ dec_level a = c_level c.
Proof.
  intros (a & Ha & <-)%cat_Some_get_ass. exists a. done.
Qed.

(** X14: in every state the driver reaches, the head and the tail of the
    trail are inside the sequence with the head not above the tail, they
    are equal in the state DECIDE and apart in the state CONFLICT, and
    every literal between position 0 and the tail is a literal of the
    table that is PENDING, and so is its complement: a literal that was
    queued once stays PENDING, assigned or not. *)
Theorem driver_trail_pending (s0 s : solver) :
  started s0 → reaches s0 s →
  0 <= trail_head (trail s) <= trail_tail (trail s) ∧
  trail_tail (trail s) <= Z.of_nat (length (sequence (trail s))) ∧
  (state s = DECIDE → trail_head (trail s) = trail_tail (trail s)) ∧
  (state s = CONFLICT → trail_head (trail s) < trail_tail (trail s)) ∧
  ∀ j, 0 <= j < trail_tail (trail s) →
    ∃ l a a',
      trail_read s j = Some l ∧ 0 <= l < 2 * num_vars s ∧
      get_ass s l = Some a ∧ ass_status a = PENDING ∧
      get_ass s (get_comp_lit (num_vars s) l) = Some a' ∧ ass_status a' = PENDING.
Proof.
  intros H0 Hrun. destruct (reaches_Inv _ _ H0 Hrun) as (D & I & Hdec).
  pose proof (inv_d_bound _ _ _ _ _ _ _ I) as (_ & Ht & _).
  pose proof (inv_seq _ _ _ _ _ _ _ I) as Hs.
  pose proof (inv_len _ _ _ _ _ _ _ I) as Hl.
  split; [eapply inv_ht, I|]. split; [lia|]. split; [done|]. split.
  { intros Hc. apply (inv_b _ _ _ _ _ _ _ I). by rewrite bool_decide_eq_true. }
  intros j Hj.
  destruct (inv_pending _ _ _ _ _ _ _ I j Hj) as (l & c & Hr & Hrange & Hc & Hp).
  destruct (inv_comp_status _ _ _ _ _ _ _ _ _ I Hc) as (c' & Hc' & Hst & _).
  destruct (get_ass_core _ _ _ Hc) as (a & Ha & Hsa & _).
  destruct (get_ass_core _ _ _ Hc') as (a' & Ha' & Hsa' & _).
  exists l, a, a'. split_and!; first [done | lia | congruence].
Qed.

(** X15: in every state the driver reaches, the record of a literal of the
    table and the record of its complement have the same status. *)
Theorem driver_status_of_complement (s0 s : solver) (l : Z) :
  started s0 → reaches s0 s →
  0 <= l < 2 * num_vars s →
  ∃ a a', get_ass s l = Some a ∧ get_ass s (get_comp_lit (num_vars s) l) = Some a' ∧
          ass_status a' = ass_status a.
Proof.
  intros H0 Hrun Hl. destruct (reaches_Inv _ _ H0 Hrun) as (D & I & _).
  pose proof (inv_len _ _ _ _ _ _ _ I) as Hlen.
  destruct (cat_is_Some (cores s) l) as [c Hc]; [lia|].
  destruct (inv_comp_status _ _ _ _ _ _ _ _ _ I Hc) as (c' & Hc' & Hst & _).
  destruct (get_ass_core _ _ _ Hc) as (a & Ha & Hsa & _).
  destruct (get_ass_core _ _ _ Hc') as (a' & Ha' & Hsa' & _).
  exists a, a'. split_and!; try done; congruence.
Qed.

(** X16: in every state the driver reaches, a literal that stands on the
    trail at or after the position where the unit clauses of the file end
    is not on the trail before that position, and neither is its
    complement: but for the unit clauses of the file, no variable is on the
    trail twice. *)
Theorem driver_trail_distinct (s0 s : solver) (i j li lj : Z) :
  started s0 → reaches s0 s →
  0 <= i < j → trail_tail (trail s0) <= j < trail_tail (trail s) →
  trail_read s i = Some li → trail_read s j = Some lj →
  li ≠ lj ∧ li ≠ get_comp_lit (num_vars s) lj.
Proof.
  intros H0 Hrun Hi Hj Hli Hlj. destruct (reaches_Inv _ _ H0 Hrun) as (D & I & _).
  by eapply (inv_distinct _ _ _ _ _ _ _ I i j).
Qed.

(** X17: in every state the driver reaches, the assigned literals of the
    trail, those below the head and at a conflict the one at the head, have
    levels between 0 and the current level, the same as their complements,
    and the levels do not go down along the trail. *)
Theorem driver_levels_monotone (s0 s : solver) (i j li lj : Z) :
  started s0 → reaches s0 s →
  0 <= i <= j → assigned_position s j →
  trail_read s i = Some li → trail_read s j = Some lj →
  ∃ ai ai' aj,
    get_ass s li = Some ai ∧ get_ass s (get_comp_lit (num_vars s) li) = Some ai' ∧
    get_ass s lj = Some aj ∧
    dec_level ai' = dec_level ai ∧
    0 <= dec_level ai <= dec_level aj ∧ dec_level aj <= cur_dec_level s.
Proof.
  intros H0 Hrun Hi [Hj0 Hj] Hli Hlj. destruct (reaches_Inv _ _ H0 Hrun) as (D & I & _).
  assert (Hup : j < assigned_upto (bool_decide (state s = CONFLICT)) (trail s)).
  { unfold assigned_upto. destruct Hj as [?|[Hc ->]]; [case_bool_decide; lia|].
    rewrite bool_decide_true by done. lia. }
  destruct (inv_level _ _ _ _ _ _ _ I i li) as (ci & ci' & Hci & Hci' & Heq & Hbi);
    [lia|done|].
  destruct (inv_level _ _ _ _ _ _ _ I j lj) as (cj & cj' & Hcj & _ & _ & Hbj);
    [lia|done|].
  pose proof (inv_mono _ _ _ _ _ _ _ I i j li lj ci cj Hi Hup Hli Hlj Hci Hcj) as Hm.
  destruct (get_ass_core _ _ _ Hci) as (ai & Hai & _ & _ & _ & Eli).
  destruct (get_ass_core _ _ _ Hci') as (ai' & Hai' & _ & _ & _ & Eli').
  destruct (get_ass_core _ _ _ Hcj) as (aj & Haj & _ & _ & _ & Elj).
  exists ai, ai', aj. split_and!; try done; lia.
Qed.

(** X18: in every state the driver reaches, the decision level is the
    number of the variables whose positive record is not AVAILABLE and has
    the type DEC_ASS, the decisions in force: there is a list without
    repetition of exactly these variables, as long as the level; at a
    conflict each of them is assigned true at a level of its own, from 1 to
    the decision level.  This is what keeps the index
    [dec_level - model[which_var].dec_level] of the learning loop inside
    the learned clause. *)
Theorem driver_level_counts_decisions (s0 s : solver) :
  started s0 → reaches s0 s →
  ∃ D : list Z,
    NoDup D ∧ Z.of_nat (length D) = cur_dec_level s ∧
    (∀ v, v ∈ D ↔
          0 <= v < num_vars s ∧
          ∃ a, get_ass s v = Some a ∧ ass_status a ≠ AVAILABLE ∧
               ass_type a = DEC_ASS) ∧
    (state s = CONFLICT →
     ∀ (k : nat) v, D !! k = Some v → decision_at s (Z.of_nat k + 1) v).
Proof.
  intros H0 Hrun. destruct (reaches_Inv _ _ H0 Hrun) as (D & I & _).
  pose proof (inv_len _ _ _ _ _ _ _ I) as Hlen.
  exists D. split; [eapply inv_nodup, I|].
  split; [symmetry; eapply inv_d, I|]. split.
  - intros v.
    assert (Hin : v ∈ D → 0 <= v < num_vars s).
    { intros [k Hk]%list_elem_of_lookup.
      by destruct (inv_pos _ _ _ _ _ _ _ I k v Hk) as [? _]. }
    assert (Hiff : 0 <= v < num_vars s →
              (v ∈ D ↔ ∃ a, get_ass s v = Some a ∧ ass_status a ≠ AVAILABLE ∧
                            ass_type a = DEC_ASS)).
    { intros Hv.
      destruct (cat_is_Some (cores s) v) as [c Hc]; [lia|].
      destruct (get_ass_core _ _ _ Hc) as (a & Ha & Hs & _ & Ht & _).
      rewrite <- (inv_dec _ _ _ _ _ _ _ I v c Hv Hc). split.
      + intros [? ?]. exists a. split_and!; congruence.
      + intros (a' & Ha' & ? & ?). simplify_eq. split; congruence. }
    split.
    + intros Hd. split; [by apply Hin|]. by apply Hiff; [apply Hin|].
    + intros [Hv Ha]. by apply Hiff.
  - intros Hc k v Hk. rewrite bool_decide_true in I by done.
    by eapply Inv_decision_at.
Qed.

(** *** The states of two files, for the theorems on the driver *)

Lemma driver_run_reaches n : ∀ s s',
  driver_run n s = Some (Running s') → reaches s s'.
Proof.
  induction n as [|n IH]; simpl; intros s s' H.
  - simplify_eq. apply rtc_refl.
  - destruct (driver_step s) as [[s1| |]|] eqn:E; simpl in H; try done.
    eapply rtc_l; [exact E|]. by apply IH.
Qed.

Lemma demo_learn_started : started demo_learn_start.
Proof.
  exists zeroed, 3, [[-2; 3]].
  split; [unfold ULONG_MAX; lia | vm_compute; reflexivity].
Qed.

Lemma demo_learn_reaches : reaches demo_learn_start demo_learn_conflict.
Proof. apply (driver_run_reaches 4). vm_compute. reflexivity. Qed.

Lemma driver_trail_pending_witness :
  0 <= trail_head (trail demo_learn_conflict) <= trail_tail (trail demo_learn_conflict) ∧
  trail_tail (trail demo_learn_conflict) <=
    Z.of_nat (length (sequence (trail demo_learn_conflict))) ∧
  (state demo_learn_conflict = DECIDE →
   trail_head (trail demo_learn_conflict) = trail_tail (trail demo_learn_conflict)) ∧
  (state demo_learn_conflict = CONFLICT →
   trail_head (trail demo_learn_conflict) < trail_tail (trail demo_learn_conflict)) ∧
  ∀ j, 0 <= j < trail_tail (trail demo_learn_conflict) →
    ∃ l a a',
      trail_read demo_learn_conflict j = Some l ∧
      0 <= l < 2 * num_vars demo_learn_conflict ∧
      get_ass demo_learn_conflict l = Some a ∧ ass_status a = PENDING ∧
      get_ass demo_learn_conflict (get_comp_lit (num_vars demo_learn_conflict) l) = Some a' ∧
      ass_status a' = PENDING.
Proof.
  exact (driver_trail_pending demo_learn_start demo_learn_conflict
           demo_learn_started demo_learn_reaches).
Defined.

Lemma driver_status_of_complement_witness :
  ∃ a a', get_ass demo_learn_conflict 4 = Some a ∧
          get_ass demo_learn_conflict (get_comp_lit (num_vars demo_learn_conflict) 4) = Some a' ∧
          ass_status a' = ass_status a.
Proof.
  apply (driver_status_of_complement demo_learn_start demo_learn_conflict 4
           demo_learn_started demo_learn_reaches).
  simpl. lia.
Defined.

Lemma driver_trail_distinct_witness :
  0 ≠ 1 ∧ 0 ≠ get_comp_lit (num_vars demo_learn_conflict) 1.
Proof.
  apply (driver_trail_distinct demo_learn_start demo_learn_conflict 0 1 0 1
           demo_learn_started demo_learn_reaches).
  - lia.
  - simpl. lia.
  - reflexivity.
  - reflexivity.
Defined.

Lemma driver_levels_monotone_witness :
  ∃ ai ai' aj,
    get_ass demo_learn_conflict 0 = Some ai ∧
    get_ass demo_learn_conflict (get_comp_lit (num_vars demo_learn_conflict) 0) = Some ai' ∧
    get_ass demo_learn_conflict 1 = Some aj ∧
    dec_level ai' = dec_level ai ∧
    0 <= dec_level ai <= dec_level aj ∧ dec_level aj <= cur_dec_level demo_learn_conflict.
Proof.
  apply (driver_levels_monotone demo_learn_start demo_learn_conflict 0 1 0 1
           demo_learn_started demo_learn_reaches).
  - lia.
  - split; [lia|]. right. split; reflexivity.
  - reflexivity.
  - reflexivity.
Defined.

Lemma driver_level_counts_decisions_witness :
  ∃ D : list Z,
    NoDup D ∧ Z.of_nat (length D) = cur_dec_level demo_learn_conflict ∧
    (∀ v, v ∈ D ↔
          0 <= v < num_vars demo_learn_conflict ∧
          ∃ a, get_ass demo_learn_conflict v = Some a ∧ ass_status a ≠ AVAILABLE ∧
               ass_type a = DEC_ASS) ∧
    (state demo_learn_conflict = CONFLICT →
     ∀ (k : nat) v, D !! k = Some v → decision_at demo_learn_conflict (Z.of_nat k + 1) v).
Proof.
  exact (driver_level_counts_decisions demo_learn_start demo_learn_conflict
           demo_learn_started demo_learn_reaches).
Defined.

(** *** What the propagator does to the trail *)

Lemma trail_grows_refl s : trail_grows s s.
Proof. unfold trail_grows. split_and!; [done|lia|lia|done]. Qed.

Lemma trail_grows_trans s1 s2 s3 :
  trail_grows s1 s2 → trail_grows s2 s3 → trail_grows s1 s3.
Proof.
  intros (L1 & H1 & T1 & E1) (L2 & H2 & T2 & E2).
  split; [congruence|]. split; [lia|]. split; [lia|].
  intros j Hj. rewrite E2 by lia. by apply E1.
Qed.

Lemma trail_grows_view s s' : trail s' = trail s → trail_grows s s'.
Proof.
  intros E. unfold trail_grows, trail_read. rewrite E. split_and!; [done|lia|lia|done].
Qed.

Lemma view_trail s s' : view s' = view s → trail s' = trail s.
Proof. by intros (_ & _ & ? & _)%view_eq. Qed.

Lemma qstep_grows s s' :
  qstep s s' →
  trail_grows s s' ∧ num_vars s' = num_vars s ∧ cur_dec_level s' = cur_dec_level s ∧
  trail_head (trail s') = trail_head (trail s).
Proof.
  intros [s1 s2 Hv|s1 lit a s2 Ha Hav Hq].
  - apply view_eq in Hv as (? & ? & E & _).
    split; [by apply trail_grows_view|]. by rewrite E.
  - apply trail_queue_lit_view in Hq as [Ht Hv].
    apply view_eq in Hv as (? & ? & Etr & _).
    split; [|by rewrite Etr].
    unfold trail_grows, trail_read. rewrite Etr. simpl.
    split; [by rewrite length_insert|]. split; [lia|]. split; [lia|].
    intros j Hj.
    change (seq_at (pushed lit (trail s1)) j = seq_at (trail s1) j).
    rewrite seq_at_pushed by done. by rewrite decide_False by lia.
Qed.

Lemma qsteps_grows s s' :
  rtc qstep s s' →
  trail_grows s s' ∧ num_vars s' = num_vars s ∧ cur_dec_level s' = cur_dec_level s ∧
  trail_head (trail s') = trail_head (trail s).
Proof.
  induction 1 as [s|s1 s2 s3 H12 _ (G & V & L & Hh)].
  - split; [apply trail_grows_refl|done].
  - apply qstep_grows in H12 as (G' & V' & L' & Hh').
    split; [by eapply trail_grows_trans|]. split_and!; congruence.
Qed.

(** One turn of the loop of the propagator. *)
Lemma prop_step_grows s r :
  prop_step s = Some r →
  let s' := match r with inl s' | inr s' => s' end in
  trail_grows s s' ∧ num_vars s' = num_vars s ∧ cur_dec_level s' = cur_dec_level s ∧
  match r with
  | inl _ => trail_head (trail s') = trail_head (trail s) + 1
  | inr _ => trail_head (trail s') = trail_head (trail s)
  end.
Proof.
  unfold prop_step, scan_head. intros H.
  destruct (trail_read s _) as [pr|] eqn:Hr; simpl in H; [|done].
  destruct (assign pr s) as [s1|] eqn:Ha; simpl in H; [|done].
  destruct (get_ass s1 pr) as [a|] eqn:Hg; simpl in H; [|done].
  destruct (clause_loop _ _ _ _ _ _ _ s1) as [sc|] eqn:Hl; simpl in H; [|done].
  apply assign_view, view_eq in Ha as (V1 & L1 & T1 & _).
  apply clause_loop_qsteps, qsteps_grows in Hl as (G2 & V2 & L2 & Hh2).
  assert (G1 : trail_grows s s1) by (by apply trail_grows_view).
  destruct sc as [visited nw s2|visited s2]; simpl in *.
  - unfold finish_head in H.
    destruct (upd_ass _ pr s2) as [s3|] eqn:Hu; simpl in H; [|done].
    injection H as <-. simpl.
    destruct (upd_ass_shape _ _ _ _ Hu) as (_ & V3 & L3 & T3 & _).
    split.
    { eapply trail_grows_trans; [exact G1|]. eapply trail_grows_trans; [exact G2|].
      unfold trail_grows, trail_read. simpl. rewrite T3.
      split_and!; [done|lia|lia|done]. }
    split; [congruence|]. split; [congruence|]. rewrite T3, Hh2, T1. done.
  - injection H as <-. simpl.
    split; [by eapply trail_grows_trans|]. split; [congruence|]. split; [congruence|].
    by rewrite Hh2, T1.
Qed.

(** X19: whatever the state [CDCL_prop] is called in, when it returns it
    has only added to the trail: the entries below the old tail are what
    they were, the tail has not moved down and the head has not moved back;
    the number of variables and the decision level are the same.  It
    returns DECIDE, with the head at the tail, or CONFLICT. *)
Theorem CDCL_prop_trail_grows (s : solver) (t : state_t) (s' : solver) :
  CDCL_prop s = Some (t, s') →
  trail_grows s s' ∧
  num_vars s' = num_vars s ∧ cur_dec_level s' = cur_dec_level s ∧
  ((t = DECIDE ∧ trail_head (trail s') = trail_tail (trail s')) ∨ t = CONFLICT).
Proof.
  unfold CDCL_prop. generalize (S (length (sequence (trail s)))). intros fuel.
  revert s. induction fuel as [|fuel IH]; simpl; intros s H.
  - case_decide; simplify_eq. split; [apply trail_grows_refl|]. split_and!; try done.
    by left.
  - case_decide as Hht.
    { simplify_eq. split; [apply trail_grows_refl|]. split_and!; try done. by left. }
    destruct (prop_step s) as [r|] eqn:Hs; simpl in H; [|done].
    apply prop_step_grows in Hs. destruct r as [s1|s1]; simpl in Hs.
    + destruct Hs as (G & V & L & _).
      destruct (IH _ H) as (G' & V' & L' & Hex).
      split; [by eapply trail_grows_trans|]. split_and!; [congruence|congruence|done].
    + simplify_eq. destruct Hs as (G & V & L & _). split_and!; try done. by right.
Qed.

Lemma CDCL_prop_trail_grows_witness :
  trail_grows demo_units demo_units_prop ∧
  num_vars demo_units_prop = num_vars demo_units ∧
  cur_dec_level demo_units_prop = cur_dec_level demo_units ∧
  ((DECIDE = DECIDE ∧
    trail_head (trail demo_units_prop) = trail_tail (trail demo_units_prop)) ∨
   DECIDE = CONFLICT).
Proof.
  apply (CDCL_prop_trail_grows demo_units DECIDE demo_units_prop).
  vm_compute. reflexivity.
Defined.

(** *** The flip of the last decision *)

Lemma backtrack_ends k s s1 :
  backtrack k s = Some s1 →
  trail_tail (trail s1) = trail_head (trail s1) ∧ cur_dec_level s1 = k.
Proof.
  unfold backtrack. intros H.
  destruct (if decide (trail_head (trail s) >= 0) then _ else _) as [s0|]; simpl in H; [|done].
  by injection H as <-.
Qed.

(** X20: at a conflict the driver reaches at a level of 1 or more,
    [CDCL_repair_conflict] returns, and it has flipped the last decision:
    the level is one less, the head of the trail is at the last entry and
    the tail just behind it, and that entry is the complement of the
    decision of the old level, PENDING with the type CON_ASS. *)
Theorem repair_flips_last_decision (s0 s : solver) :
  started s0 → reaches s0 s → state s = CONFLICT → 1 <= cur_dec_level s →
  ∃ v s' b,
    decision_at s (cur_dec_level s) v ∧
    CDCL_repair_conflict s = Some (Running s') ∧
    cur_dec_level s' = cur_dec_level s - 1 ∧
    trail_tail (trail s') = trail_head (trail s') + 1 ∧
    trail_read s' (trail_head (trail s')) = Some (get_comp_lit (num_vars s) v) ∧
    get_ass s' (get_comp_lit (num_vars s) v) = Some b ∧
    ass_status b = PENDING ∧ ass_type b = CON_ASS.
Proof.
  intros H0 Hrun Hst Hlevel.
  destruct (reaches_Inv _ _ H0 Hrun) as (D & I & _).
  rewrite bool_decide_true in I by done.
  pose proof (inv_d _ _ _ _ _ _ _ I) as HD.
  destruct D as [|v D _] using rev_ind; [simpl in HD; lia|].
  rewrite length_app in HD. simpl in HD.
  assert (Hv : decision_at s (cur_dec_level s) v).
  { replace (cur_dec_level s) with (Z.of_nat (length D) + 1) by lia.
    eapply Inv_decision_at; [exact I|]. by rewrite lookup_app_r, Nat.sub_diag. }
  set (sc := with_num_conflicts (to_ulong (num_conflicts s + 1)) s).
  assert (Ic : Inv true (trail_tail (trail s0)) (D ++ [v]) sc) by exact I.
  (* the block that learns changes nothing the flip depends on *)
  assert (∃ sl, (if decide (cur_dec_level sc ≠ 1) then learn sc else Some sc) = Some sl ∧
                view sl = view sc)
    as (sl & Hl & Hvl).
  { case_decide as Hd1; [|exists sc; done].
    destruct D as [|v1 D _] using rev_ind.
    { simpl in HD. change (cur_dec_level sc) with (cur_dec_level s) in Hd1. lia. }
    rewrite <- app_assoc in Ic. simpl in Ic.
    destruct (learn_run _ _ _ _ _ Ic) as (sl & Hl & Hvl & Hh & _).
    exists sl. done. }
  assert (Il : Inv true (trail_tail (trail s0)) (D ++ [v]) sl) by (by eapply Inv_view).
  destruct (backtrack_flip_Inv _ _ _ _ Il) as (s1 & s2 & Hb & Hr & Hnv & Hq & I2).
  apply view_eq in Hvl as (Vl & Ll & _ & _).
  change (num_vars sc) with (num_vars s) in Vl.
  change (cur_dec_level sc) with (cur_dec_level s) in Ll.
  rewrite Vl, Ll in *.
  destruct (backtrack_ends _ _ _ Hb) as [Hte _].
  destruct (trail_queue_lit_parts _ _ _ _ Hq) as (s3 & [E3 L3] & Ht & E2 & Hrl & Hrc & Hrec).
  rewrite Hnv in *.
  destruct (get_ass_is_Some s1 _ Hrl) as [a1 Ha1].
  pose proof (Hrec _ _ Ha1) as Hb1. rewrite decide_True in Hb1 by auto.
  exists v, (with_heap (take (length (heap s)) (heap s2)) s2). eexists.
  split; [done|]. split.
  { unfold CDCL_repair_conflict. fold sc.
    change (cur_dec_level sc) with (cur_dec_level s) in Hl |- *.
    rewrite decide_False by lia. simpl. rewrite Hl. simpl. rewrite Ll, Hb. simpl.
    rewrite Hr. simpl. rewrite Hnv, Hq. done. }
  split.
  { simpl. rewrite (inv_d _ _ _ _ _ _ _ I2). lia. }
  split; [subst s2; simpl; lia|]. split.
  { subst s2. unfold trail_read. simpl.
    change (seq_at (pushed (get_comp_lit (num_vars s) v) (trail s1)) (trail_head (trail s1)) =
            Some (get_comp_lit (num_vars s) v)).
    rewrite seq_at_pushed by done. by rewrite decide_True by lia. }
  split; [subst s2; exact Hb1|]. done.
Qed.

Lemma repair_flips_last_decision_witness :
  ∃ v s' b,
    decision_at demo_learn_conflict (cur_dec_level demo_learn_conflict) v ∧
    CDCL_repair_conflict demo_learn_conflict = Some (Running s') ∧
    cur_dec_level s' = cur_dec_level demo_learn_conflict - 1 ∧
    trail_tail (trail s') = trail_head (trail s') + 1 ∧
    trail_read s' (trail_head (trail s')) =
      Some (get_comp_lit (num_vars demo_learn_conflict) v) ∧
    get_ass s' (get_comp_lit (num_vars demo_learn_conflict) v) = Some b ∧
    ass_status b = PENDING ∧ ass_type b = CON_ASS.
Proof.
  apply (repair_flips_last_decision demo_learn_start demo_learn_conflict
           demo_learn_started demo_learn_reaches).
  - reflexivity.
  - simpl. lia.
Defined.

(** *** The clause store along the search *)

Lemma same_clauses_refl h : same_clauses h h.
Proof. unfold same_clauses. apply Forall_Forall2_diag, Forall_forall. done. Qed.

Lemma same_clauses_trans h1 h2 h3 :
  same_clauses h1 h2 → same_clauses h2 h3 → same_clauses h1 h3.
Proof.
  unfold same_clauses. revert h2 h3.
  induction h1 as [|c1 h1 IH]; intros h2 h3 H12 H23.
  - apply Forall2_nil_inv_l in H12 as ->. by apply Forall2_nil_inv_l in H23 as ->.
  - apply Forall2_cons_inv_l in H12 as (c2 & h2' & [W12 P12] & H12 & ->).
    apply Forall2_cons_inv_l in H23 as (c3 & h3' & [W23 P23] & H23 & ->).
    constructor; [|by eapply IH]. split; [congruence|]. by rewrite P23.
Qed.

Lemma keeps_clauses_refl s : keeps_clauses s s.
Proof. split; [apply same_clauses_refl|done]. Qed.

Lemma keeps_clauses_trans s1 s2 s3 :
  keeps_clauses s1 s2 → keeps_clauses s2 s3 → keeps_clauses s1 s3.
Proof.
  intros (H1 & C1 & V1) (H2 & C2 & V2).
  split; [by eapply same_clauses_trans|]. split; congruence.
Qed.

Lemma keeps_store_refl s : keeps_store s s.
Proof. split; [apply keeps_clauses_refl|done]. Qed.

Lemma keeps_store_trans s1 s2 s3 :
  keeps_store s1 s2 → keeps_store s2 s3 → keeps_store s1 s3.
Proof.
  intros [K1 L1] [K2 L2]. split; [by eapply keeps_clauses_trans|congruence].
Qed.

Lemma keeps_store_heap s s' :
  heap s' = heap s → cnf_size s' = cnf_size s → num_vars s' = num_vars s →
  learned_cnf s' = learned_cnf s → keeps_store s s'.
Proof.
  intros E ? ? ?. split; [|done]. split; [rewrite E; apply same_clauses_refl|done].
Qed.

Lemma model_write_keeps s s' : model_write s s' → keeps_store s s'.
Proof. intros [-> _]. by apply keeps_store_heap. Qed.

Lemma upd_ass_keeps f lit s s' : upd_ass f lit s = Some s' → keeps_store s s'.
Proof. intros H. by eapply model_write_keeps, upd_ass_model_write. Qed.

(** An entry put in the place of another and that one in its place. *)
Lemma insert_swap_head {A} (l : list A) j a y :
  l !! j = Some y → y :: <[j:=a]> l ≡ₚ a :: l.
Proof.
  revert j. induction l as [|b l IH]; intros [|j] H; simplify_eq/=.
  - apply perm_swap.
  - etrans; [apply perm_swap|]. etrans; [|apply perm_swap].
    apply perm_skip. by apply IH.
Qed.

Lemma insert_swap {A} (l : list A) : ∀ i j x y,
  l !! i = Some x → l !! j = Some y → <[j:=x]> (<[i:=y]> l) ≡ₚ l.
Proof.
  induction l as [|a l IH]; intros [|i] [|j] x y Hi Hj; simplify_eq/=; try done.
  - by apply insert_swap_head.
  - by apply insert_swap_head.
  - by rewrite IH.
Qed.

Lemma swap_lits_perm i j c c' :
  swap_lits i j c = Some c' → width c' = width c ∧ lits c' ≡ₚ lits c.
Proof.
  unfold swap_lits. intros H.
  destruct (lits c !! i) as [x|] eqn:Hi; simpl in H; [|done].
  destruct (lits c !! j) as [y|] eqn:Hj; simpl in H; [|done].
  injection H as <-. simpl. split; [done|]. by apply insert_swap.
Qed.

Lemma upd_clause_keeps p c c' s s' :
  heap s !! p = Some c → width c' = width c ∧ lits c' ≡ₚ lits c →
  upd_clause p c' s = Some s' → keeps_store s s'.
Proof.
  unfold upd_clause. intros Hp Hc H. case_decide; [|done]. injection H as <-.
  split; [|done]. split; [|done]. simpl. unfold same_clauses.
  rewrite <- (list_insert_id (heap s) p c Hp) at 1.
  apply Forall2_insert; [apply same_clauses_refl|done].
Qed.

Lemma decrement_active_keeps c todo : ∀ s s',
  decrement_active c todo s = Some s' → keeps_store s s'.
Proof.
  induction todo as [|i todo IH]; simpl; intros s s' H.
  - simplify_eq. apply keeps_store_refl.
  - destruct (lit_at c i) as [lit|]; simpl in H; [|done].
    destruct (upd_ass _ lit s) as [s1|] eqn:E; simpl in H; [|done].
    eapply keeps_store_trans; [by eapply upd_ass_keeps|by eapply IH].
Qed.

Lemma extinguish_keeps pr i c s s' : extinguish pr i c s = Some s' → keeps_store s s'.
Proof.
  unfold extinguish, null_data. intros H.
  destruct (get_ass s pr) as [a|]; simpl in H; [|done].
  case_decide; [|done].
  destruct (upd_ass _ pr s) as [s1|] eqn:E; simpl in H; [|done].
  eapply keeps_store_trans; [by eapply upd_ass_keeps|by eapply decrement_active_keeps].
Qed.

Lemma search_loop_keeps pr i p n : ∀ k s r,
  search_loop pr i p n k s = Some r → keeps_store s (after_search r).
Proof.
  induction n as [|n IH]; simpl; intros k s r H.
  - simplify_eq. apply keeps_store_refl.
  - destruct (heap s !! p) as [c|] eqn:Hp; simpl in H; [|done].
    destruct (lit_at c k) as [lit|]; simpl in H; [|done].
    destruct (get_ass s lit) as [a|]; simpl in H; [|done].
    case_decide.
    { destruct (extinguish pr i c s) as [s1|] eqn:E; simplify_eq/=.
      by eapply extinguish_keeps. }
    case_decide; [|by eapply IH].
    destruct (swap_lits 0 k c) as [c'|] eqn:Hs; simpl in H; [|done].
    destruct (upd_clause p c' s) as [s1|] eqn:Hu; simpl in H; [|done].
    destruct (lit_at c' 0) as [l0|]; simpl in H; [|done].
    destruct (push_watch _ p s1) as [s2|] eqn:Hw; simplify_eq/=.
    eapply keeps_store_trans; [|by eapply upd_ass_keeps].
    eapply upd_clause_keeps; [done| |done]. by eapply swap_lits_perm.
Qed.

Lemma trail_queue_lit_keeps lit ty s s' :
  trail_queue_lit lit ty s = Some s' → keeps_store s s'.
Proof.
  intros (s1 & [E1 _] & _ & -> & _)%trail_queue_lit_parts.
  apply keeps_store_heap; simpl; rewrite E1; done.
Qed.

Lemma clause_body_keeps pr nc i p nw s r :
  clause_body pr nc i p nw s = Some r → keeps_store s (flow_solver r).
Proof.
  unfold clause_body. intros H.
  destruct (heap s !! p) as [c|] eqn:Hp; simpl in H; [|done].
  destruct (lit_at c 0) as [lit0|]; simpl in H; [|done].
  destruct (if decide (lit0 ≠ pr) then _ else _) as [s1|] eqn:Hn; simpl in H; [|done].
  assert (K1 : keeps_store s s1).
  { case_decide; [|simplify_eq; apply keeps_store_refl].
    destruct (swap_lits 0 1 c) as [c'|] eqn:Hs; simpl in Hn; [|done].
    eapply upd_clause_keeps; [done| |done]. by eapply swap_lits_perm. }
  eapply keeps_store_trans; [exact K1|]. clear Hn K1 Hp c lit0.
  destruct (heap s1 !! p) as [c|]; simpl in H; [|done].
  destruct (lit_at c 1) as [lit1|]; simpl in H; [|done].
  destruct (get_ass s1 lit1) as [a1|]; simpl in H; [|done].
  case_decide.
  { destruct (extinguish pr i c s1) as [s2|] eqn:He; simplify_eq/=.
    by eapply extinguish_keeps. }
  case_decide; [simplify_eq/=; apply keeps_store_refl|].
  destruct (search_loop _ _ _ _ _ _) as [r0|] eqn:Hs; simpl in H; [|done].
  apply search_loop_keeps in Hs.
  eapply keeps_store_trans; [exact Hs|]. clear Hs.
  destruct (clause_is_unit r0 && negb (clause_is_extinct r0));
    [|simplify_eq/=; apply keeps_store_refl].
  set (s2 := with_num_unit_props _ _) in *.
  eapply keeps_store_trans with s2; [by apply keeps_store_heap|].
  destruct (heap _ !! p) as [c2|]; simpl in H; [|done].
  destruct (lit_at c2 1) as [lit2|]; simpl in H; [|done].
  destruct (get_ass s2 lit2) as [a2|] eqn:Ha2; simpl in H; [|done].
  case_decide.
  { destruct (trail_queue_lit lit2 PROP_ASS s2) as [s3|] eqn:Hq; simplify_eq/=.
    by eapply trail_queue_lit_keeps. }
  case_decide; [|simplify_eq/=; apply keeps_store_refl].
  destruct (upd_ass _ pr s2) as [s3|] eqn:Hu; simplify_eq/=.
  by eapply upd_ass_keeps.
Qed.

Lemma clause_loop_keeps pr sz nc n : ∀ i visited nw s r,
  clause_loop pr sz nc n i visited nw s = Some r → keeps_store s (scanned_solver r).
Proof.
  induction n as [|n IH]; simpl; intros i visited nw s r H;
    [simplify_eq/=; apply keeps_store_refl|].
  destruct (data_at s pr sz i) as [[p|]|]; simpl in H; [|by eauto|done].
  destruct (clause_body pr nc i p nw s) as [fl|] eqn:Hb; simpl in H; [|done].
  apply clause_body_keeps in Hb.
  destruct fl; simpl in Hb; simplify_eq/=; [|done..].
  eapply keeps_store_trans; [done|eauto].
Qed.

Lemma assign_keeps lit s s' : assign lit s = Some s' → keeps_store s s'.
Proof.
  unfold assign. intros H.
  destruct (upd_ass _ lit s) as [s1|] eqn:E1; simpl in H; [|done].
  destruct (upd_ass _ lit s1) as [s2|] eqn:E2; simpl in H; [|done].
  destruct (upd_ass _ _ s2) as [s3|] eqn:E3; simpl in H; [|done].
  eauto 10 using keeps_store_trans, upd_ass_keeps.
Qed.

Lemma prop_step_keeps s r :
  prop_step s = Some r → keeps_store s (match r with inl s' | inr s' => s' end).
Proof.
  unfold prop_step, scan_head. intros H.
  destruct (trail_read s _) as [pr|] eqn:Hr; simpl in H; [|done].
  destruct (assign pr s) as [s1|] eqn:Ha; simpl in H; [|done].
  destruct (get_ass s1 pr) as [a|] eqn:Hg; simpl in H; [|done].
  destruct (clause_loop _ _ _ _ _ _ _ s1) as [sc|] eqn:Hl; simpl in H; [|done].
  apply assign_keeps in Ha. apply clause_loop_keeps in Hl.
  destruct sc as [visited nw s2|visited s2]; simpl in *.
  - unfold finish_head in H.
    destruct (upd_ass _ pr s2) as [s3|] eqn:Hu; simpl in H; [|done].
    injection H as <-. simpl. apply upd_ass_keeps in Hu.
    eapply keeps_store_trans; [exact Ha|]. eapply keeps_store_trans; [exact Hl|].
    eapply keeps_store_trans; [exact Hu|]. by apply keeps_store_heap.
  - injection H as <-. by eapply keeps_store_trans.
Qed.

Lemma prop_loop_keeps fuel : ∀ s t s',
  prop_loop fuel s = Some (t, s') → keeps_store s s'.
Proof.
  induction fuel as [|fuel IH]; simpl; intros s t s' H.
  - case_decide; simplify_eq. apply keeps_store_refl.
  - case_decide; [simplify_eq; apply keeps_store_refl|].
    destruct (prop_step s) as [r|] eqn:Hs; simpl in H; [|done].
    apply prop_step_keeps in Hs. destruct r as [s1|s1].
    + eapply keeps_store_trans; [exact Hs|by eapply IH].
    + by simplify_eq.
Qed.

(** X21: whatever the state [CDCL_prop] is called in, when it returns the
    store holds as many clauses as before, each at its address with its
    width and with the literals it had, in the same or in another order;
    [cnf.size], [num_vars] and the store of the learned clauses are the
    same. *)
Theorem CDCL_prop_keeps_clauses (s : solver) (t : state_t) (s' : solver) :
  CDCL_prop s = Some (t, s') →
  same_clauses (heap s) (heap s') ∧ cnf_size s' = cnf_size s ∧
  num_vars s' = num_vars s ∧ learned_cnf s' = learned_cnf s.
Proof.
  intros H. destruct (prop_loop_keeps _ _ _ _ H) as [(? & ? & ?) ?]. done.
Qed.

Lemma CDCL_prop_keeps_clauses_witness :
  same_clauses (heap demo_learn_decided) (heap demo_learn_propagated) ∧
  cnf_size demo_learn_propagated = cnf_size demo_learn_decided ∧
  num_vars demo_learn_propagated = num_vars demo_learn_decided ∧
  learned_cnf demo_learn_propagated = learned_cnf demo_learn_decided.
Proof.
  apply (CDCL_prop_keeps_clauses demo_learn_decided DECIDE demo_learn_propagated).
  vm_compute. reflexivity.
Defined.

Lemma unassign_static lit s s' :
  unassign lit s = Some s' → model_write s s'.
Proof.
  unfold unassign. intros H.
  destruct (upd_ass _ lit s) as [s1|] eqn:E1; simpl in H; [|done].
  eauto using model_write_trans, upd_ass_model_write.
Qed.

Lemma backtrack_loop_keeps k n : ∀ s s',
  backtrack_loop k n s = Some s' → keeps_store s s'.
Proof.
  induction n as [|h IH]; simpl; intros s s' H.
  - simplify_eq. by apply keeps_store_heap.
  - destruct (trail_read s _) as [lit|]; simpl in H; [|done].
    destruct (get_ass s lit) as [a|]; simpl in H; [|done].
    case_decide.
    + destruct (unassign lit s) as [s1|] eqn:E; simpl in H; [|done].
      eapply keeps_store_trans; [|by eapply IH].
      by eapply model_write_keeps, unassign_static.
    + simplify_eq. by apply keeps_store_heap.
Qed.

Lemma backtrack_keeps k s s' : backtrack k s = Some s' → keeps_store s s'.
Proof.
  unfold backtrack. intros H.
  destruct (if decide (trail_head (trail s) >= 0) then _ else _) as [s0|] eqn:E;
    simpl in H; [|done].
  injection H as <-.
  eapply (keeps_store_trans _ s0); [|by apply keeps_store_heap].
  destruct (decide (trail_head (trail s) >= 0)).
  - exact (backtrack_loop_keeps _ _ _ _ E).
  - injection E as <-. apply keeps_store_refl.
Qed.

(** The block that learns puts one cell on top of the heap and its address
    on the store of the learned clauses. *)
Lemma learn_heap s s' :
  learn s = Some s' →
  ∃ c, heap s' = heap s ++ [c] ∧ cnf_size s' = cnf_size s ∧ num_vars s' = num_vars s ∧
       data (learned_cnf s') = data (learned_cnf s) ++ [Some (length (heap s))].
Proof.
  unfold learn. intros H.
  destruct (learn_loop _ _ _ _) as [c|]; simpl in H; [|done].
  destruct (lit_at c 0) as [l0|]; simpl in H; [|done].
  destruct (push_watch _ _ _) as [s1|] eqn:E1 in H; simpl in H; [|done].
  destruct (lit_at c 1) as [l1|]; simpl in H; [|done].
  destruct (push_watch _ _ s1) as [s2|] eqn:E2 in H; simpl in H; [|done].
  injection H as <-. exists c. simpl.
  destruct (upd_ass_model_write _ _ _ _ E1) as [W1 _].
  destruct (upd_ass_model_write _ _ _ _ E2) as [W2 _].
  rewrite data_mutable_push. rewrite W2, W1. done.
Qed.

(** The repair leaves the store as it finds it, the cell of its local
    being gone when it returns, and puts at most one entry on the store of
    the learned clauses: the address of that cell. *)
Lemma CDCL_repair_conflict_store s s' :
  CDCL_repair_conflict s = Some (Running s') →
  heap s' = heap s ∧ cnf_size s' = cnf_size s ∧ num_vars s' = num_vars s ∧
  (data (learned_cnf s') = data (learned_cnf s) ∨
   data (learned_cnf s') = data (learned_cnf s) ++ [Some (length (heap s))]).
Proof.
  unfold CDCL_repair_conflict. intros H.
  set (sc := with_num_conflicts _ s) in *.
  case_decide; [done|].
  destruct (if decide (cur_dec_level sc ≠ 1) then _ else _) as [sl|] eqn:El;
    simpl in H; [|done].
  destruct (backtrack _ sl) as [s1|] eqn:Eb; simpl in H; [|done].
  destruct (trail_read s1 _) as [lit|]; simpl in H; [|done].
  destruct (trail_queue_lit _ _ s1) as [s2|] eqn:Eq; simpl in H; [|done].
  injection H as <-.
  destruct (backtrack_keeps _ _ _ Eb) as ((_ & C1 & V1) & L1).
  destruct (trail_queue_lit_keeps _ _ _ _ Eq) as ((_ & C2 & V2) & L2).
  apply backtrack_same_store in Eb as (Hb & _).
  apply trail_queue_lit_same_store in Eq as (Hq & _).
  assert (∃ k, heap sl = heap s ++ k ∧ cnf_size sl = cnf_size s ∧
               num_vars sl = num_vars s ∧
               (data (learned_cnf sl) = data (learned_cnf s) ∨
                data (learned_cnf sl) = data (learned_cnf s) ++ [Some (length (heap s))]))
    as (k & Hk & C0 & V0 & L0).
  { case_decide.
    - apply learn_heap in El as (c & ? & ? & ? & ?). exists [c]. split_and!; try done.
      by right.
    - simplify_eq. exists []. rewrite app_nil_r. split_and!; try done. by left. }
  simpl. rewrite Hq, Hb, Hk, take_app_length, L2, L1.
  split; [done|]. split; [congruence|]. split; [congruence|done].
Qed.

Lemma CDCL_decide_keeps s t s' : CDCL_decide s = Some (t, s') → keeps_store s s'.
Proof.
  intros H. destruct (decide_loop_state_of _ _ _ H) as [->| ->].
  - unfold CDCL_decide in H. case_decide; [simplify_eq; apply keeps_store_refl|].
    apply decide_loop_SUCCESS in H as [-> _]. apply keeps_store_refl.
  - unfold CDCL_decide in H. case_decide; [done|].
    apply decide_loop_lowest in H
      as (v & a & s1 & s2 & s3 & _ & _ & _ & _ & H1 & H2 & H3 & ->).
    eapply keeps_store_trans; [by eapply upd_ass_keeps|].
    eapply keeps_store_trans; [by eapply upd_ass_keeps|].
    eapply keeps_store_trans; [by eapply trail_queue_lit_keeps|].
    by apply keeps_store_heap.
Qed.

(** A transition of the driver keeps the clauses, and the entries it adds
    to the store of the learned clauses are the address just above the
    store. *)
Lemma driver_step_store s s' :
  driver_step s = Some (Running s') →
  keeps_clauses s s' ∧
  (data (learned_cnf s') = data (learned_cnf s) ∨
   data (learned_cnf s') = data (learned_cnf s) ++ [Some (length (heap s))]).
Proof.
  unfold driver_step. intros H. destruct (state s).
  - destruct (CDCL_decide s) as [[t s1]|] eqn:E; simpl in H; [|done].
    apply CDCL_decide_keeps in E as [K L].
    destruct t; simplify_eq; (split; [exact K|left; simpl; by rewrite L]).
  - destruct (CDCL_prop s) as [[t s1]|] eqn:E; simpl in H; [|done].
    injection H as <-. apply prop_loop_keeps in E as [K L].
    split; [exact K|left; simpl; by rewrite L].
  - destruct (CDCL_repair_conflict s) as [[s1| |]|] eqn:E; simpl in H; try done.
    injection H as <-. apply CDCL_repair_conflict_store in E as (Hh & Hc & Hv & HL).
    split; [|exact HL]. split; [simpl; rewrite Hh; apply same_clauses_refl|done].
  - done.
Qed.

Lemma reaches_store s0 s :
  reaches s0 s →
  (∀ e, e ∈ data (learned_cnf s0) → e = Some (length (heap s0))) →
  keeps_clauses s0 s ∧ ∀ e, e ∈ data (learned_cnf s) → e = Some (length (heap s)).
Proof.
  intros Hrun. induction Hrun as [s|s1 s2 s3 H12 _ IH]; intros H0.
  - split; [apply keeps_clauses_refl|done].
  - apply driver_step_store in H12 as [K HL].
    assert (Hlen : length (heap s2) = length (heap s1)).
    { destruct K as (Hh & _). symmetry. by eapply Forall2_length. }
    destruct IH as [K' HL'].
    { intros e He. rewrite Hlen. destruct HL as [E|E]; rewrite E in He.
      - by apply H0.
      - apply elem_of_app in He as [He|He]; [by apply H0|].
        by apply list_elem_of_singleton in He. }
    split; [by eapply keeps_clauses_trans|done].
Qed.

(** X22: in every state the driver reaches from the return of [CDCL_init]
    on a file, the store holds the clauses of the file that are not unit, as
    many and in the order of the file, each with the literals of its line
    in the same or in another order: the search loses and alters no clause
    of the file, and a learned clause is not in the store when the repair
    has returned. *)
Theorem driver_keeps_the_file (raw : nat → raw_t) (V : Z) (input : list (list Z))
    (s0 s : solver) :
  0 <= V → Z.of_nat (length input) <= ULONG_MAX →
  CDCL_init raw V input = Some (Running s0) → reaches s0 s →
  same_clauses (stored V <$> file_clauses input) (heap s) ∧
  cnf_size s = Z.of_nat (length (file_clauses input)) ∧
  num_vars s = V.
Proof.
  intros HV HN H0 Hrun.
  destruct (CDCL_init_built _ _ _ _ HV HN H0) as (_ & _ & _ & B).
  destruct (reaches_store _ _ Hrun) as [(Hh & Hc & Hv) _].
  { rewrite (built_learned _ _ _ _ B). intros e He. by apply elem_of_nil in He. }
  rewrite (built_heap _ _ _ _ B) in Hh.
  split; [done|]. split; [|rewrite Hv; eapply built_num_vars, B].
  rewrite Hc, (built_cnf_size _ _ _ _ B). pose proof (length_file input). lia.
Qed.

Lemma driver_keeps_the_file_witness :
  same_clauses (stored 3 <$> file_clauses [[-2; 3]]) (heap demo_learn_conflict) ∧
  cnf_size demo_learn_conflict = Z.of_nat (length (file_clauses [[-2; 3]])) ∧
  num_vars demo_learn_conflict = 3.
Proof.
  apply (driver_keeps_the_file zeroed 3 [[-2; 3]] demo_learn_start demo_learn_conflict).
  - lia.
  - unfold ULONG_MAX. simpl. lia.
  - vm_compute. reflexivity.
  - exact demo_learn_reaches.
Defined.

Lemma started_learned s : started s → learned_cnf s = mutable_init.
Proof.
  intros (raw & V & input & _ & H). unfold CDCL_init in H.
  repeat (case_decide; [done|]).
  destruct (init_clauses input _) as [[s1| |]|]; simpl in H; [|done..].
  by injection H as <-.
Qed.

(** X23: in every state the driver reaches, every entry of the store of
    the learned clauses is one and the same address, the one just above
    the clause array, where the local [learned_clause] of
    [CDCL_repair_conflict] was during the calls that learned: no entry
    points to a clause. *)
Theorem learned_entries_are_one_dead_address (s0 s : solver) :
  started s0 → reaches s0 s →
  length (heap s) = length (heap s0) ∧
  heap s !! length (heap s) = None ∧
  ∀ e, e ∈ data (learned_cnf s) → e = Some (length (heap s)).
Proof.
  intros H0 Hrun.
  destruct (reaches_store _ _ Hrun) as [(Hh & _) HL].
  { rewrite (started_learned _ H0). intros e He. by apply elem_of_nil in He. }
  split; [symmetry; by eapply Forall2_length|]. split; [|done].
  by apply lookup_ge_None.
Qed.

Lemma learned_entries_are_one_dead_address_witness :
  length (heap demo_learn_repaired) = length (heap demo_learn_start) ∧
  heap demo_learn_repaired !! length (heap demo_learn_repaired) = None ∧
  ∀ e, e ∈ data (learned_cnf demo_learn_repaired) →
       e = Some (length (heap demo_learn_repaired)).
Proof.
  apply (learned_entries_are_one_dead_address demo_learn_start demo_learn_repaired).
  - exact demo_learn_started.
  - apply (driver_run_reaches 5). vm_compute. reflexivity.
Defined.

(** *** Printing *)

(** Reading a DIMACS literal of a declared variable and printing it gives
    the literal. *)
Lemma print_read_lit V x :
  0 < V < 2 ^ 62 → 1 <= Z.abs x <= V → lit_to_DIMACS V (DIMACS_to_lit V x) = x.
Proof.
  intros HV Hx.
  destruct (DIMACS_to_lit_spec V x Hx) as [[Hs E]|[Hs E]]; rewrite E.
  - destruct (lit_to_DIMACS_spec V (x - 1) HV) as [[_ ->]|[? _]]; lia.
  - destruct (lit_to_DIMACS_spec V (- x - 1 + V) HV) as [[? _]|[_ ->]]; lia.
Qed.

Lemma clause_print_loop_stored V literals : ∀ pre rest,
  0 < V < 2 ^ 62 → literals = pre ++ rest →
  (∀ x, x ∈ rest → 1 <= Z.abs x <= V) →
  clause_print_loop V (stored V literals) (length rest) (length pre) =
    Some (printed_literals rest).
Proof.
  intros pre rest. revert pre.
  induction rest as [|x rest IH]; intros pre HV Hl Hx; [done|].
  simpl. unfold lit_at, stored. simpl.
  rewrite list_lookup_fmap, Hl, lookup_app_r, Nat.sub_diag by lia. simpl.
  rewrite print_read_lit by (try done; apply Hx; by left).
  specialize (IH (pre ++ [x]) HV).
  rewrite length_app, Nat.add_1_r in IH. simpl in IH.
  unfold stored in IH. rewrite <- Hl. rewrite IH; [done| |].
  - by rewrite <- app_assoc.
  - intros y Hy. apply Hx. by right.
Qed.

Lemma clause_print_stored V literals :
  0 < V < 2 ^ 62 → (∀ x, x ∈ literals → 1 <= Z.abs x <= V) →
  clause_print V (stored V literals) =
    Some (printed_literals literals ++ [Printf " 0\n" []]).
Proof.
  intros HV Hx. unfold clause_print.
  change (width (stored V literals)) with (Z.of_nat (length literals)).
  rewrite Nat2Z.id.
  pose proof (clause_print_loop_stored V literals [] literals HV eq_refl Hx) as E.
  simpl in E. by rewrite E.
Qed.

Lemma cnf_print_loop_stored s V clauses : ∀ pre rest,
  0 < V < 2 ^ 62 → num_vars s = V → heap s = stored V <$> clauses →
  clauses = pre ++ rest →
  (∀ literals x, literals ∈ rest → x ∈ literals → 1 <= Z.abs x <= V) →
  cnf_print_loop s (length rest) (length pre) =
    Some (rest ≫= λ literals, printed_literals literals ++ [Printf " 0\n" []]).
Proof.
  intros pre rest. revert pre.
  induction rest as [|literals rest IH]; intros pre HV Hv Hh Hc Hx; [done|].
  simpl. rewrite Hh, list_lookup_fmap, Hc, lookup_app_r, Nat.sub_diag by lia. simpl.
  rewrite Hv, clause_print_stored; [|done|intros x; apply Hx; by left]. simpl.
  specialize (IH (pre ++ [literals]) HV Hv Hh).
  rewrite length_app, Nat.add_1_r in IH. rewrite IH; [done| |].
  - by rewrite <- app_assoc.
  - intros l x Hl. apply Hx. by right.
Qed.

(** X24: [cnf_print] after [CDCL_init], on a file whose clauses of two
    literals or more are over declared variables: after the line
    [FORMULA:] it prints these clauses in the order of the file, each as
    its literals in the order and with the signs of the file, a blank after
    each, and a blank, 0 and a newline at the end.  The unit clauses are
    not printed. *)
Theorem cnf_print_prints_the_file (raw : nat → raw_t) (V : Z)
    (input : list (list Z)) (s : solver) :
  0 <= V → Z.of_nat (length input) <= ULONG_MAX →
  CDCL_init raw V input = Some (Running s) →
  (∀ literals x, literals ∈ file_clauses input → x ∈ literals → 1 <= Z.abs x <= V) →
  cnf_print s =
    Some (Printf "FORMULA:\n" [] ::
          (file_clauses input ≫= λ literals,
             printed_literals literals ++ [Printf " 0\n" []])).
Proof.
  intros HV HN H Hx.
  destruct (CDCL_init_built _ _ _ _ HV HN H) as (HV' & _ & _ & B).
  unfold cnf_print.
  rewrite (built_cnf_size _ _ _ _ B).
  replace (Z.of_nat (length input) - Z.of_nat (length (file_units input)))
    with (Z.of_nat (length (file_clauses input)))
    by (pose proof (length_file input); lia).
  rewrite Nat2Z.id.
  assert (HV2 : 0 < V < 2 ^ 62) by lia.
  pose proof (cnf_print_loop_stored s V (file_clauses input) [] (file_clauses input)
                HV2 (built_num_vars _ _ _ _ B) (built_heap _ _ _ _ B) eq_refl Hx) as E.
  simpl in E. by rewrite E.
Qed.

Lemma cnf_print_prints_the_file_witness :
  cnf_print demo_learn_start =
    Some (Printf "FORMULA:\n" [] ::
          (file_clauses [[-2; 3]] ≫= λ literals,
             printed_literals literals ++ [Printf " 0\n" []])).
Proof.
  apply (cnf_print_prints_the_file zeroed 3 [[-2; 3]]).
  - lia.
  - unfold ULONG_MAX. simpl. lia.
  - vm_compute. reflexivity.
  - intros literals x Hl Hx.
    apply list_elem_of_singleton in Hl. subst literals.
    apply elem_of_cons in Hx as [->|Hx]; [simpl; lia|].
    apply list_elem_of_singleton in Hx. subst x. simpl. lia.
Defined.

Lemma print_trail_loop_no_TAIL s n : ∀ i o,
  i + Z.of_nat n <= trail_tail (trail s) →
  print_trail_loop s n i = Some o → Printf "TAIL" [] ∉ o.
Proof.
  induction n as [|n IH]; simpl; intros i o Hi H.
  - simplify_eq. apply not_elem_of_nil.
  - destruct (trail_read s i) as [lit|]; simpl in H; [|done].
    destruct (get_ass s lit) as [a|]; simpl in H; [|done].
    destruct (print_trail_loop s n (i + 1)) as [rest|] eqn:E; simpl in H; [|done].
    injection H as <-. apply IH in E; [|lia].
    rewrite (decide_False (P := i = trail_tail (trail s))) by lia.
    rewrite not_elem_of_cons. split; [congruence|].
    rewrite !not_elem_of_app. split.
    { case_decide; [rewrite list_elem_of_singleton; congruence|].
      unfold print_ass_type.
      repeat case_decide; rewrite ?list_elem_of_singleton;
        first [congruence | apply not_elem_of_nil]. }
    split.
    { case_decide; [rewrite list_elem_of_singleton; congruence|apply not_elem_of_nil]. }
    split; [apply not_elem_of_nil|].
    rewrite not_elem_of_cons. split; [congruence|exact E].
Qed.

(** X25: [print_trail] prints the word TAIL on no line, whatever the
    trail: its loop stops below the tail, where the test
    [temp_pointer == trail.tail] is false.  On a trail with the tail at the
    start it prints [(empty)] and nothing of the sequence. *)
Theorem print_trail_never_prints_TAIL (s : solver) (o : list out) :
  print_trail s = Some o →
  (Printf "TAIL" [] ∉ o) ∧
  (trail_tail (trail s) = 0 → o = [Printf "TRAIL: " []; Printf " (empty)\n\n" []]).
Proof.
  unfold print_trail. intros H. case_decide as Ht.
  - simplify_eq. split; [|done].
    rewrite !not_elem_of_cons. split_and!; try congruence. apply not_elem_of_nil.
  - destruct (print_trail_loop s _ 0) as [o'|] eqn:E; simpl in H; [|done].
    injection H as <-. split; [|intros; lia].
    assert (Ho : Printf "TAIL" [] ∉ o').
    { destruct (Z.le_gt_cases 0 (trail_tail (trail s))).
      - eapply print_trail_loop_no_TAIL; [|exact E]. rewrite Z2Nat.id; lia.
      - rewrite Z2Nat.nonpos in E by lia. simpl in E. injection E as <-.
        apply not_elem_of_nil. }
    rewrite !not_elem_of_cons, not_elem_of_app, not_elem_of_cons.
    split_and!; try congruence; try done. apply not_elem_of_nil.
Qed.

Lemma print_trail_never_prints_TAIL_witness :
  ∃ o, print_trail demo_learn_conflict = Some o ∧
       (Printf "TAIL" [] ∉ o) ∧
       (trail_tail (trail demo_learn_conflict) = 0 →
        o = [Printf "TRAIL: " []; Printf " (empty)\n\n" []]).
Proof.
  eexists. split; [vm_compute; reflexivity|].
  apply (print_trail_never_prints_TAIL demo_learn_conflict).
  vm_compute. reflexivity.
Defined.

(** X26: [mutable_print_clauses] reads through every entry of the mutable,
    so [CDCL_print] is defined in no state of the driver in which a clause
    is learned: the entry is the address of the local of the repair that
    learned it. *)
Theorem CDCL_print_after_learning (s0 s : solver) :
  started s0 → reaches s0 s →
  data (learned_cnf s) ≠ [] →
  mutable_print_clauses s (learned_cnf s) = None ∧ CDCL_print s = None.
Proof.
  intros H0 Hrun Hne.
  destruct (reaches_store _ _ Hrun) as [_ HL].
  { rewrite (started_learned _ H0). intros e He. by apply elem_of_nil in He. }
  assert (Hm : mutable_print_clauses s (learned_cnf s) = None).
  { unfold mutable_print_clauses.
    destruct (data (learned_cnf s)) as [|e es] eqn:Ed; [done|].
    assert (He : e = Some (length (heap s))) by (apply HL; by left).
    subst e. simpl. unfold clause_ptr in *.
    destruct (heap s !! length (heap s)) as [c|] eqn:El; [|reflexivity].
    apply lookup_lt_Some in El. lia. }
  split; [done|]. unfold CDCL_print. rewrite Hm.
  by destruct (cnf_print s).
Qed.

Lemma CDCL_print_after_learning_witness :
  mutable_print_clauses demo_learn_repaired (learned_cnf demo_learn_repaired) = None ∧
  CDCL_print demo_learn_repaired = None.
Proof.
  apply (CDCL_print_after_learning demo_learn_start demo_learn_repaired).
  - exact demo_learn_started.
  - apply (driver_run_reaches 5). vm_compute. reflexivity.
  - discriminate.
Defined.

(** *** Room on the trail *)

Lemma var_of_eq V l l' :
  0 < V <= 2 ^ 62 → 0 <= l < 2 * V → 0 <= l' < 2 * V →
  var_of V l = var_of V l' → l = l' ∨ l = get_comp_lit V l'.
Proof.
  intros HV Hl Hl' H. unfold var_of in H.
  destruct (get_comp_lit_spec V l' HV Hl') as [[? ->]|[? ->]];
    destruct (Z.ltb_spec l V); destruct (Z.ltb_spec l' V); lia.
Qed.

(** With an AVAILABLE variable left, the literals queued after the unit
    clauses leave room on the trail: they are over variables of their own,
    none of them that one. *)
Lemma inv_room b n0 D V d tr cs v c :
  inv b n0 D V d tr cs → n0 <= V →
  0 <= v < V → cat cs v = Some c → c_status c = AVAILABLE →
  trail_tail tr < 2 * V.
Proof.
  intros I Hn0 Hv Hc Hav.
  pose proof (inv_V _ _ _ _ _ _ _ I) as HV.
  pose proof (inv_n0 _ _ _ _ _ _ _ I) as Hn.
  set (vars := (λ j, var_of V (default 0 (seq_at tr j))) <$>
               seqZ n0 (trail_tail tr - n0)).
  assert (Hlook : ∀ (a : nat) x, vars !! a = Some x →
            ∃ l cl, Z.of_nat a < trail_tail tr - n0 ∧
                    seq_at tr (n0 + Z.of_nat a) = Some l ∧ x = var_of V l ∧
                    0 <= l < 2 * V ∧ cat cs l = Some cl ∧ c_status cl = PENDING).
  { intros a x Ha. unfold vars in Ha. rewrite list_lookup_fmap in Ha.
    destruct (seqZ n0 (trail_tail tr - n0) !! a) as [j|] eqn:Ej; [|done].
    apply lookup_seqZ in Ej as [-> Hlt]. simpl in Ha. injection Ha as <-.
    destruct (inv_pending _ _ _ _ _ _ _ I (n0 + Z.of_nat a))
      as (l & cl & Hs & Hr & Hcl & Hp); [lia|].
    exists l, cl. rewrite Hs. done. }
  assert (Hnd : NoDup (v :: vars)).
  { apply NoDup_cons. split.
    - intros [a Ha]%list_elem_of_lookup.
      destruct (Hlook a v Ha) as (l & cl & _ & _ & Hx & Hr & Hcl & Hp).
      destruct (var_of_eq V v l) as [->| ->]; [done|lia|done| | |].
      { unfold var_of at 1. destruct (Z.ltb_spec v V); [done|lia]. }
      + congruence.
      + destruct (inv_comp_status _ _ _ _ _ _ _ _ _ I Hcl) as (c' & Hc' & Hst & _).
        congruence.
    - apply NoDup_alt. intros a a' x Ha Ha'.
      destruct (Hlook a x Ha) as (l & cl & Hlt & Hs & Hx & Hr & Hcl & Hp).
      destruct (Hlook a' x Ha') as (l' & cl' & Hlt' & Hs' & Hx' & Hr' & Hcl' & Hp').
      destruct (decide (a = a')) as [|Hne]; [done|]. exfalso.
      assert (Hvar : var_of V l = var_of V l') by congruence.
      destruct (decide (a < a')%nat).
      + destruct (inv_distinct _ _ _ _ _ _ _ I (n0 + Z.of_nat a) (n0 + Z.of_nat a') l l')
          as [N1 N2]; [lia|lia|done|done|].
        destruct (var_of_eq V l l' HV Hr Hr' Hvar); done.
      + destruct (inv_distinct _ _ _ _ _ _ _ I (n0 + Z.of_nat a') (n0 + Z.of_nat a) l' l)
          as [N1 N2]; [lia|lia|done|done|].
        destruct (var_of_eq V l' l HV Hr' Hr (eq_sym Hvar)); done. }
  assert (Hsub : ∀ x, x ∈ v :: vars → x ∈ seqZ 0 V).
  { intros x Hx. apply elem_of_seqZ. apply elem_of_cons in Hx as [->|Hx]; [lia|].
    apply list_elem_of_lookup in Hx as [a Ha].
    destruct (Hlook a x Ha) as (l & _ & _ & _ & -> & Hr & _).
    unfold var_of. destruct (Z.ltb_spec l V); lia. }
  pose proof (submseteq_length _ _ (NoDup_submseteq _ _ Hnd Hsub)) as Hlen.
  rewrite length_seqZ in Hlen. simpl in Hlen. unfold vars in Hlen.
  rewrite length_fmap, length_seqZ in Hlen. lia.
Qed.

Lemma decide_loop_is_Some n0 D s n : ∀ w,
  Inv false n0 D s → n0 <= num_vars s →
  0 <= w → w + Z.of_nat n <= num_vars s →
  is_Some (decide_loop n w s).
Proof.
  induction n as [|n IH]; intros w I Hn0 Hw Hwn; simpl; [done|].
  pose proof (inv_V _ _ _ _ _ _ _ I) as HV.
  pose proof (inv_len _ _ _ _ _ _ _ I) as Hlen. rewrite length_cores in Hlen.
  pose proof (inv_seq _ _ _ _ _ _ _ I) as Hseq. rewrite length_cores in Hseq.
  destruct (get_ass_is_Some s w) as [a Ha]; [lia|]. rewrite Ha. simpl.
  case_decide as Hav; [|apply IH; try done; lia].
  destruct (upd_ass_is_Some (set_ass_type DEC_ASS) w s) as [s1 H1]; [lia|].
  rewrite H1. simpl.
  destruct (upd_ass_shape _ _ _ _ H1) as (L1 & V1 & _ & T1 & _).
  destruct (upd_ass_is_Some (set_ass_type DEC_ASS) (w + num_vars s1) s1) as [s2 H2];
    [rewrite L1, V1; lia|].
  rewrite H2. simpl.
  destruct (upd_ass_shape _ _ _ _ H2) as (L2 & V2 & _ & T2 & _).
  destruct (trail_queue_lit_is_Some w DEC_ASS s2) as [s3 H3].
  - rewrite L2, L1. lia.
  - rewrite L2, L1, V2, V1.
    destruct (get_comp_lit_spec (num_vars s) w) as [[_ ->]|[? _]]; lia.
  - rewrite T2, T1, Hseq.
    assert (Hc : cat (cores s) w = Some (core_of a)).
    { rewrite <- get_ass_cat, Ha. done. }
    pose proof (inv_room _ _ _ _ _ _ _ w _ I Hn0 ltac:(lia) Hc Hav).
    pose proof (inv_ht _ _ _ _ _ _ _ I). lia.
  - rewrite H3. done.
Qed.

(** X27: on a file with not more unit clauses than variables, [CDCL_decide]
    is defined in every state DECIDE the driver reaches: the variables it
    looks at are in the table, and when it queues a decision the tail is
    inside the sequence, the literals queued since the unit clauses being
    over variables of their own. *)
Theorem CDCL_decide_defined (s0 s : solver) :
  started s0 → reaches s0 s → state s = DECIDE →
  trail_tail (trail s0) <= num_vars s0 →
  is_Some (CDCL_decide s).
Proof.
  intros H0 Hrun Hst Hunits.
  destruct (reaches_Inv _ _ H0 Hrun) as (D & I & _).
  rewrite bool_decide_false in I by (rewrite Hst; done).
  destruct (reaches_store _ _ Hrun) as [(_ & _ & Hv) _].
  { rewrite (started_learned _ H0). intros e He. by apply elem_of_nil in He. }
  pose proof (inv_V _ _ _ _ _ _ _ I) as HV.
  unfold CDCL_decide. case_decide; [done|].
  eapply decide_loop_is_Some; [exact I|lia|lia|lia].
Qed.

Lemma CDCL_decide_defined_witness : is_Some (CDCL_decide demo_learn_propagated_state).
Proof.
  apply (CDCL_decide_defined demo_learn_start demo_learn_propagated_state).
  - exact demo_learn_started.
  - apply (driver_run_reaches 2). vm_compute. reflexivity.
  - reflexivity.
  - simpl. lia.
Defined.

(** *** What [backtrack] unassigns *)

Lemma backtrack_loop_unassigns k n : ∀ s s',
  backtrack_loop k n s = Some s' →
  ∃ m s'', (m ≤ n)%nat ∧ s' = with_head (Z.of_nat m - 1) s'' ∧ stops k m s'' ∧
           trail s'' = trail s ∧
           (∀ j, unassigned s j → unassigned s'' j) ∧
           ∀ j, (m ≤ j < n)%nat → unassigned s'' j.
Proof.
  induction n as [|h IH]; simpl; intros s s' H.
  - exists 0%nat, s. simplify_eq. split_and!; [done..|]. intros; lia.
  - destruct (trail_read s (Z.of_nat h)) as [lit|] eqn:Hr; simpl in H; [|done].
    destruct (get_ass s lit) as [a|] eqn:Ha; simpl in H; [|done].
    case_decide.
    + destruct (unassign lit s) as [s1|] eqn:Hu; simpl in H; [|done].
      destruct (IH _ _ H) as (m & s'' & Hm & -> & Hstop & Htr & Hkeep & Hun).
      exists m, s''. split; [lia|]. split; [done|]. split; [done|].
      split; [rewrite Htr; eapply unassign_frame, Hu|].
      split.
      * intros j Hj. apply Hkeep. eauto using unassign_unassigned.
      * intros j Hj. destruct (decide (j = h)) as [->|]; [|apply Hun; lia].
        apply Hkeep. by eapply unassign_here.
    + exists (S h), s. simplify_eq. split; [done|]. split; [do 2 f_equal; lia|].
      split; [by exists lit, a|]. split; [done|]. split; [done|]. intros; lia.
Qed.

(** X29: [backtrack(k)] called with the head inside the sequence walks down
    from the head while the level of the literal there is above [k]: when
    it returns, every position from the new head up to the old one is
    unassigned, the literal and its complement at level DEC_MAX; the new
    head is 0 or has just below it a literal whose level is not above [k];
    the tail is at the head, the level is [k], and the entries of the
    sequence are the same. *)
Theorem backtrack_unassigns (k : Z) (s s' : solver) :
  0 <= trail_head (trail s) →
  backtrack k s = Some s' →
  0 <= trail_head (trail s') <= trail_head (trail s) + 1 ∧
  trail_tail (trail s') = trail_head (trail s') ∧
  cur_dec_level s' = k ∧
  sequence (trail s') = sequence (trail s) ∧
  stops k (Z.to_nat (trail_head (trail s'))) s' ∧
  ∀ j : nat, trail_head (trail s') <= Z.of_nat j <= trail_head (trail s) →
             unassigned s' j.
Proof.
  intros Hh H. unfold backtrack in H. rewrite decide_True in H by lia.
  destruct (backtrack_loop k _ s) as [s1|] eqn:E; simpl in H; [|done].
  injection H as <-.
  apply backtrack_loop_unassigns in E as (m & s'' & Hm & -> & Hstop & Htr & _ & Hun).
  simpl. split; [lia|]. split; [done|]. split; [done|].
  split; [by rewrite Htr|].
  replace (Z.to_nat (Z.of_nat m - 1 + 1)) with m by lia.
  split.
  - destruct m; [done|]. exact Hstop.
  - intros j Hj. apply (Hun j). lia.
Qed.

Lemma backtrack_unassigns_witness :
  0 <= trail_head (trail demo_backtracked) <= trail_head (trail demo_conflict) + 1 ∧
  trail_tail (trail demo_backtracked) = trail_head (trail demo_backtracked) ∧
  cur_dec_level demo_backtracked = 0 ∧
  sequence (trail demo_backtracked) = sequence (trail demo_conflict) ∧
  stops 0 (Z.to_nat (trail_head (trail demo_backtracked))) demo_backtracked ∧
  ∀ j : nat, trail_head (trail demo_backtracked) <= Z.of_nat j <=
               trail_head (trail demo_conflict) →
             unassigned demo_backtracked j.
Proof.
  apply (backtrack_unassigns 0 demo_conflict demo_backtracked).
  - simpl. lia.
  - vm_compute. reflexivity.
Defined.

(** *** No unit clause in the store *)

(** X30: in every state the driver reaches from the return of [CDCL_init]
    on a file, every clause of the store has a width of 2 or more, the
    number of its literals, and [clause_is_unit] returns 0 on it: the unit
    clauses of the file are queued on the trail and not stored. *)
Theorem no_unit_clause_stored (raw : nat → raw_t) (V : Z) (input : list (list Z))
    (s0 s : solver) (c : clause_t) :
  0 <= V → Z.of_nat (length input) <= ULONG_MAX →
  CDCL_init raw V input = Some (Running s0) → reaches s0 s →
  c ∈ heap s →
  2 <= width c ∧ width c = Z.of_nat (length (lits c)) ∧ Clause.clause_is_unit c = 0.
Proof.
  intros HV HN H0 Hrun Hc.
  destruct (CDCL_init_built _ _ _ _ HV HN H0) as (_ & _ & Hne & B).
  destruct (reaches_store _ _ Hrun) as [(Hh & _) _].
  { rewrite (built_learned _ _ _ _ B). intros e He. by apply elem_of_nil in He. }
  rewrite (built_heap _ _ _ _ B) in Hh.
  apply list_elem_of_lookup in Hc as [p Hp].
  destruct (Forall2_lookup_r _ _ _ _ _ Hh Hp) as (c0 & Hp0 & Hw & Hperm).
  rewrite list_lookup_fmap in Hp0.
  destruct (file_clauses input !! p) as [literals|] eqn:El; [|done].
  simpl in Hp0. injection Hp0 as <-. simpl in Hw, Hperm.
  apply list_elem_of_lookup_2 in El. unfold file_clauses in El.
  apply list_elem_of_filter in El as [Hlen Hin].
  assert (2 ≤ length literals)%nat.
  { destruct literals as [|x [|y l]]; simpl in *; [done|done|lia]. }
  assert (Hl : length (lits c) = length literals).
  { rewrite Hperm. by rewrite length_fmap. }
  split; [lia|]. split; [lia|].
  unfold Clause.clause_is_unit. rewrite decide_False; [done|lia].
Qed.

Lemma no_unit_clause_stored_witness :
  2 <= width (mk_clause [Some 2; Some 4] 2) ∧
  width (mk_clause [Some 2; Some 4] 2) =
    Z.of_nat (length (lits (mk_clause [Some 2; Some 4] 2))) ∧
  Clause.clause_is_unit (mk_clause [Some 2; Some 4] 2) = 0.
Proof.
  apply (no_unit_clause_stored zeroed 3 [[-2; 3]] demo_learn_start demo_learn_conflict).
  - lia.
  - unfold ULONG_MAX. simpl. lia.
  - vm_compute. reflexivity.
  - exact demo_learn_reaches.
  - vm_compute. left.
Defined.
